(** * Lumina Translate: format engine and batch translation driver

    A shallow embedding of the parser/serializer module
    ([parseSRT], [parseLRC], [parsePlainText], [stringifySRT],
    [stringifyLRC]), of [translateBatch] in [services/geminiService.ts]
    and of the [App] component's reparse effect and [startTranslation]
    handler, then of the format detectors ([isSRTContent],
    [isLRCContent]) and of the handlers that load, edit and export the
    text ([processContent], [handleManualInput], [handleDownload]),
    followed by the properties proved about them.

    JavaScript strings are modelled as lists of characters, one [ascii]
    per UTF-16 code unit below 256 (so the white space class is the
    Latin-1 part of the ECMAScript one). *)

From Stdlib Require Import String Ascii List Arith Lia Bool PeanoNat.
From Stdlib Require Import DecimalString.
Import ListNotations.

Set Implicit Arguments.

(* ================================================================== *)
(** ** JavaScript string primitives *)
(* ================================================================== *)

Module Js.

Definition str := list ascii.

Coercion list_ascii_of_string : string >-> list.

Definition LF : ascii := ascii_of_nat 10.
Definition CR : ascii := ascii_of_nat 13.

(** The separator passed to [join] and the line break of template
    literals. *)
Definition nl : str := [LF].

(** [\s]: TAB, LF, VT, FF, CR, SPACE and NBSP. *)
Definition is_space (c : ascii) : bool :=
  let n := nat_of_ascii c in
  (n =? 9) || (n =? 10) || (n =? 11) || (n =? 12) || (n =? 13)
  || (n =? 32) || (n =? 160).

(** [\d]: the ASCII digits only. *)
Definition is_digit (c : ascii) : bool :=
  let n := nat_of_ascii c in (48 <=? n) && (n <=? 57).

(** [.] without the [s] flag: anything but a line terminator. *)
Definition is_line_terminator (c : ascii) : bool :=
  Ascii.eqb c LF || Ascii.eqb c CR.

(** Truthiness of a string: the empty string is the only falsy one. *)
Definition truthy (s : str) : bool :=
  match s with [] => false | _ :: _ => true end.

(** [a || b] on strings. *)
Definition or_else (a b : str) : str := if truthy a then a else b.

Fixpoint drop_while (p : ascii -> bool) (s : str) : str :=
  match s with
  | [] => []
  | c :: s' => if p c then drop_while p s' else s
  end.

Fixpoint take_while (p : ascii -> bool) (s : str) : str :=
  match s with
  | [] => []
  | c :: s' => if p c then c :: take_while p s' else []
  end.

Definition trim_start (s : str) : str := drop_while is_space s.
Definition trim_end (s : str) : str := rev (drop_while is_space (rev s)).

(** [String.prototype.trim]. *)
Definition trim (s : str) : str := trim_end (trim_start s).

Fixpoint str_eqb (a b : str) : bool :=
  match a, b with
  | [], [] => true
  | x :: a', y :: b' => Ascii.eqb x y && str_eqb a' b'
  | _, _ => false
  end.

Fixpoint starts_with (p s : str) : bool :=
  match p, s with
  | [], _ => true
  | x :: p', y :: s' => Ascii.eqb x y && starts_with p' s'
  | _ :: _, [] => false
  end.

(** [String.prototype.includes]. *)
Fixpoint includes (p s : str) : bool :=
  starts_with p s ||
  match s with
  | [] => false
  | _ :: s' => includes p s'
  end.

Definition cons_head (c : ascii) (parts : list str) : list str :=
  match parts with
  | [] => [[c]]
  | part :: rest => (c :: part) :: rest
  end.

(** [s.split(d)] for a one-character separator [d]. *)
Fixpoint split_on (d : ascii) (s : str) : list str :=
  match s with
  | [] => [[]]
  | c :: s' =>
      if Ascii.eqb c d then [] :: split_on d s'
      else cons_head c (split_on d s')
  end.

(** [s.split(re)] for a regular expression without capture groups that
    never matches the empty string.  [re s] is the length of the match
    of the expression anchored at the start of [s], if there is one.
    [skip] counts the characters of the current match still to be
    consumed. *)
Fixpoint split_re (re : str -> option nat) (skip : nat) (s : str) : list str :=
  match s with
  | [] => [[]]
  | c :: s' =>
      match skip with
      | S k => split_re re k s'
      | 0 =>
          match re s with
          | Some (S n) => [] :: split_re re n s'
          | _ => cons_head c (split_re re 0 s')
          end
      end
  end.

(** [Array.prototype.join] on an array of strings. *)
Fixpoint join (sep : str) (parts : list str) : str :=
  match parts with
  | [] => []
  | [x] => x
  | x :: rest => x ++ sep ++ join sep rest
  end.

(** [Array.prototype.findIndex]; [None] stands for [-1]. *)
Fixpoint findIndex {A} (p : A -> bool) (l : list A) : option nat :=
  match l with
  | [] => None
  | x :: l' => if p x then Some 0 else option_map S (findIndex p l')
  end.

(** Decimal rendering of a non-negative integer, as template literals
    and string concatenation do. *)
Definition of_nat (n : nat) : str :=
  list_ascii_of_string (NilZero.string_of_uint (Nat.to_uint n)).

End Js.

Import Js.

Open Scope string_scope.
Open Scope list_scope.

(* ================================================================== *)
(** ** Data model ([types.ts]) *)
(* ================================================================== *)

Inductive ContentType := PLAIN_TEXT | SUBTITLE_SRT | LYRICS_LRC | MARKDOWN.

Record SubtitleBlock := mkBlock {
  id : nat;
  startTime : str;
  endTime : str;
  originalText : str;
  translatedText : str;
  isTranslating : bool
}.

Inductive OutputFormat := ONLY_TRANSLATION | DUAL_TRANS_SRC | DUAL_SRC_TRANS.

Inductive LLMProvider := GEMINI | CUSTOM.

Module CustomLLMConfig.
Record t := mk {
  baseUrl : str;
  apiKey : str;
  modelName : str
}.
End CustomLLMConfig.

(* ================================================================== *)
(** ** The regular expressions of the parser module *)
(* ================================================================== *)

Module Re.

(** [\s*\n], greedy with backtracking: the match runs to the last line
    feed of the white space run.  Returns the number of characters
    consumed. *)
Fixpoint ws_then_lf (s : str) : option nat :=
  match s with
  | [] => None
  | c :: s' =>
      if is_space c then
        match ws_then_lf s' with
        | Some n => Some (S n)
        | None => if Ascii.eqb c LF then Some 1 else None
        end
      else None
  end.

(** [/\n\s*\n/] anchored at the start of [s]. *)
Definition blank_line (s : str) : option nat :=
  match s with
  | c :: s' => if Ascii.eqb c LF then option_map S (ws_then_lf s') else None
  | [] => None
  end.

(** [/\r?\n/] anchored at the start of [s]. *)
Definition line_break (s : str) : option nat :=
  match s with
  | c1 :: c2 :: _ =>
      if Ascii.eqb c1 CR && Ascii.eqb c2 LF then Some 2
      else if Ascii.eqb c1 LF then Some 1 else None
  | [c1] => if Ascii.eqb c1 LF then Some 1 else None
  | [] => None
  end.

(** [s.replace(/\r\n/g, '\n')]. *)
Fixpoint replace_crlf (s : str) : str :=
  match s with
  | [] => []
  | c1 :: s' =>
      match s' with
      | c2 :: s'' =>
          if Ascii.eqb c1 CR && Ascii.eqb c2 LF then LF :: replace_crlf s''
          else c1 :: replace_crlf s'
      | [] => [c1]
      end
  end.

(** [\d{2}:\d{2}:\d{2},\d{3}] as a test on a whole string. *)
Definition is_timestamp (t : str) : bool :=
  match t with
  | [h1; h2; c1; m1; m2; c2; s1; s2; c3; f1; f2; f3] =>
      is_digit h1 && is_digit h2 && Ascii.eqb c1 ":"
      && is_digit m1 && is_digit m2 && Ascii.eqb c2 ":"
      && is_digit s1 && is_digit s2 && Ascii.eqb c3 ","
      && is_digit f1 && is_digit f2 && is_digit f3
  | _ => false
  end.

(** The same pattern anchored at the start of [s]: the matched text
    and what follows it. *)
Definition timestamp (s : str) : option (str * str) :=
  if is_timestamp (firstn 12 s) then Some (firstn 12 s, skipn 12 s) else None.

Definition lit (p s : str) : option str :=
  if starts_with p s then Some (skipn (List.length p) s) else None.

(** [/(\d{2}:\d{2}:\d{2},\d{3})\s*-->\s*(\d{2}:\d{2}:\d{2},\d{3})/]
    anchored at the start of [s]; the two capture groups.  White space
    meets neither ["-"] nor a digit, so the greedy [\s*] never gives
    anything back. *)
Definition time_line_at (s : str) : option (str * str) :=
  match timestamp s with
  | Some (t1, r1) =>
      match lit "-->" (trim_start r1) with
      | Some r2 =>
          match timestamp (trim_start r2) with
          | Some (t2, _) => Some (t1, t2)
          | None => None
          end
      | None => None
      end
  | None => None
  end.

(** [line.match(...)] with the expression above: the leftmost match. *)
Fixpoint time_line (s : str) : option (str * str) :=
  match time_line_at s with
  | Some r => Some r
  | None =>
      match s with
      | [] => None
      | _ :: s' => time_line s'
      end
  end.

(** [\d{2}:\d{2}] as a test on a whole string. *)
Definition is_mmss (t : str) : bool :=
  match t with
  | [m1; m2; c; s1; s2] =>
      is_digit m1 && is_digit m2 && Ascii.eqb c ":" && is_digit s1 && is_digit s2
  | _ => false
  end.

(** [\.\d{3}\]] anchored at the start of [s]: the fraction and what
    follows the bracket. *)
Definition lrc_fraction3 (s : str) : option (str * str) :=
  match s with
  | dot :: d1 :: d2 :: d3 :: close :: rest =>
      if Ascii.eqb dot "." && is_digit d1 && is_digit d2 && is_digit d3
         && Ascii.eqb close "]"
      then Some ([dot; d1; d2; d3], rest)
      else None
  | _ => None
  end.

(** [\.\d{2}\]] anchored at the start of [s]. *)
Definition lrc_fraction2 (s : str) : option (str * str) :=
  match s with
  | dot :: d1 :: d2 :: close :: rest =>
      if Ascii.eqb dot "." && is_digit d1 && is_digit d2 && Ascii.eqb close "]"
      then Some ([dot; d1; d2], rest)
      else None
  | _ => None
  end.

(** [(?:\.\d{2,3})?\]] after the minutes and seconds: the fraction
    with three digits, else with two (the quantifier is greedy), else
    no fraction, each time with the closing bracket behind it.
    Returns the fraction matched and what follows the bracket. *)
Definition lrc_fraction (s : str) : option (str * str) :=
  match lrc_fraction3 s with
  | Some r => Some r
  | None =>
      match lrc_fraction2 s with
      | Some r => Some r
      | None =>
          match s with
          | close :: rest => if Ascii.eqb close "]" then Some ([], rest) else None
          | [] => None
          end
      end
  end.

(** The [timeRegex] of [parseLRC] on one line: an opening bracket at
    the start of the line, the time tag [\d{2}:\d{2}] with its optional
    fraction (first capture group), the closing bracket, and the rest
    of the line up to a line terminator (second capture group). *)
Definition lrc_line (line : str) : option (str * str) :=
  match line with
  | "["%char :: r =>
      if is_mmss (firstn 5 r) then
        match lrc_fraction (skipn 5 r) with
        | Some (frac, rest) =>
            Some (firstn 5 r ++ frac,
                  take_while (fun c => negb (is_line_terminator c)) rest)
        | None => None
        end
      else None
  | _ => None
  end.

End Re.

(* ================================================================== *)
(** ** Parsers *)
(* ================================================================== *)

(** The body of the [for] loop of [parseSRT] up to the [push]: the
    start time, end time and text of a block that yields a segment. *)
Definition parseSRT_block (block : str) : option (str * str * str) :=
  if negb (truthy (trim block)) then None
  else
    let lines := split_on LF block in
    if (List.length lines <? 2)%nat then None
    else
      match findIndex (includes "-->") lines with
      | None => None
      | Some arrowIndex =>
          let timeLineIndex := arrowIndex in
          let timeLine := nth timeLineIndex lines [] in
          match Re.time_line timeLine with
          | None => None
          | Some (t1, t2) =>
              let textLines := skipn (timeLineIndex + 1) lines in
              let originalText := trim (join nl textLines) in
              if truthy originalText then Some (t1, t2, originalText) else None
          end
      end.

Fixpoint parseSRT_loop (blocks : list str) (idCounter : nat) : list SubtitleBlock :=
  match blocks with
  | [] => []
  | block :: rest =>
      match parseSRT_block block with
      | Some (t1, t2, originalText) =>
          mkBlock idCounter t1 t2 originalText [] false
            :: parseSRT_loop rest (S idCounter)
      | None => parseSRT_loop rest idCounter
      end
  end.

Definition parseSRT (content : str) : list SubtitleBlock :=
  let normalized := Re.replace_crlf content in
  let blocks := split_re Re.blank_line 0 normalized in
  parseSRT_loop blocks 1.

Fixpoint parseLRC_loop (lines : list str) (id : nat) : list SubtitleBlock :=
  match lines with
  | [] => []
  | line :: rest =>
      match Re.lrc_line line with
      | Some (startTime, rest_of_line) =>
          let text := trim rest_of_line in
          if truthy text then
            mkBlock id startTime [] text [] false :: parseLRC_loop rest (S id)
          else parseLRC_loop rest id
      | None => parseLRC_loop rest id
      end
  end.

Definition parseLRC (content : str) : list SubtitleBlock :=
  parseLRC_loop (split_re Re.line_break 0 content) 1.

Definition placeholder_time : str := "00:00:00,000".

(** [paragraphs.map((p, i) => ...)] of [parsePlainText], from index
    [i] on. *)
Fixpoint parsePlainText_map (paragraphs : list str) (i : nat) : list SubtitleBlock :=
  match paragraphs with
  | [] => []
  | p :: rest =>
      mkBlock (i + 1) placeholder_time placeholder_time (trim p) [] false
        :: parsePlainText_map rest (S i)
  end.

Definition parsePlainText (content : str) : list SubtitleBlock :=
  let paragraphs := split_re Re.blank_line 0 content in
  filter (fun b => (0 <? List.length (originalText b))%nat)
         (parsePlainText_map paragraphs 0).

(* ================================================================== *)
(** ** Serializers *)
(* ================================================================== *)

(** The text a block contributes under an output format (the [switch]
    of [stringifySRT]). *)
Definition resolved_text (format : OutputFormat) (block : SubtitleBlock) : str :=
  let original := originalText block in
  let translated := or_else (translatedText block) original in
  match format with
  | ONLY_TRANSLATION => translated
  | DUAL_TRANS_SRC => translated ++ nl ++ original
  | DUAL_SRC_TRANS => original ++ nl ++ translated
  end.

Definition stringifySRT_block (format : OutputFormat) (index : nat)
    (block : SubtitleBlock) : str :=
  of_nat (index + 1) ++ nl ++ startTime block ++ " --> " ++ endTime block
  ++ nl ++ resolved_text format block ++ nl.

(** [blocks.map((block, index) => ...)] from index [index] on. *)
Fixpoint stringifySRT_map (format : OutputFormat) (blocks : list SubtitleBlock)
    (index : nat) : list str :=
  match blocks with
  | [] => []
  | block :: rest =>
      stringifySRT_block format index block
        :: stringifySRT_map format rest (S index)
  end.

Definition stringifySRT (blocks : list SubtitleBlock) (format : OutputFormat) : str :=
  join nl (stringifySRT_map format blocks 0).

Definition timeTag (block : SubtitleBlock) : str :=
  "[" ++ startTime block ++ "]".

Definition stringifyLRC_block (format : OutputFormat) (block : SubtitleBlock) : str :=
  let original := originalText block in
  let translated := or_else (translatedText block) original in
  match format with
  | ONLY_TRANSLATION => timeTag block ++ translated
  | DUAL_TRANS_SRC =>
      timeTag block ++ translated ++ nl ++ timeTag block ++ original
  | DUAL_SRC_TRANS =>
      timeTag block ++ original ++ nl ++ timeTag block ++ translated
  end.

Definition stringifyLRC (blocks : list SubtitleBlock) (format : OutputFormat) : str :=
  join nl (map (stringifyLRC_block format) blocks).

(** [generateFormattedContent] of [App], the plain-text branch
    included. *)
Definition generateFormattedContent (contentType : ContentType)
    (blocks : list SubtitleBlock) (outputFormat : OutputFormat) : str :=
  match contentType with
  | SUBTITLE_SRT => stringifySRT blocks outputFormat
  | LYRICS_LRC => stringifyLRC blocks outputFormat
  | _ => join (nl ++ nl) (map (resolved_text outputFormat) blocks)
  end.

(* ================================================================== *)
(** ** JSON values and the accesses [translateBatch] makes on them *)
(* ================================================================== *)

Module Json.

(** A value returned by [JSON.parse].  A number is carried as its
    [ToString] rendering, the only observation made of it. *)
#[local] Set Warnings "-register-all".
Inductive json :=
| JNull
| JBool (b : bool)
| JNum (repr : str)
| JStr (s : str)
| JArr (items : list json)
| JObj (fields : list (str * json)).

Fixpoint assoc (key : str) (fields : list (str * json)) : option json :=
  match fields with
  | [] => None
  | (k, v) :: rest => if str_eqb k key then Some v else assoc key rest
  end.

(** [v.key] for a non-null [v] and a key that is no built-in property
    of strings or arrays; [None] is [undefined]. *)
Definition prop (key : str) (v : json) : option json :=
  match v with
  | JObj fields => assoc key fields
  | _ => None
  end.

(** [v[0]] for a non-null [v]. *)
Definition index0 (v : json) : option json :=
  match v with
  | JArr (x :: _) => Some x
  | JStr (c :: _) => Some (JStr [c])
  | JObj fields => assoc "0" fields
  | _ => None
  end.

(** Optional chaining [v?.f]: [undefined] on [undefined] and [null]. *)
Definition chain (f : json -> option json) (v : option json) : option json :=
  match v with
  | None | Some JNull => None
  | Some x => f x
  end.

(** JavaScript truthiness of a value that may be [undefined]. *)
Definition truthy (v : option json) : bool :=
  match v with
  | None | Some JNull | Some (JBool false) => false
  | Some (JNum r) => negb (str_eqb r "0" || str_eqb r "NaN")
  | Some (JStr s) => Js.truthy s
  | _ => true
  end.

(** [ToString] of a value; [None] when it throws a [TypeError].  An
    object without a [toString] key of its own renders through
    [Object.prototype.toString]; with one, the key holds a value that
    cannot be called, [valueOf] gives no primitive either, and the
    conversion throws.  An array renders as its elements joined by
    commas, a [null] element as the empty string, and throws when an
    element does. *)
Fixpoint to_string (v : json) : option str :=
  match v with
  | JNull => Some (list_ascii_of_string "null")
  | JBool true => Some (list_ascii_of_string "true")
  | JBool false => Some (list_ascii_of_string "false")
  | JNum r => Some r
  | JStr s => Some s
  | JArr items =>
      option_map (join ",")
        ((fix elems (l : list json) : option (list str) :=
            match l with
            | [] => Some []
            | x :: l' =>
                match match x with JNull => Some [] | _ => to_string x end with
                | Some s =>
                    match elems l' with
                    | Some rest => Some (s :: rest)
                    | None => None
                    end
                | None => None
                end
            end) items)
  | JObj fields =>
      match assoc "toString" fields with
      | Some _ => None
      | None => Some (list_ascii_of_string "[object Object]")
      end
  end.

Definition elem_string (v : json) : option str :=
  match v with
  | JNull => Some []
  | _ => to_string v
  end.

(** The strings of the elements, in order; [None] when one throws. *)
Fixpoint elem_strings (items : list json) : option (list str) :=
  match items with
  | [] => Some []
  | x :: rest =>
      match elem_string x with
      | Some s =>
          match elem_strings rest with
          | Some ss => Some (s :: ss)
          | None => None
          end
      | None => None
      end
  end.

(** [items.join(sep)]; [None] when it throws. *)
Definition array_join (sep : str) (items : list json) : option str :=
  option_map (join sep) (elem_strings items).

End Json.

Import Json.

(* ================================================================== *)
(** ** [translateBatch] ([services/geminiService.ts]) *)
(* ================================================================== *)

Record JsError := mkError {
  name : str;
  message : str
}.

Definition Error (msg : str) : JsError := mkError "Error" msg.
Definition TypeError (msg : str) : JsError := mkError "TypeError" msg.

Record TranslationRequest := mkRequest {
  texts : list str;
  targetLanguage : str;
  tone : str;
  modelName : str;
  context : option str;
  provider : LLMProvider;
  customConfig : option CustomLLMConfig.t
}.

(** What [fetch] resolves with: [body] is the outcome of reading the
    response body, by [response.text()] or [response.json()]. *)
Record FetchResponse := mkResponse {
  ok : bool;
  status : nat;
  body : JsError + str
}.

(** The observable effects of one call. *)
Inductive Event :=
| EvGenerateContent (attempt : nat)
| EvFetch (attempt : nat) (endpoint : str)
| EvWarnFailed (attemptNumber : nat) (error : JsError)
| EvWarnMerging (count : nat)
| EvWait (ms : nat).

Module Fence.

(** The expression of the code-fence clean-up, anchored at the start of
    [s]: three backquotes and [json] with an optional line feed, or an
    optional line feed and three backquotes.  Returns the length of the
    match. *)
Definition fence (s : str) : option nat :=
  if starts_with "```json" s then
    if starts_with nl (skipn 7 s) then Some 8 else Some 7
  else if starts_with (nl ++ "```") s then Some 4
  else if starts_with "```" s then Some 3
  else None.

(** [s.replace(re, empty)] with the global flag, for an expression that
    never matches the empty string. *)
Fixpoint remove_all (re : str -> option nat) (skip : nat) (s : str) : str :=
  match s with
  | [] => []
  | c :: s' =>
      match skip with
      | S k => remove_all re k s'
      | 0 =>
          match re s with
          | Some (S n) => remove_all re n s'
          | _ => c :: remove_all re 0 s'
          end
      end
  end.

(** [baseUrl.replace(/\/+$/, '')]: the trailing run of slashes goes. *)
Definition strip_trailing_slashes (s : str) : str :=
  rev (drop_while (Ascii.eqb "/") (rev s)).

End Fence.

Section TranslateBatch.

(** [JSON.parse]: the value, or the [SyntaxError] it throws. *)
Variable JSON_parse : str -> JsError + json.

(** The managed provider: the outcome of the [generateContent] call
    of attempt [attempt] (0-based) for the request built from [req],
    a rejection or the [text] of the response ([None] when it is
    [undefined]). *)
Variable generateContent : nat -> TranslationRequest -> JsError + option str.

(** The OpenAI-compatible provider: the outcome of the [fetch] of
    attempt [attempt] to [endpoint]. *)
Variable fetch : nat -> str -> TranslationRequest -> JsError + FetchResponse.

Definition maxRetries : nat := 3.

Definition missing_config (c : option CustomLLMConfig.t) : bool :=
  match c with
  | None => true
  | Some cfg =>
      negb (Js.truthy (CustomLLMConfig.baseUrl cfg))
      || negb (Js.truthy (CustomLLMConfig.apiKey cfg))
  end.

(** [response.json()]: the body read and parsed; it rejects with the
    error of the read or with the one the parser throws. *)
Definition response_json (r : FetchResponse) : JsError + json :=
  match body r with
  | inl e => inl e
  | inr s => JSON_parse s
  end.

(** [data.choices?.[0]?.message?.content]; [data.choices] throws on
    [null]. *)
Definition choice_content (data : json) : JsError + option json :=
  match data with
  | JNull => inl (TypeError "Cannot read properties of null (reading 'choices')")
  | _ => inr (chain (prop "content") (chain (prop "message")
                (chain index0 (prop "choices" data))))
  end.

(** The provider branch of the [try] body: the events raised and the
    [jsonText] obtained, a value of any type in the custom branch. *)
Definition fetch_jsonText (req : TranslationRequest) (attempt : nat)
  : list Event * (JsError + json) :=
  match provider req with
  | GEMINI =>
      ([EvGenerateContent attempt],
       match generateContent attempt req with
       | inl e => inl e
       | inr text => inr (JStr (match text with Some t => or_else t [] | None => [] end))
       end)
  | CUSTOM =>
      if missing_config (customConfig req) then
        ([], inl (Error "Missing Custom Provider Configuration"))
      else
        let endpoint :=
          match customConfig req with
          | Some cfg =>
              Fence.strip_trailing_slashes (CustomLLMConfig.baseUrl cfg)
              ++ "/chat/completions"
          | None => []
          end in
        ([EvFetch attempt endpoint],
         match fetch attempt endpoint req with
         | inl e => inl e
         | inr response =>
             if negb (ok response) then
               match body response with
               | inl e => inl e
               | inr errText =>
                   inl (Error ("Custom API Error " ++ of_nat (status response)
                               ++ ": " ++ errText))
               end
             else
               match response_json response with
               | inl e => inl e
               | inr data =>
                   match choice_content data with
                   | inl e => inl e
                   | inr content =>
                       if negb (Json.truthy content)
                       then inl (Error "Empty response from Custom API")
                       else match content with
                            | Some v => inr v
                            | None => inr JNull
                            end
                   end
               end
         end)
  end.

(** The parsing and validation part of the [try] body: the value the
    call returns, or the error thrown. *)
Definition validate (req : TranslationRequest) (jsonText : json)
  : list Event * (JsError + list json) :=
  match jsonText with
  | JStr text =>
      let cleanJson := trim (Fence.remove_all Fence.fence 0 text) in
      match JSON_parse cleanJson with
      | inl _ =>
          ([], inl (Error ("Failed to parse JSON response: "
                           ++ firstn 50 cleanJson ++ "...")))
      | inr JNull =>
          ([], inl (TypeError "Cannot read properties of null (reading 'translations')"))
      | inr parsed =>
          match prop "translations" parsed with
          | Some (JArr translations) =>
              if (List.length (texts req) =? 1)%nat
                 && (1 <? List.length translations)%nat then
                ([EvWarnMerging (List.length translations)],
                 match array_join nl translations with
                 | Some merged => inr [JStr merged]
                 | None => inl (TypeError "Cannot convert object to primitive value")
                 end)
              else if negb (List.length translations =? List.length (texts req))%nat then
                ([], inl (Error ("Length mismatch: Expected "
                                 ++ of_nat (List.length (texts req)) ++ ", got "
                                 ++ of_nat (List.length translations))))
              else ([], inr translations)
          | _ =>
              ([], inl (Error "Invalid JSON structure: missing 'translations' array"))
          end
      end
  | _ => ([], inl (TypeError "jsonText.replace is not a function"))
  end.

(** The whole [try] body of attempt [attempt]. *)
Definition try_body (req : TranslationRequest) (attempt : nat)
  : list Event * (JsError + list json) :=
  match fetch_jsonText req attempt with
  | (evs, inl e) => (evs, inl e)
  | (evs, inr jsonText) =>
      let (evs', r) := validate req jsonText in (evs ++ evs', r)
  end.

(** The [while] loop, entered with [attempt] failed attempts behind
    it; [fuel] bounds the iterations and [None] is fuel running
    out. *)
Fixpoint retry_loop (fuel : nat) (req : TranslationRequest) (attempt : nat)
  : option (list Event * (JsError + list json)) :=
  match fuel with
  | 0 => None
  | S fuel' =>
      if (attempt <? maxRetries)%nat then
        match try_body req attempt with
        | (evs, inr result) => Some (evs, inr result)
        | (evs, inl error) =>
            let evs1 := evs ++ [EvWarnFailed (attempt + 1) error] in
            let attempt := attempt + 1 in
            if (attempt =? maxRetries)%nat then Some (evs1, inl error)
            else
              match retry_loop fuel' req attempt with
              | Some (evs2, r) =>
                  Some (evs1 ++ [EvWait (1000 * 2 ^ (attempt - 1))] ++ evs2, r)
              | None => None
              end
        end
      else Some ([], inl (Error "Unexpected error in translation loop"))
  end.

Definition translateBatch (req : TranslationRequest)
  : option (list Event * (JsError + list json)) :=
  retry_loop (S maxRetries) req 0.

End TranslateBatch.

(* ================================================================== *)
(** ** The [App] component: reparse effect and translation driver *)
(* ================================================================== *)

(** [l.map((x, idx) => f x idx)] from index [idx] on. *)
Fixpoint map_index {A B} (f : A -> nat -> B) (l : list A) (idx : nat) : list B :=
  match l with
  | [] => []
  | x :: l' => f x idx :: map_index f l' (S idx)
  end.

(** [l.slice(a, b)] for [a <= b]. *)
Definition slice {A} (a b : nat) (l : list A) : list A :=
  firstn (b - a) (skipn a l).

Definition set_translatedText (t : str) (b : SubtitleBlock) : SubtitleBlock :=
  mkBlock (id b) (startTime b) (endTime b) (originalText b) t (isTranslating b).

Definition set_isTranslating (f : bool) (b : SubtitleBlock) : SubtitleBlock :=
  mkBlock (id b) (startTime b) (endTime b) (originalText b) (translatedText b) f.

Definition parse_as (contentType : ContentType) (rawText : str) : list SubtitleBlock :=
  match contentType with
  | SUBTITLE_SRT => parseSRT rawText
  | LYRICS_LRC => parseLRC rawText
  | _ => parsePlainText rawText
  end.

(** The effect run when [contentType] changes: the segment list it
    leaves in the state, given the raw text and the list [blocks] of
    the render it runs in. *)
Definition reparse (rawText : str) (contentType : ContentType)
    (blocks : list SubtitleBlock) : list SubtitleBlock :=
  if negb (Js.truthy rawText) then blocks
  else
    let currentTranslations := map translatedText blocks in
    let newBlocks := parse_as contentType rawText in
    if (List.length newBlocks =? List.length currentTranslations)%nat then
      map_index (fun b i => set_translatedText (nth i currentTranslations []) b)
                newBlocks 0
    else newBlocks.

(** What the driver does to the outside: a call of [translateBatch]
    and the alert of the failure path. *)
Inductive AppEvent :=
| EvDispatch (req : TranslationRequest)
| EvAlert (error : JsError).

(** The part of the component state the handler touches, with the log
    of its outside effects.  The progress percentage, a rounded
    floating-point quotient that nothing else reads, is left out. *)
Record AppState := mkState {
  st_blocks : list SubtitleBlock;
  st_isProcessing : bool;
  st_log : list AppEvent
}.

Section Driver.

Variables targetLang selectedTone geminiModel : str.
Variable provider_setting : LLMProvider.
Variable customConfig_setting : CustomLLMConfig.t.

(** The outcome of the [translateBatch] call made for chunk [i]:
    the rejection or the strings it resolves with. *)
Variable translateBatch_call : nat -> TranslationRequest -> JsError + list str.

Definition BATCH_SIZE : nat := 10.

(** [Math.ceil(n / BATCH_SIZE)]. *)
Definition totalBatches_of (n : nat) : nat := (n + (BATCH_SIZE - 1)) / BATCH_SIZE.

Definition in_chunk (startIdx endIdx idx : nat) : bool :=
  ((startIdx <=? idx) && (idx <? endIdx))%nat.

(** The first [setBlocks] of the loop body. *)
Definition mark_translating (startIdx endIdx : nat) (prev : list SubtitleBlock)
  : list SubtitleBlock :=
  map_index (fun b idx =>
               if in_chunk startIdx endIdx idx then set_isTranslating true b else b)
            prev 0.

(** The [setBlocks] after a successful call;
    [translatedTexts[idx - startIdx] || b.originalText]. *)
Definition write_results (startIdx endIdx : nat) (translatedTexts : list str)
    (prev : list SubtitleBlock) : list SubtitleBlock :=
  map_index (fun b idx =>
               if in_chunk startIdx endIdx idx then
                 mkBlock (id b) (startTime b) (endTime b) (originalText b)
                         (or_else (nth (idx - startIdx) translatedTexts [])
                                  (originalText b))
                         false
               else b)
            prev 0.

(** The [setBlocks] of the [catch] branch. *)
Definition clear_flags (prev : list SubtitleBlock) : list SubtitleBlock :=
  map (set_isTranslating false) prev.

(** The [context] of chunk [i], read from the list [blocks] the
    handler closed over; reading a property of [undefined] throws. *)
Definition chunk_context (blocks : list SubtitleBlock) (i startIdx : nat)
  : JsError + option str :=
  if (0 <? i)%nat then
    match nth_error blocks (startIdx - 1) with
    | Some b => inr (Some ("Previous sentence: " ++ translatedText b))
    | None => inl (TypeError "Cannot read properties of undefined (reading 'translatedText')")
    end
  else inr None.

Definition chunk_request (blocks : list SubtitleBlock) (startIdx endIdx : nat)
    (context : option str) : TranslationRequest :=
  let batch := slice startIdx endIdx blocks in
  let sourceTexts := map originalText batch in
  mkRequest sourceTexts targetLang selectedTone
    (match provider_setting with
     | GEMINI => geminiModel
     | CUSTOM => CustomLLMConfig.modelName customConfig_setting
     end)
    context provider_setting
    (match provider_setting with
     | CUSTOM => Some customConfig_setting
     | GEMINI => None
     end).

(** The [catch] branch of the loop body. *)
Definition chunk_failed (error : JsError) (st : AppState) : AppState :=
  mkState (clear_flags (st_blocks st)) false (st_log st ++ [EvAlert error]).

(** One iteration of the [for] loop: the state it leaves and whether
    the loop goes on ([false] is the [return] of the [catch]
    branch).  [blocks] is the list of the render the handler was
    created in; [st] is the current state. *)
Definition chunk_step (blocks : list SubtitleBlock) (i : nat) (st : AppState)
  : AppState * bool :=
  let startIdx := i * BATCH_SIZE in
  let endIdx := Nat.min (startIdx + BATCH_SIZE) (List.length blocks) in
  let st1 := mkState (mark_translating startIdx endIdx (st_blocks st))
                     (st_isProcessing st) (st_log st) in
  match chunk_context blocks i startIdx with
  | inl error => (chunk_failed error st1, false)
  | inr context =>
      let req := chunk_request blocks startIdx endIdx context in
      let st2 := mkState (st_blocks st1) (st_isProcessing st1)
                         (st_log st1 ++ [EvDispatch req]) in
      match translateBatch_call i req with
      | inr translatedTexts =>
          (mkState (write_results startIdx endIdx translatedTexts (st_blocks st2))
                   (st_isProcessing st2) (st_log st2), true)
      | inl error => (chunk_failed error st2, false)
      end
  end.

(** The [for] loop over the chunk indices still to do, with the
    statement after it. *)
Fixpoint run_chunks (blocks : list SubtitleBlock) (todo : list nat) (st : AppState)
  : AppState :=
  match todo with
  | [] => mkState (st_blocks st) false (st_log st)
  | i :: rest =>
      match chunk_step blocks i st with
      | (st', true) => run_chunks blocks rest st'
      | (st', false) => st'
      end
  end.

(** The handler, run in a render whose state is [st]: the list
    [blocks] it closes over is the list of that state. *)
Definition startTranslation (st : AppState) : AppState :=
  let blocks := st_blocks st in
  if (List.length blocks =? 0)%nat then st
  else
    let st0 := mkState (st_blocks st) true (st_log st) in
    let totalBatches := totalBatches_of (List.length blocks) in
    run_chunks blocks (seq 0 totalBatches) st0.

End Driver.

(* ================================================================== *)
(** ** Format detection *)
(* ================================================================== *)

(** [isSRTContent]: the time-line expression, without its capture
    groups, matches somewhere in the text. *)
Definition isSRTContent (text : str) : bool :=
  match Re.time_line text with
  | Some _ => true
  | None => false
  end.

(** The expression of [isLRCContent] anchored at the start of [s]: an
    opening bracket, dd:dd, an optional fraction of two or three
    digits, a closing bracket. *)
Definition lrc_tag (s : str) : bool :=
  match s with
  | "["%char :: r =>
      Re.is_mmss (firstn 5 r)
      && match Re.lrc_fraction (skipn 5 r) with
         | Some _ => true
         | None => false
         end
  | _ => false
  end.

(** The search [test] makes with the [m] flag: the anchor holds at the
    start of the text and after every line terminator. *)
Fixpoint lrc_tag_search (line_start : bool) (s : str) : bool :=
  match s with
  | [] => false
  | c :: s' =>
      (line_start && lrc_tag s) || lrc_tag_search (is_line_terminator c) s'
  end.

Definition isLRCContent (text : str) : bool := lrc_tag_search true text.

(** The detection chain [processContent] and [handleManualInput]
    share: the content type chosen and the segments shown. *)
Definition detect (text : str) : ContentType * list SubtitleBlock :=
  if isSRTContent text then (SUBTITLE_SRT, parseSRT text)
  else if isLRCContent text then (LYRICS_LRC, parseLRC text)
  else (PLAIN_TEXT, parsePlainText text).

(* ================================================================== *)
(** ** The editor: text, content type and segments *)
(* ================================================================== *)

(** ** File names *)

(** What the extension expression asks of the characters after the
    dot: at least one, none of them a slash or a dot, up to the end of
    the name. *)
Definition extension_chars (s : str) : bool :=
  Js.truthy s
  && forallb (fun c => negb (Ascii.eqb c "/" || Ascii.eqb c ".")) s.

(** [name.replace(re, empty)] for the extension expression: the
    leftmost match is cut, and it runs to the end. *)
Fixpoint strip_extension (name : str) : str :=
  match name with
  | [] => []
  | c :: rest =>
      if Ascii.eqb c "." && extension_chars rest then []
      else c :: strip_extension rest
  end.

(** The string value of an [OutputFormat] member. *)
Definition OutputFormat_value (f : OutputFormat) : str :=
  match f with
  | ONLY_TRANSLATION => "ONLY_TRANSLATION"
  | DUAL_TRANS_SRC => "DUAL_TRANS_SRC"
  | DUAL_SRC_TRANS => "DUAL_SRC_TRANS"
  end.

(** [ext] of [handleDownload]. *)
Definition download_ext (contentType : ContentType) : str :=
  match contentType with
  | SUBTITLE_SRT => "srt"
  | LYRICS_LRC => "lrc"
  | _ => "txt"
  end.

(** [a.download] of [handleDownload]. *)
Definition download_name (fileName : str) (outputFormat : OutputFormat)
    (contentType : ContentType) : str :=
  fileName ++ "_" ++ OutputFormat_value outputFormat ++ "." ++ download_ext contentType.

(** ** State and handlers *)

Definition ContentType_eqb (a b : ContentType) : bool :=
  match a, b with
  | PLAIN_TEXT, PLAIN_TEXT => true
  | SUBTITLE_SRT, SUBTITLE_SRT => true
  | LYRICS_LRC, LYRICS_LRC => true
  | MARKDOWN, MARKDOWN => true
  | _, _ => false
  end.

(** The content state of [App]. *)
Record Editor := mkEditor {
  ed_rawText : str;
  ed_fileName : str;
  ed_contentType : ContentType;
  ed_blocks : list SubtitleBlock
}.

(** The initial values of the [useState] calls. *)
Definition initial_editor : Editor := mkEditor [] "translation" PLAIN_TEXT [].

(** [processContent(text, name)]; [None] is a call without name. *)
Definition processContent (text : str) (name : option str) (st : Editor) : Editor :=
  let fileName :=
    match name with
    | Some n => if Js.truthy n then strip_extension n else ed_fileName st
    | None => ed_fileName st
    end in
  let (contentType, blocks) := detect text in
  mkEditor text fileName contentType blocks.

(** [handleManualInput] for an event whose target holds [text]. *)
Definition handleManualInput (text : str) (st : Editor) : Editor :=
  if (List.length (ed_blocks st) =? 0)%nat then
    let (contentType, blocks) := detect text in
    mkEditor text (ed_fileName st) contentType blocks
  else
    mkEditor text (ed_fileName st) (ed_contentType st)
             (parse_as (ed_contentType st) text).

(** The effect that depends on [contentType], after the render that
    follows a handler: it runs when the content type differs from the
    one of the render [before], with the text and the segments of the
    new render. *)
Definition contentType_effect (before after : Editor) : Editor :=
  if ContentType_eqb (ed_contentType before) (ed_contentType after) then after
  else
    mkEditor (ed_rawText after) (ed_fileName after) (ed_contentType after)
             (reparse (ed_rawText after) (ed_contentType after) (ed_blocks after)).

(** What the user can do to the content state: load a file, type in
    the text area, choose a content type, run a translation (with the
    settings and the provider behaviour of that run). *)
Inductive EditorEvent :=
| LoadFile (text : str) (name : option str)
| TypeText (text : str)
| SelectType (contentType : ContentType)
| Translate (targetLang selectedTone geminiModel : str)
            (provider_setting : LLMProvider)
            (customConfig_setting : CustomLLMConfig.t)
            (translateBatch_call : nat -> TranslationRequest -> JsError + list str).

Definition editor_step (st : Editor) (ev : EditorEvent) : Editor :=
  match ev with
  | LoadFile text name => contentType_effect st (processContent text name st)
  | TypeText text => contentType_effect st (handleManualInput text st)
  | SelectType contentType =>
      contentType_effect st
        (mkEditor (ed_rawText st) (ed_fileName st) contentType (ed_blocks st))
  | Translate targetLang selectedTone geminiModel provider_setting
              customConfig_setting translateBatch_call =>
      mkEditor (ed_rawText st) (ed_fileName st) (ed_contentType st)
               (st_blocks
                  (startTranslation targetLang selectedTone geminiModel
                     provider_setting customConfig_setting translateBatch_call
                     (mkState (ed_blocks st) false [])))
  end.

(* ================================================================== *)
(** * Properties *)
(* ================================================================== *)

Unset Implicit Arguments.

(** ** Indexed maps *)

Lemma map_index_length {A B} (f : A -> nat -> B) (l : list A) (k : nat) :
  List.length (map_index f l k) = List.length l.
Proof.
  revert k; induction l as [|x l IH]; intro k; simpl; [reflexivity|].
  now rewrite IH.
Qed.

Lemma nth_error_map_index {A B} (f : A -> nat -> B) (l : list A) (k i : nat) :
  nth_error (map_index f l k) i = option_map (fun x => f x (k + i)) (nth_error l i).
Proof.
  revert k i; induction l as [|x l IH]; intros k i.
  - destruct i; reflexivity.
  - destruct i as [|i]; simpl.
    + now rewrite Nat.add_0_r.
    + rewrite IH. now replace (S k + i) with (k + S i) by lia.
Qed.

Lemma map_index_ext {A B} (f g : A -> nat -> B) (l : list A) (k : nat) :
  (forall x i, f x i = g x i) -> map_index f l k = map_index g l k.
Proof.
  intro H; revert k; induction l as [|x l IH]; intro k; simpl; [reflexivity|].
  now rewrite H, IH.
Qed.

(** ** What the parsers guarantee of every segment *)

Definition fresh (b : SubtitleBlock) : Prop :=
  originalText b <> [] /\ translatedText b = [] /\ isTranslating b = false.

Lemma truthy_nonempty (s : str) : Js.truthy s = true <-> s <> [].
Proof. destruct s; simpl; split; congruence. Qed.

Lemma parseSRT_block_text (block t1 t2 text : str) :
  parseSRT_block block = Some (t1, t2, text) -> text <> [].
Proof.
  unfold parseSRT_block.
  destruct (negb _); [discriminate|].
  destruct (_ <? _)%nat; [discriminate|].
  destruct (findIndex _ _); [|discriminate].
  destruct (Re.time_line _) as [[a b]|]; [|discriminate].
  destruct (Js.truthy _) eqn:E; [|discriminate].
  intro H; inversion H; subst. now apply truthy_nonempty.
Qed.

Lemma parseSRT_loop_fresh (blocks : list str) (k : nat) :
  Forall fresh (parseSRT_loop blocks k).
Proof.
  revert k; induction blocks as [|b bs IH]; intro k; simpl; [constructor|].
  destruct (parseSRT_block b) as [[[t1 t2] text]|] eqn:E; [|apply IH].
  constructor; [|apply IH].
  repeat split; simpl. eapply parseSRT_block_text; eauto.
Qed.

Lemma parseLRC_loop_fresh (lines : list str) (k : nat) :
  Forall fresh (parseLRC_loop lines k).
Proof.
  revert k; induction lines as [|l ls IH]; intro k; simpl; [constructor|].
  destruct (Re.lrc_line l) as [[t r]|]; [|apply IH].
  destruct (Js.truthy (trim r)) eqn:E; [|apply IH].
  constructor; [|apply IH].
  repeat split; simpl. now apply truthy_nonempty.
Qed.

Lemma parsePlainText_map_fresh (paragraphs : list str) (k : nat) :
  Forall fresh
    (filter (fun b => (0 <? List.length (originalText b))%nat)
            (parsePlainText_map paragraphs k)).
Proof.
  revert k; induction paragraphs as [|p ps IH]; intro k;
    cbn [parsePlainText_map filter originalText]; [constructor|].
  destruct (trim p) eqn:E; cbn [List.length Nat.ltb Nat.leb]; [apply IH|].
  constructor; [|apply IH].
  repeat split; cbn [originalText]. discriminate.
Qed.

Lemma parsePlainText_fresh (content : str) : Forall fresh (parsePlainText content).
Proof. apply parsePlainText_map_fresh. Qed.

Lemma parse_as_fresh (contentType : ContentType) (rawText : str) :
  Forall fresh (parse_as contentType rawText).
Proof.
  destruct contentType; simpl;
    first [apply parsePlainText_fresh | apply parseSRT_loop_fresh | apply parseLRC_loop_fresh].
Qed.

(** ** The reparse effect *)

Lemma carry_translations (l : list SubtitleBlock) (ts pre : list str) :
  List.length l = List.length ts ->
  map translatedText
      (map_index (fun b i => set_translatedText (nth i (pre ++ ts) []) b)
                 l (List.length pre)) = ts.
Proof.
  revert ts pre; induction l as [|b l IH]; intros [|t ts] pre Hlen;
    simpl in Hlen; try discriminate; [reflexivity|].
  cbn [map_index map set_translatedText translatedText].
  rewrite app_nth2, Nat.sub_diag by lia. cbn [nth]. f_equal.
  specialize (IH ts (pre ++ [t])).
  rewrite <- app_assoc, length_app, Nat.add_1_r in IH. apply IH. lia.
Qed.

Lemma carry_keeps_fields (l : list SubtitleBlock) (ts : list str) (k i : nat)
    (b : SubtitleBlock) :
  nth_error l i = Some b ->
  exists r,
    nth_error (map_index (fun b i => set_translatedText (nth i ts []) b) l k) i = Some r
    /\ id r = id b /\ startTime r = startTime b /\ endTime r = endTime b
    /\ originalText r = originalText b /\ isTranslating r = isTranslating b.
Proof.
  intro H. rewrite nth_error_map_index, H. cbn. eexists; split; [reflexivity|].
  repeat split.
Qed.

(** C9.  When the content type changes, the reparse effect replaces
    the segment list by the list parsed under the new type, each
    segment keeping what the parser gave it apart from its
    translation; when the new list is as long as the old one, segment
    [i] takes over the translation of segment [i] of the old list, and
    when the lengths differ every segment of the new list has an empty
    translation. *)
Theorem reparse_carries_translations_by_position
    (rawText : str) (contentType : ContentType) (blocks : list SubtitleBlock) :
  rawText <> [] ->
  let newBlocks := parse_as contentType rawText in
  let result := reparse rawText contentType blocks in
  List.length result = List.length newBlocks
  /\ (forall i b, nth_error newBlocks i = Some b ->
        exists r, nth_error result i = Some r
          /\ id r = id b /\ startTime r = startTime b /\ endTime r = endTime b
          /\ originalText r = originalText b /\ isTranslating r = isTranslating b)
  /\ (List.length newBlocks = List.length blocks ->
        map translatedText result = map translatedText blocks)
  /\ (List.length newBlocks <> List.length blocks ->
        Forall (fun r => translatedText r = []) result).
Proof.
  intros Hraw newBlocks result. subst result. unfold reparse.
  apply truthy_nonempty in Hraw. rewrite Hraw. cbn [negb].
  fold newBlocks. rewrite length_map.
  destruct (Nat.eqb_spec (List.length newBlocks) (List.length blocks)) as [Heq|Hne].
  - split; [apply map_index_length|]. split; [|split].
    + intros i b Hb. now apply carry_keeps_fields.
    + intros _. apply (carry_translations newBlocks (map translatedText blocks) []).
      now rewrite length_map.
    + intro H; contradiction.
  - split; [reflexivity|]. split; [|split].
    + intros i b Hb. exists b. repeat split; assumption.
    + intro H; contradiction.
    + intros _. eapply Forall_impl; [|apply parse_as_fresh].
      intros b Hb. apply Hb.
Qed.

(** ** The translation driver *)

Section DriverFacts.

Variables targetLang selectedTone geminiModel : str.
Variable provider_setting : LLMProvider.
Variable customConfig_setting : CustomLLMConfig.t.
Variable translateBatch_call : nat -> TranslationRequest -> JsError + list str.

Local Abbreviation request :=
  (chunk_request targetLang selectedTone geminiModel provider_setting
                 customConfig_setting).
Local Abbreviation step :=
  (chunk_step targetLang selectedTone geminiModel provider_setting
              customConfig_setting translateBatch_call).
Local Abbreviation run :=
  (run_chunks targetLang selectedTone geminiModel provider_setting
              customConfig_setting translateBatch_call).
Local Abbreviation start :=
  (startTranslation targetLang selectedTone geminiModel provider_setting
                    customConfig_setting translateBatch_call).

Definition chunk_start (i : nat) : nat := i * BATCH_SIZE.

Definition chunk_end (blocks : list SubtitleBlock) (i : nat) : nat :=
  Nat.min (chunk_start i + BATCH_SIZE) (List.length blocks).

(** The outcome of chunk [i] of a run over the list [blocks]: the
    error its [try] block ends with, or the strings received. *)
Definition chunk_outcome (blocks : list SubtitleBlock) (i : nat)
  : JsError + list str :=
  match chunk_context blocks i (chunk_start i) with
  | inl e => inl e
  | inr c =>
      translateBatch_call i
        (request blocks (chunk_start i) (chunk_end blocks i) c)
  end.

(** The events chunk [i] adds to the log before its outcome is
    known. *)
Definition chunk_events (blocks : list SubtitleBlock) (i : nat) : list AppEvent :=
  match chunk_context blocks i (chunk_start i) with
  | inl _ => []
  | inr c =>
      [EvDispatch (request blocks (chunk_start i) (chunk_end blocks i) c)]
  end.

Lemma chunk_step_success (blocks : list SubtitleBlock) (i : nat) (st : AppState)
    (tr : list str) :
  chunk_outcome blocks i = inr tr ->
  step blocks i st =
    (mkState (write_results (chunk_start i) (chunk_end blocks i) tr
                (mark_translating (chunk_start i) (chunk_end blocks i) (st_blocks st)))
             (st_isProcessing st)
             (st_log st ++ chunk_events blocks i),
     true).
Proof.
  unfold chunk_outcome, chunk_events, chunk_step, chunk_end, chunk_start.
  destruct (chunk_context blocks i (i * BATCH_SIZE)) as [e|c]; [discriminate|].
  cbn [st_blocks st_isProcessing st_log]. intros ->. reflexivity.
Qed.

Lemma chunk_step_failure (blocks : list SubtitleBlock) (i : nat) (st : AppState)
    (e : JsError) :
  chunk_outcome blocks i = inl e ->
  step blocks i st =
    (mkState (clear_flags
                (mark_translating (chunk_start i) (chunk_end blocks i) (st_blocks st)))
             false
             (st_log st ++ chunk_events blocks i ++ [EvAlert e]),
     false).
Proof.
  unfold chunk_outcome, chunk_events, chunk_step, chunk_end, chunk_start,
    chunk_failed.
  destruct (chunk_context blocks i (i * BATCH_SIZE)) as [e'|c].
  - intros [= ->]. reflexivity.
  - cbn [st_blocks st_isProcessing st_log]. intros ->.
    cbn [st_blocks st_log]. now rewrite <- app_assoc.
Qed.

Lemma nth_error_mark_translating (s e : nat) (l : list SubtitleBlock) (idx : nat) :
  nth_error (mark_translating s e l) idx =
  option_map (fun b => if in_chunk s e idx then set_isTranslating true b else b)
             (nth_error l idx).
Proof. unfold mark_translating. now rewrite nth_error_map_index. Qed.

Lemma nth_error_write_results (s e : nat) (tr : list str) (l : list SubtitleBlock)
    (idx : nat) :
  nth_error (write_results s e tr l) idx =
  option_map (fun b =>
                if in_chunk s e idx then
                  mkBlock (id b) (startTime b) (endTime b) (originalText b)
                          (or_else (nth (idx - s) tr []) (originalText b)) false
                else b)
             (nth_error l idx).
Proof. unfold write_results. now rewrite nth_error_map_index. Qed.

Lemma nth_error_clear_flags (l : list SubtitleBlock) (idx : nat) :
  nth_error (clear_flags l) idx = option_map (set_isTranslating false) (nth_error l idx).
Proof. unfold clear_flags. apply nth_error_map. Qed.

Lemma in_chunk_spec (s e idx : nat) : in_chunk s e idx = true <-> s <= idx < e.
Proof.
  unfold in_chunk. rewrite andb_true_iff, Nat.leb_le, Nat.ltb_lt. reflexivity.
Qed.

(** The [context] of chunk [i] as the handler computes it: a text
    read from the list [blocks] it closed over. *)
Definition closure_context (blocks : list SubtitleBlock) (i : nat) : option str :=
  if (0 <? i)%nat then
    option_map (fun b => "Previous sentence: " ++ translatedText b)
               (nth_error blocks (chunk_start i - 1))
  else None.

Definition request_of (blocks : list SubtitleBlock) (i : nat) : TranslationRequest :=
  request blocks (chunk_start i) (chunk_end blocks i) (closure_context blocks i).

Lemma totalBatches_spec (n i : nat) :
  i < totalBatches_of n <-> chunk_start i < n.
Proof.
  unfold totalBatches_of, chunk_start, BATCH_SIZE. cbn [Nat.sub].
  split; intro H.
  - assert (i * 10 < 10 * ((n + 9) / 10)) by lia.
    pose proof (Nat.Div0.mul_div_le (n + 9) 10). lia.
  - apply (Nat.div_le_lower_bound (n + 9) 10 (S i)); lia.
Qed.

Lemma chunk_context_in_range (blocks : list SubtitleBlock) (i : nat) :
  chunk_start i < List.length blocks ->
  chunk_context blocks i (chunk_start i) = inr (closure_context blocks i).
Proof.
  intro H. unfold chunk_context, closure_context.
  destruct (0 <? i)%nat; [|reflexivity].
  destruct (nth_error blocks (chunk_start i - 1)) eqn:E; [reflexivity|].
  apply nth_error_None in E. lia.
Qed.

Lemma chunk_outcome_in_range (blocks : list SubtitleBlock) (i : nat) :
  chunk_start i < List.length blocks ->
  chunk_outcome blocks i = translateBatch_call i (request_of blocks i).
Proof.
  intro H. unfold chunk_outcome. now rewrite chunk_context_in_range.
Qed.

Lemma chunk_events_in_range (blocks : list SubtitleBlock) (i : nat) :
  chunk_start i < List.length blocks ->
  chunk_events blocks i = [EvDispatch (request_of blocks i)].
Proof.
  intro H. unfold chunk_events. now rewrite chunk_context_in_range.
Qed.

(** Segment [idx] once its chunk has succeeded. *)
Definition translated_block (blocks : list SubtitleBlock) (idx : nat)
    (b0 : SubtitleBlock) : SubtitleBlock :=
  match chunk_outcome blocks (idx / BATCH_SIZE) with
  | inr tr =>
      mkBlock (id b0) (startTime b0) (endTime b0) (originalText b0)
              (or_else (nth (idx mod BATCH_SIZE) tr []) (originalText b0)) false
  | inl _ => b0
  end.

(** The segment list once chunks [0 .. k-1] have succeeded. *)
Definition progress_state (blocks : list SubtitleBlock) (k : nat)
  : list SubtitleBlock :=
  map_index (fun b0 idx =>
               if (idx <? chunk_start k)%nat then translated_block blocks idx b0
               else b0)
            blocks 0.

(** The segment list once chunk [k] has failed after chunks
    [0 .. k-1] succeeded. *)
Definition failed_state (blocks : list SubtitleBlock) (k : nat)
  : list SubtitleBlock :=
  map_index (fun b0 idx =>
               if (idx <? chunk_start k)%nat then translated_block blocks idx b0
               else set_isTranslating false b0)
            blocks 0.

Lemma chunk_index (k idx : nat) :
  chunk_start k <= idx < chunk_start k + BATCH_SIZE ->
  idx / BATCH_SIZE = k /\ idx mod BATCH_SIZE = idx - chunk_start k.
Proof.
  unfold chunk_start, BATCH_SIZE. intro H.
  assert (Hk : idx / 10 = k).
  { symmetry. apply (Nat.div_unique idx 10 k (idx - k * 10)); lia. }
  split; [exact Hk|].
  pose proof (Nat.div_mod_eq idx 10). lia.
Qed.

Lemma progress_state_step (blocks : list SubtitleBlock) (k : nat) (tr : list str) :
  chunk_outcome blocks k = inr tr ->
  write_results (chunk_start k) (chunk_end blocks k) tr
    (mark_translating (chunk_start k) (chunk_end blocks k) (progress_state blocks k))
  = progress_state blocks (S k).
Proof.
  intro Hk. apply nth_error_ext. intro idx.
  rewrite nth_error_write_results, nth_error_mark_translating.
  unfold progress_state. rewrite !nth_error_map_index. cbn [Nat.add].
  destruct (nth_error blocks idx) as [b0|] eqn:Hb; [|reflexivity].
  cbn [option_map]. f_equal.
  assert (Hlen : idx < List.length blocks)
    by (apply nth_error_Some; congruence).
  assert (HS : chunk_start (S k) = chunk_start k + BATCH_SIZE)
    by (unfold chunk_start; lia).
  destruct (in_chunk (chunk_start k) (chunk_end blocks k) idx) eqn:Hin.
  - apply in_chunk_spec in Hin. unfold chunk_end in Hin.
    destruct (chunk_index k idx) as [Hd Hm]; [lia|].
    destruct (Nat.ltb_spec idx (chunk_start k)); [lia|].
    destruct (Nat.ltb_spec idx (chunk_start (S k))); [|lia].
    unfold translated_block. rewrite Hd, Hk, Hm. reflexivity.
  - assert (Hout : ~ (chunk_start k <= idx < chunk_end blocks k))
      by (rewrite <- in_chunk_spec; congruence).
    unfold chunk_end in Hout.
    destruct (Nat.ltb_spec idx (chunk_start k));
      destruct (Nat.ltb_spec idx (chunk_start (S k))); try reflexivity; lia.
Qed.

Lemma failed_state_step (blocks : list SubtitleBlock) (k : nat) :
  (forall i, i < k -> exists tr, chunk_outcome blocks i = inr tr) ->
  clear_flags
    (mark_translating (chunk_start k) (chunk_end blocks k) (progress_state blocks k))
  = failed_state blocks k.
Proof.
  intro Hdone. apply nth_error_ext. intro idx.
  rewrite nth_error_clear_flags, nth_error_mark_translating.
  unfold progress_state, failed_state. rewrite !nth_error_map_index. cbn [Nat.add].
  destruct (nth_error blocks idx) as [b0|] eqn:Hb; [|reflexivity].
  cbn [option_map]. f_equal.
  destruct (in_chunk (chunk_start k) (chunk_end blocks k) idx) eqn:Hin.
  - apply in_chunk_spec in Hin.
    destruct (Nat.ltb_spec idx (chunk_start k)); [lia|]. reflexivity.
  - destruct (Nat.ltb_spec idx (chunk_start k)); [|reflexivity].
    unfold translated_block.
    destruct (Hdone (idx / BATCH_SIZE)) as [tr ->]; [|reflexivity].
    apply Nat.Div0.div_lt_upper_bound. unfold chunk_start in *. lia.
Qed.

(** The first chunk of [todo] whose call fails, with its error. *)
Fixpoint first_failure (blocks : list SubtitleBlock) (todo : list nat)
  : option (nat * JsError) :=
  match todo with
  | [] => None
  | i :: rest =>
      match chunk_outcome blocks i with
      | inl e => Some (i, e)
      | inr _ => first_failure blocks rest
      end
  end.

Lemma first_failure_some (blocks : list SubtitleBlock) (n k j : nat) (e : JsError) :
  first_failure blocks (seq k n) = Some (j, e) <->
  k <= j < k + n /\ chunk_outcome blocks j = inl e
  /\ forall i, k <= i < j -> exists tr, chunk_outcome blocks i = inr tr.
Proof.
  revert k; induction n as [|n IH]; intro k; cbn [seq first_failure].
  - split; [discriminate|]. intros [H _]. lia.
  - destruct (chunk_outcome blocks k) as [e'|tr] eqn:Hk.
    + split.
      * intros [= <- <-]. split; [lia|]. split; [assumption|]. intros i Hi. lia.
      * intros (Hr & Hj & Hbefore).
        destruct (Nat.eq_dec j k) as [->|Hne]; [congruence|].
        destruct (Hbefore k) as [tr Htr]; [lia|]. congruence.
    + rewrite IH. split.
      * intros (Hr & Hj & Hbefore). split; [lia|]. split; [assumption|].
        intros i Hi. destruct (Nat.eq_dec i k) as [->|Hne]; [eauto|].
        apply Hbefore. lia.
      * intros (Hr & Hj & Hbefore).
        assert (j <> k) by congruence.
        split; [lia|]. split; [assumption|].
        intros i Hi. apply Hbefore. lia.
Qed.

Lemma first_failure_none (blocks : list SubtitleBlock) (n k : nat) :
  first_failure blocks (seq k n) = None <->
  forall i, k <= i < k + n -> exists tr, chunk_outcome blocks i = inr tr.
Proof.
  revert k; induction n as [|n IH]; intro k; cbn [seq first_failure].
  - split; [|reflexivity]. intros _ i Hi. lia.
  - destruct (chunk_outcome blocks k) as [e'|tr] eqn:Hk.
    + split; [discriminate|]. intro H. destruct (H k) as [tr Htr]; [lia|congruence].
    + rewrite IH. split; intros H i Hi.
      * destruct (Nat.eq_dec i k) as [->|Hne]; [eauto|]. apply H. lia.
      * apply H. lia.
Qed.

Lemma progress_state_0 (blocks : list SubtitleBlock) :
  progress_state blocks 0 = blocks.
Proof.
  apply nth_error_ext. intro idx. unfold progress_state.
  rewrite nth_error_map_index. cbn.
  now destruct (nth_error blocks idx).
Qed.

(** The loop in closed form: it stops at the first failing chunk. *)
Lemma run_chunks_closed_form (blocks : list SubtitleBlock) (n k : nat)
    (proc : bool) (log : list AppEvent) :
  (forall i, i < k -> exists tr, chunk_outcome blocks i = inr tr) ->
  run blocks (seq k n) (mkState (progress_state blocks k) proc log) =
  match first_failure blocks (seq k n) with
  | None =>
      mkState (progress_state blocks (k + n)) false
              (log ++ flat_map (chunk_events blocks) (seq k n))
  | Some (j, e) =>
      mkState (failed_state blocks j) false
              (log ++ flat_map (chunk_events blocks) (seq k (S j - k)) ++ [EvAlert e])
  end.
Proof.
  revert k proc log; induction n as [|n IH]; intros k proc log Hdone.
  - cbn. now rewrite Nat.add_0_r, app_nil_r.
  - cbn [seq run_chunks first_failure].
    destruct (chunk_outcome blocks k) as [e|tr] eqn:Hk.
    + rewrite (chunk_step_failure _ _ _ _ Hk). cbn [st_blocks st_log].
      rewrite failed_state_step by assumption.
      replace (S k - k) with 1 by lia. cbn [seq flat_map].
      now rewrite app_nil_r.
    + rewrite (chunk_step_success _ _ _ _ Hk).
      cbn [st_blocks st_log st_isProcessing].
      rewrite progress_state_step by assumption.
      rewrite IH.
      2:{ intros i Hi. destruct (Nat.eq_dec i k) as [->|Hne]; [eauto|].
          apply Hdone. lia. }
      destruct (first_failure blocks (seq (S k) n)) as [[j e]|] eqn:Hf.
      * apply first_failure_some in Hf. destruct Hf as (Hr & _).
        replace (S j - k) with (S (S j - S k)) by lia.
        cbn [seq flat_map]. now rewrite <- !app_assoc.
      * cbn [flat_map]. rewrite <- app_assoc. f_equal. f_equal. lia.
Qed.

Lemma startTranslation_closed_form (st : AppState) :
  st_blocks st <> [] ->
  let blocks := st_blocks st in
  let total := totalBatches_of (List.length blocks) in
  start st =
  match first_failure blocks (seq 0 total) with
  | None =>
      mkState (progress_state blocks total) false
              (st_log st ++ flat_map (chunk_events blocks) (seq 0 total))
  | Some (j, e) =>
      mkState (failed_state blocks j) false
              (st_log st ++ flat_map (chunk_events blocks) (seq 0 (S j)) ++ [EvAlert e])
  end.
Proof.
  intros Hne blocks total. unfold startTranslation. fold blocks. fold total.
  destruct (Nat.eqb_spec (List.length blocks) 0) as [H0|_].
  - apply length_zero_iff_nil in H0. contradiction.
  - rewrite <- (progress_state_0 blocks) at 2.
    rewrite run_chunks_closed_form by (intros i Hi; lia).
    destruct (first_failure blocks (seq 0 total)) as [[j e]|]; [|reflexivity].
    now rewrite Nat.sub_0_r.
Qed.

Lemma flat_map_chunk_events (blocks : list SubtitleBlock) (n k : nat) :
  (forall i, k <= i < k + n -> chunk_start i < List.length blocks) ->
  flat_map (chunk_events blocks) (seq k n) =
  map (fun i => EvDispatch (request_of blocks i)) (seq k n).
Proof.
  revert k; induction n as [|n IH]; intros k H; cbn [seq flat_map map];
    [reflexivity|].
  rewrite chunk_events_in_range by (apply H; lia).
  cbn [app]. f_equal. apply IH. intros i Hi. apply H. lia.
Qed.

Lemma earlier_chunk_in_range (blocks : list SubtitleBlock) (i j : nat) :
  i <= j -> chunk_start j < List.length blocks -> chunk_start i < List.length blocks.
Proof. unfold chunk_start, BATCH_SIZE. nia. Qed.

Lemma failing_run_first_failure (blocks : list SubtitleBlock) (j : nat) (e : JsError) :
  chunk_start j < List.length blocks ->
  (forall i, i < j -> exists tr, translateBatch_call i (request_of blocks i) = inr tr) ->
  translateBatch_call j (request_of blocks j) = inl e ->
  first_failure blocks (seq 0 (totalBatches_of (List.length blocks))) = Some (j, e).
Proof.
  intros Hj Hbefore Hfail. apply first_failure_some.
  split; [split; [lia|now apply totalBatches_spec]|].
  split; [now rewrite chunk_outcome_in_range|].
  intros i Hi. rewrite chunk_outcome_in_range.
  - apply Hbefore. lia.
  - apply (earlier_chunk_in_range blocks i j); [lia|assumption].
Qed.

(** C6 (as amended).  When the call for chunk [j] fails after the
    calls for the chunks before it succeeded, the run ends there: the
    calls dispatched are those of chunks [0 .. j] and no other, the
    failure is reported, the processing flag and every segment's
    [isTranslating] flag are false, the segments of the chunks before
    [j] hold what their chunk wrote, and the segments of chunk [j]
    and of all later chunks hold the [translatedText] they had when
    the run started (the empty string on a freshly parsed list). *)
Theorem failed_chunk_stops_run (st : AppState) (j : nat) (e : JsError) :
  let blocks := st_blocks st in
  chunk_start j < List.length blocks ->
  (forall i, i < j -> exists tr, translateBatch_call i (request_of blocks i) = inr tr) ->
  translateBatch_call j (request_of blocks j) = inl e ->
  let st' := start st in
  st_isProcessing st' = false
  /\ st_log st' =
       st_log st ++ map (fun i => EvDispatch (request_of blocks i)) (seq 0 (S j))
                 ++ [EvAlert e]
  /\ List.length (st_blocks st') = List.length blocks
  /\ forall idx b0, nth_error blocks idx = Some b0 ->
       exists b, nth_error (st_blocks st') idx = Some b
         /\ isTranslating b = false
         /\ originalText b = originalText b0
         /\ (idx < chunk_start j ->
               exists tr,
                 translateBatch_call (idx / BATCH_SIZE)
                                     (request_of blocks (idx / BATCH_SIZE)) = inr tr
                 /\ translatedText b =
                      or_else (nth (idx mod BATCH_SIZE) tr []) (originalText b0))
         /\ (chunk_start j <= idx ->
               translatedText b = translatedText b0
               /\ (translatedText b0 = [] -> translatedText b = [])).
Proof.
  intros blocks Hj Hbefore Hfail st'.
  assert (Hne : st_blocks st <> []).
  { fold blocks. intro H. rewrite H in Hj. cbn in Hj. lia. }
  subst st'. rewrite (startTranslation_closed_form st Hne). fold blocks.
  rewrite (failing_run_first_failure blocks j e Hj Hbefore Hfail).
  cbn [st_isProcessing st_log st_blocks].
  split; [reflexivity|]. split.
  { rewrite flat_map_chunk_events; [reflexivity|].
    intros i Hi. apply (earlier_chunk_in_range blocks i j); [lia|assumption]. }
  split; [apply map_index_length|].
  intros idx b0 Hb. unfold failed_state. rewrite nth_error_map_index, Hb.
  cbn [option_map Nat.add]. eexists; split; [reflexivity|].
  destruct (Nat.ltb_spec idx (chunk_start j)) as [Hlt|Hge].
  - assert (Hq : idx / BATCH_SIZE < j).
    { apply Nat.Div0.div_lt_upper_bound. unfold chunk_start in Hlt. lia. }
    destruct (Hbefore _ Hq) as [tr Htr].
    assert (Hout : chunk_outcome blocks (idx / BATCH_SIZE) = inr tr).
    { rewrite chunk_outcome_in_range; [assumption|].
      apply (earlier_chunk_in_range blocks _ j); [lia|assumption]. }
    unfold translated_block. rewrite Hout.
    cbn [isTranslating originalText translatedText].
    split; [reflexivity|]. split; [reflexivity|].
    split; [|intro; lia].
    intros _. exists tr. split; [assumption|reflexivity].
  - cbn [set_isTranslating isTranslating originalText translatedText].
    split; [reflexivity|]. split; [reflexivity|].
    split; [intro; lia|].
    intros _. split; [reflexivity|intro H; exact H].
Qed.

(** C10.  When the call for chunk [j] succeeds (the chunks before it
    having succeeded), every segment of chunk [j] ends the run with
    the string received for it as [translatedText] when that string
    is not empty and with its own [originalText] otherwise; no such
    segment is left with an empty [translatedText], segments having
    non-empty originals. *)
Theorem successful_chunk_fills_translations (st : AppState) (j : nat)
    (tr : list str) :
  let blocks := st_blocks st in
  Forall (fun b => originalText b <> []) blocks ->
  chunk_start j < List.length blocks ->
  (forall i, i < j -> exists tr', translateBatch_call i (request_of blocks i) = inr tr') ->
  translateBatch_call j (request_of blocks j) = inr tr ->
  forall idx b0,
    chunk_start j <= idx < chunk_end blocks j ->
    nth_error blocks idx = Some b0 ->
    exists b, nth_error (st_blocks (start st)) idx = Some b
      /\ translatedText b =
           (if Js.truthy (nth (idx - chunk_start j) tr [])
            then nth (idx - chunk_start j) tr []
            else originalText b0)
      /\ translatedText b <> [].
Proof.
  intros blocks Horig Hj Hbefore Hok idx b0 Hidx Hb.
  assert (Hne : st_blocks st <> []).
  { fold blocks. intro H. rewrite H in Hj. cbn in Hj. lia. }
  assert (Hb0 : originalText b0 <> []).
  { rewrite Forall_forall in Horig. apply Horig. eapply nth_error_In; eauto. }
  unfold chunk_end in Hidx.
  destruct (chunk_index j idx) as [Hd Hm]; [lia|].
  assert (Hout : chunk_outcome blocks (idx / BATCH_SIZE) = inr tr)
    by (rewrite Hd, chunk_outcome_in_range; assumption).
  assert (Htb : translated_block blocks idx b0 =
                mkBlock (id b0) (startTime b0) (endTime b0) (originalText b0)
                  (or_else (nth (idx - chunk_start j) tr []) (originalText b0)) false).
  { unfold translated_block. now rewrite Hout, Hm. }
  assert (Hfill : translatedText (translated_block blocks idx b0) <> []).
  { rewrite Htb. cbn. unfold or_else.
    destruct (nth (idx - chunk_start j) tr []); cbn; [assumption|discriminate]. }
  rewrite (startTranslation_closed_form st Hne). fold blocks.
  destruct (first_failure blocks _) as [[k e]|] eqn:Hf.
  - apply first_failure_some in Hf. destruct Hf as (Hk & Hke & Hprev).
    assert (j < k).
    { destruct (Nat.lt_ge_cases j k) as [|Hle]; [assumption|].
      destruct (Nat.eq_dec k j) as [->|].
      - rewrite chunk_outcome_in_range in Hke by assumption. congruence.
      - destruct (Hbefore k) as [tr' Htr']; [lia|].
        rewrite chunk_outcome_in_range in Hke; [congruence|].
        apply (earlier_chunk_in_range blocks k j); [lia|assumption]. }
    cbn [st_blocks]. unfold failed_state.
    rewrite nth_error_map_index, Hb. cbn [option_map Nat.add].
    destruct (Nat.ltb_spec idx (chunk_start k)) as [_|Hge].
    + eexists; split; [reflexivity|]. split; [|assumption].
      rewrite Htb. reflexivity.
    + unfold chunk_start, BATCH_SIZE in *. nia.
  - cbn [st_blocks]. unfold progress_state.
    rewrite nth_error_map_index, Hb. cbn [option_map Nat.add].
    destruct (Nat.ltb_spec idx (chunk_start (totalBatches_of (List.length blocks))))
      as [_|Hge].
    + eexists; split; [reflexivity|]. split; [|assumption].
      rewrite Htb. reflexivity.
    + assert (Hj' : j < totalBatches_of (List.length blocks))
        by now apply totalBatches_spec.
      unfold chunk_start, BATCH_SIZE in *. nia.
Qed.

(** Every call a run dispatches is the call [request_of] builds from
    the list the handler closed over: the context of chunk [i > 0]
    is read from that list, whatever the chunks before it have
    written into the state since. *)
Lemma dispatched_requests_from_closure (st : AppState) :
  st_blocks st <> [] ->
  let blocks := st_blocks st in
  exists n tail,
    n <= totalBatches_of (List.length blocks)
    /\ st_log (start st) =
         st_log st ++ map (fun i => EvDispatch (request_of blocks i)) (seq 0 n) ++ tail
    /\ (tail = [] \/ exists e, tail = [EvAlert e])
    /\ forall i, context (request_of blocks i) = closure_context blocks i.
Proof.
  intros Hne blocks. rewrite (startTranslation_closed_form st Hne). fold blocks.
  destruct (first_failure blocks _) as [[j e]|] eqn:Hf.
  - apply first_failure_some in Hf. destruct Hf as (Hj & _ & _).
    exists (S j), [EvAlert e]. cbn [st_log].
    split; [lia|]. split; [|split; [right; eauto|reflexivity]].
    rewrite flat_map_chunk_events; [reflexivity|].
    intros i Hi. apply totalBatches_spec. lia.
  - exists (totalBatches_of (List.length blocks)), []. cbn [st_log].
    split; [lia|]. split; [|split; [now left|reflexivity]].
    rewrite flat_map_chunk_events; [now rewrite app_nil_r|].
    intros i Hi. apply totalBatches_spec. lia.
Qed.

End DriverFacts.

(** The requests a log records, in dispatch order. *)
Fixpoint dispatched (log : list AppEvent) : list TranslationRequest :=
  match log with
  | [] => []
  | EvDispatch req :: rest => req :: dispatched rest
  | EvAlert _ :: rest => dispatched rest
  end.

Module Example.

Definition words : list str :=
  map list_ascii_of_string
      ["a"; "b"; "c"; "d"; "e"; "f"; "g"; "h"; "i"; "j"; "k"; "l"].

(** Twelve paragraphs separated by blank lines. *)
Definition rawText : str := join (nl ++ nl) words.

Definition blocks : list SubtitleBlock := parsePlainText rawText.

Definition config : CustomLLMConfig.t :=
  CustomLLMConfig.mk "https://api.openai.com/v1" [] "gpt-4o-mini".

(** A provider that answers every text [t] with ["T:" ++ t]. *)
Definition echo (i : nat) (req : TranslationRequest) : JsError + list str :=
  inr (map (fun t => "T:" ++ t) (texts req)).

(** A provider that always fails. *)
Definition down (i : nat) (req : TranslationRequest) : JsError + list str :=
  inl (Error "Custom API Error 500: down").

Definition run (call : nat -> TranslationRequest -> JsError + list str)
    (l : list SubtitleBlock) : AppState :=
  startTranslation "zh-CN" "formal" "gemini-2.5-flash" GEMINI config call
                   (mkState l false []).

End Example.

(** C1 (the code departs from it).  Twelve freshly parsed segments and
    a provider that translates every text: two chunks are dispatched,
    the first without context; segment 9 ends the first chunk with
    translation ["T:j"], yet the context of the second chunk is the
    bare prefix ["Previous sentence: "], built from the empty
    [translatedText] that segment had in the list the handler closed
    over, and does not contain that translation. *)
Theorem second_chunk_context_is_stale :
  let st' := Example.run Example.echo Example.blocks in
  List.length Example.blocks = 12
  /\ map context (dispatched (st_log st')) = [None; Some (list_ascii_of_string "Previous sentence: ")]
  /\ option_map translatedText (nth_error (st_blocks st') 9) = Some (list_ascii_of_string "T:j")
  /\ includes "T:j" "Previous sentence: " = false.
Proof. vm_compute. repeat split. Qed.

(** ** [translateBatch]: attempts, backoff and validation *)

(** The delays a trace records, in order. *)
Fixpoint waits (trace : list Event) : list nat :=
  match trace with
  | [] => []
  | EvWait ms :: rest => ms :: waits rest
  | _ :: rest => waits rest
  end.

(** The errors of the failed attempts a trace records, in order. *)
Fixpoint failures (trace : list Event) : list JsError :=
  match trace with
  | [] => []
  | EvWarnFailed _ e :: rest => e :: failures rest
  | _ :: rest => failures rest
  end.

(** The provider calls a trace records. *)
Fixpoint provider_calls (trace : list Event) : list Event :=
  match trace with
  | [] => []
  | EvGenerateContent k :: rest => EvGenerateContent k :: provider_calls rest
  | EvFetch k endpoint :: rest => EvFetch k endpoint :: provider_calls rest
  | _ :: rest => provider_calls rest
  end.

Lemma waits_app (a b : list Event) : waits (a ++ b) = waits a ++ waits b.
Proof.
  induction a as [|ev a IH]; [reflexivity|].
  destruct ev; cbn; now rewrite IH.
Qed.

Lemma failures_app (a b : list Event) : failures (a ++ b) = failures a ++ failures b.
Proof.
  induction a as [|ev a IH]; [reflexivity|].
  destruct ev; cbn; now rewrite IH.
Qed.

Section TranslateBatchFacts.

Variable JSON_parse : str -> JsError + json.
Variable generateContent : nat -> TranslationRequest -> JsError + option str.
Variable fetch : nat -> str -> TranslationRequest -> JsError + FetchResponse.

Local Abbreviation jsonText_of := (fetch_jsonText JSON_parse generateContent fetch).
Local Abbreviation validated := (validate JSON_parse).
Local Abbreviation body_of := (try_body JSON_parse generateContent fetch).
Local Abbreviation loop := (retry_loop JSON_parse generateContent fetch).
Local Abbreviation call := (translateBatch JSON_parse generateContent fetch).

Lemma validate_quiet (req : TranslationRequest) (jsonText : json) :
  waits (fst (validated req jsonText)) = []
  /\ failures (fst (validated req jsonText)) = [].
Proof.
  unfold validate. destruct jsonText; cbn; try now split.
  destruct (JSON_parse _) as [e|[| | | | |]]; cbn; try now split.
  destruct (assoc _ _) as [[| | | | |]|]; cbn; try now split.
  destruct (_ && _); cbn; [now split|].
  destruct (negb _); cbn; now split.
Qed.

Lemma fetch_jsonText_quiet (req : TranslationRequest) (k : nat) :
  waits (fst (jsonText_of req k)) = []
  /\ failures (fst (jsonText_of req k)) = [].
Proof.
  unfold fetch_jsonText. destruct (provider req); cbn; [now split|].
  destruct (missing_config _); cbn; now split.
Qed.

(** A [try] body raises neither a backoff delay nor a failure
    warning of its own. *)
Lemma try_body_quiet (req : TranslationRequest) (k : nat) :
  waits (fst (body_of req k)) = [] /\ failures (fst (body_of req k)) = [].
Proof.
  unfold try_body. pose proof (fetch_jsonText_quiet req k) as [Hw Hf].
  destruct (jsonText_of req k) as [evs [e|j]]; cbn [fst] in *; [now split|].
  pose proof (validate_quiet req j) as [Hw' Hf'].
  destruct (validated req j) as [evs' r]; cbn [fst] in *.
  now rewrite waits_app, failures_app, Hw, Hf, Hw', Hf'.
Qed.

(** The loop unrolled: at most three [try] bodies run. *)
Lemma translateBatch_unrolled (req : TranslationRequest) :
  call req =
  Some
    (match body_of req 0 with
     | (ev0, inr r) => (ev0, inr r)
     | (ev0, inl e0) =>
         match body_of req 1 with
         | (ev1, inr r) =>
             ((ev0 ++ [EvWarnFailed 1 e0]) ++ [EvWait 1000] ++ ev1, inr r)
         | (ev1, inl e1) =>
             match body_of req 2 with
             | (ev2, inr r) =>
                 ((ev0 ++ [EvWarnFailed 1 e0]) ++ [EvWait 1000]
                  ++ (ev1 ++ [EvWarnFailed 2 e1]) ++ [EvWait 2000] ++ ev2, inr r)
             | (ev2, inl e2) =>
                 ((ev0 ++ [EvWarnFailed 1 e0]) ++ [EvWait 1000]
                  ++ (ev1 ++ [EvWarnFailed 2 e1]) ++ [EvWait 2000]
                  ++ ev2 ++ [EvWarnFailed 3 e2], inl e2)
             end
         end
     end).
Proof.
  unfold translateBatch. cbn [retry_loop maxRetries Nat.ltb Nat.leb Nat.add Nat.eqb].
  destruct (body_of req 0) as [ev0 [e0|r0]]; [|reflexivity].
  destruct (body_of req 1) as [ev1 [e1|r1]]; [|reflexivity].
  destruct (body_of req 2) as [ev2 [e2|r2]]; reflexivity.
Qed.

(** The attempts a finished call has made: the failed ones, and the
    successful one when it returned. *)
Definition attempts_made (trace : list Event) (outcome : JsError + list json) : nat :=
  List.length (failures trace)
  + match outcome with inr _ => 1 | inl _ => 0 end.

Ltac quiet_bodies req :=
  pose proof (try_body_quiet req 0) as [Hw0 Hf0];
  pose proof (try_body_quiet req 1) as [Hw1 Hf1];
  pose proof (try_body_quiet req 2) as [Hw2 Hf2].

Ltac trace_simpl :=
  unfold attempts_made;
  cbn [fst snd] in *;
  repeat rewrite ?waits_app, ?failures_app;
  repeat match goal with
         | H : waits _ = [] |- _ => rewrite H
         | H : failures _ = [] |- _ => rewrite H
         end;
  cbn [waits failures app List.length Nat.add Nat.sub seq map nth_error].

Definition missing_config_error : JsError :=
  Error "Missing Custom Provider Configuration".

Definition length_mismatch (expected got : nat) : JsError :=
  Error ("Length mismatch: Expected " ++ of_nat expected ++ ", got " ++ of_nat got).

(** What [Array.prototype.join] throws on an element that cannot be
    converted to a string. *)
Definition join_error : JsError :=
  TypeError "Cannot convert object to primitive value".

(** The endpoint the request of the custom provider is sent to. *)
Definition endpoint_of (req : TranslationRequest) : str :=
  match customConfig req with
  | Some cfg =>
      Fence.strip_trailing_slashes (CustomLLMConfig.baseUrl cfg) ++ "/chat/completions"
  | None => []
  end.

(** The throws of the parsing and validation steps on the response
    text [text], with the error thrown. *)
Inductive validation_throws (req : TranslationRequest) (text : str) : JsError -> Prop :=
| throws_parse (e : JsError) :
    JSON_parse (trim (Fence.remove_all Fence.fence 0 text)) = inl e ->
    validation_throws req text
      (Error ("Failed to parse JSON response: "
              ++ firstn 50 (trim (Fence.remove_all Fence.fence 0 text)) ++ "..."))
| throws_null :
    JSON_parse (trim (Fence.remove_all Fence.fence 0 text)) = inr JNull ->
    validation_throws req text
      (TypeError "Cannot read properties of null (reading 'translations')")
| throws_structure (parsed : json) :
    JSON_parse (trim (Fence.remove_all Fence.fence 0 text)) = inr parsed ->
    parsed <> JNull ->
    (forall translations, prop "translations" parsed <> Some (JArr translations)) ->
    validation_throws req text
      (Error "Invalid JSON structure: missing 'translations' array")
| throws_merge (parsed : json) (translations : list json) :
    JSON_parse (trim (Fence.remove_all Fence.fence 0 text)) = inr parsed ->
    prop "translations" parsed = Some (JArr translations) ->
    List.length (texts req) = 1 ->
    1 < List.length translations ->
    array_join nl translations = None ->
    validation_throws req text join_error
| throws_mismatch (parsed : json) (translations : list json) :
    JSON_parse (trim (Fence.remove_all Fence.fence 0 text)) = inr parsed ->
    prop "translations" parsed = Some (JArr translations) ->
    List.length (texts req) <> 1 \/ List.length translations <= 1 ->
    List.length translations <> List.length (texts req) ->
    validation_throws req text
      (length_mismatch (List.length (texts req)) (List.length translations)).

(** The throws of attempt [k], with the error thrown: while the
    request is built, in the transport, while the response is read,
    or while it is validated. *)
Inductive attempt_throws (req : TranslationRequest) (k : nat) : JsError -> Prop :=
| throws_missing_config :
    provider req = CUSTOM ->
    missing_config (customConfig req) = true ->
    attempt_throws req k missing_config_error
| throws_generateContent (e : JsError) :
    provider req = GEMINI ->
    generateContent k req = inl e ->
    attempt_throws req k e
| throws_fetch (e : JsError) :
    provider req = CUSTOM ->
    missing_config (customConfig req) = false ->
    fetch k (endpoint_of req) req = inl e ->
    attempt_throws req k e
| throws_http_status (response : FetchResponse) (errText : str) :
    provider req = CUSTOM ->
    missing_config (customConfig req) = false ->
    fetch k (endpoint_of req) req = inr response ->
    ok response = false ->
    body response = inr errText ->
    attempt_throws req k
      (Error ("Custom API Error " ++ of_nat (status response) ++ ": " ++ errText))
| throws_error_text (response : FetchResponse) (e : JsError) :
    provider req = CUSTOM ->
    missing_config (customConfig req) = false ->
    fetch k (endpoint_of req) req = inr response ->
    ok response = false ->
    body response = inl e ->
    attempt_throws req k e
| throws_response_json (response : FetchResponse) (e : JsError) :
    provider req = CUSTOM ->
    missing_config (customConfig req) = false ->
    fetch k (endpoint_of req) req = inr response ->
    ok response = true ->
    response_json JSON_parse response = inl e ->
    attempt_throws req k e
| throws_choices (response : FetchResponse) (data : json) (e : JsError) :
    provider req = CUSTOM ->
    missing_config (customConfig req) = false ->
    fetch k (endpoint_of req) req = inr response ->
    ok response = true ->
    response_json JSON_parse response = inr data ->
    choice_content data = inl e ->
    attempt_throws req k e
| throws_empty_content (response : FetchResponse) (data : json)
    (content : option json) :
    provider req = CUSTOM ->
    missing_config (customConfig req) = false ->
    fetch k (endpoint_of req) req = inr response ->
    ok response = true ->
    response_json JSON_parse response = inr data ->
    choice_content data = inr content ->
    Json.truthy content = false ->
    attempt_throws req k (Error "Empty response from Custom API")
| throws_not_a_string (evs : list Event) (jsonText : json) :
    jsonText_of req k = (evs, inr jsonText) ->
    (forall text, jsonText <> JStr text) ->
    attempt_throws req k (TypeError "jsonText.replace is not a function")
| throws_validation (evs : list Event) (text : str) (e : JsError) :
    jsonText_of req k = (evs, inr (JStr text)) ->
    validation_throws req text e ->
    attempt_throws req k e.

(** What attempt [k] (counted from 0) adds to the trace when the call
    gets that far: the events of its [try] body and, when it failed,
    the warning and, unless it was the last attempt allowed, the
    backoff delay that precedes the next attempt. *)
Definition attempt_trace (req : TranslationRequest) (k : nat) : list Event :=
  fst (body_of req k)
  ++ match snd (body_of req k) with
     | inr _ => []
     | inl e =>
         EvWarnFailed (k + 1) e
           :: (if (k + 1 =? maxRetries)%nat then [] else [EvWait (1000 * 2 ^ k)])
     end.

Lemma validation_throws_validate (req : TranslationRequest) (text : str) (e : JsError) :
  validation_throws req text e -> snd (validated req (JStr text)) = inl e.
Proof.
  intro H. unfold validate.
  destruct H as [e0 Hp|Hp|parsed Hp Hnull Hno|parsed translations Hp Hprop H1 Hlen Hjoin
                 |parsed translations Hp Hprop Hcase Hlen]; rewrite Hp.
  - reflexivity.
  - reflexivity.
  - destruct parsed; try contradiction; cbn [prop] in *;
      try reflexivity.
    destruct (assoc _ _) as [[| | | |translations|]|]; try reflexivity.
    now contradiction (Hno translations).
  - destruct parsed; try discriminate Hprop. cbn [prop] in *. rewrite Hprop, H1.
    apply Nat.ltb_lt in Hlen. rewrite Hlen. cbn [Nat.eqb andb snd].
    now rewrite Hjoin.
  - destruct parsed; try discriminate Hprop. cbn [prop] in *. rewrite Hprop.
    assert (Hcond : (List.length (texts req) =? 1)%nat
                    && (1 <? List.length translations)%nat = false).
    { apply andb_false_iff. destruct Hcase as [Hc|Hc].
      - left. now apply Nat.eqb_neq.
      - right. apply Nat.ltb_ge. exact Hc. }
    rewrite Hcond.
    destruct (Nat.eqb_spec (List.length translations) (List.length (texts req)));
      [contradiction|reflexivity].
Qed.

Lemma validate_throws (req : TranslationRequest) (text : str) (e : JsError) :
  snd (validated req (JStr text)) = inl e -> validation_throws req text e.
Proof.
  unfold validate.
  destruct (JSON_parse _) as [e0|parsed] eqn:Hp.
  - intros [= <-]. now apply (throws_parse req text e0).
  - assert (Hother : forall v, parsed = v -> v <> JNull ->
                       (forall fields, v <> JObj fields) ->
                       @inl JsError (list json)
                         (Error "Invalid JSON structure: missing 'translations' array")
                       = inl e -> validation_throws req text e).
    { intros v -> Hnull Hobj [= <-]. apply (throws_structure req text v Hp Hnull).
      intros translations. destruct v; try discriminate.
      now contradiction (Hobj fields). }
    destruct parsed as [|b|r|s|items|fields] eqn:Eparsed; cbn [prop snd].
    + intros [= <-]. now apply throws_null.
    + apply (Hother (JBool b)); [reflexivity|discriminate|discriminate].
    + apply (Hother (JNum r)); [reflexivity|discriminate|discriminate].
    + apply (Hother (JStr s)); [reflexivity|discriminate|discriminate].
    + apply (Hother (JArr items)); [reflexivity|discriminate|discriminate].
    + destruct (assoc "translations" fields) as [v|] eqn:Ea.
      2:{ intros [= <-]. apply (throws_structure req text (JObj fields) Hp);
            [discriminate|]. intros translations. cbn [prop]. rewrite Ea. discriminate. }
      assert (Hnot : (forall translations, v <> JArr translations) ->
                     @inl JsError (list json)
                       (Error "Invalid JSON structure: missing 'translations' array")
                     = inl e -> validation_throws req text e).
      { intros Hv [= <-]. apply (throws_structure req text (JObj fields) Hp);
          [discriminate|]. intros translations. cbn [prop]. rewrite Ea.
        intros [= Hx]. now apply (Hv translations). }
      destruct v as [|b|r|s|translations|fields']; try (apply Hnot; discriminate).
      destruct (Nat.eqb_spec (List.length (texts req)) 1) as [H1|H1]; cbn [andb].
      * destruct (Nat.ltb_spec 1 (List.length translations)) as [Hl|Hl].
        -- cbn [snd]. destruct (array_join nl translations) eqn:Hj; [discriminate|].
           intros [= <-].
           apply (throws_merge req text (JObj fields) translations Hp); assumption.
        -- destruct (Nat.eqb_spec (List.length translations) (List.length (texts req)))
             as [Heq|Hne]; cbn [negb snd]; [discriminate|].
           intros [= <-].
           apply (throws_mismatch req text (JObj fields) translations Hp);
             [cbn [prop]; exact Ea|right; lia|exact Hne].
      * destruct (Nat.eqb_spec (List.length translations) (List.length (texts req)))
          as [Heq|Hne]; cbn [negb snd]; [discriminate|].
        intros [= <-].
        apply (throws_mismatch req text (JObj fields) translations Hp);
          [cbn [prop]; exact Ea|left; exact H1|exact Hne].
Qed.

Lemma fetch_jsonText_custom (req : TranslationRequest) (k : nat) :
  provider req = CUSTOM ->
  missing_config (customConfig req) = false ->
  jsonText_of req k =
  ([EvFetch k (endpoint_of req)],
   match fetch k (endpoint_of req) req with
   | inl e => inl e
   | inr response =>
       if negb (ok response) then
         match body response with
         | inl e => inl e
         | inr errText =>
             inl (Error ("Custom API Error " ++ of_nat (status response)
                         ++ ": " ++ errText))
         end
       else
         match response_json JSON_parse response with
         | inl e => inl e
         | inr data =>
             match choice_content data with
             | inl e => inl e
             | inr content =>
                 if negb (Json.truthy content)
                 then inl (Error "Empty response from Custom API")
                 else match content with
                      | Some v => inr v
                      | None => inr JNull
                      end
             end
         end
   end).
Proof.
  intros Hp Hm. unfold fetch_jsonText, endpoint_of. rewrite Hp, Hm. reflexivity.
Qed.

Lemma attempt_throws_body (req : TranslationRequest) (k : nat) (e : JsError) :
  attempt_throws req k e -> snd (body_of req k) = inl e.
Proof.
  intro H. unfold try_body.
  destruct H as [Hp Hm|e Hp Hg|e Hp Hm Hf|response errText Hp Hm Hf Hok Hb
                 |response e Hp Hm Hf Hok Hb|response e Hp Hm Hf Hok Hj
                 |response data e Hp Hm Hf Hok Hj Hc
                 |response data content Hp Hm Hf Hok Hj Hc Ht
                 |evs j Hj Hns|evs text e Hj Hv].
  - unfold fetch_jsonText. now rewrite Hp, Hm.
  - unfold fetch_jsonText. now rewrite Hp, Hg.
  - rewrite (fetch_jsonText_custom req k Hp Hm). now rewrite Hf.
  - rewrite (fetch_jsonText_custom req k Hp Hm). now rewrite Hf, Hok, Hb.
  - rewrite (fetch_jsonText_custom req k Hp Hm). now rewrite Hf, Hok, Hb.
  - rewrite (fetch_jsonText_custom req k Hp Hm). now rewrite Hf, Hok, Hj.
  - rewrite (fetch_jsonText_custom req k Hp Hm). now rewrite Hf, Hok, Hj, Hc.
  - rewrite (fetch_jsonText_custom req k Hp Hm). now rewrite Hf, Hok, Hj, Hc, Ht.
  - rewrite Hj. destruct j; try reflexivity. now contradiction (Hns s).
  - rewrite Hj. apply validation_throws_validate in Hv.
    destruct (validated req (JStr text)) as [evs' r]. cbn [snd] in *. now subst r.
Qed.

Lemma body_attempt_throws (req : TranslationRequest) (k : nat) (e : JsError) :
  snd (body_of req k) = inl e -> attempt_throws req k e.
Proof.
  unfold try_body.
  destruct (jsonText_of req k) as [evs [e0|j]] eqn:Hj.
  - cbn [snd]. intros [= <-].
    destruct (provider req) eqn:Hp.
    + unfold fetch_jsonText in Hj. rewrite Hp in Hj.
      destruct (generateContent k req) as [e|t] eqn:Hg; inversion Hj; subst.
      now apply throws_generateContent.
    + destruct (missing_config (customConfig req)) eqn:Hm.
      * unfold fetch_jsonText in Hj. rewrite Hp, Hm in Hj. inversion Hj; subst.
        now apply throws_missing_config.
      * pose proof (fetch_jsonText_custom req k Hp Hm) as Hc.
        rewrite Hj in Hc.
        destruct (fetch k (endpoint_of req) req) as [e|response] eqn:Hf.
        { inversion Hc; subst. now apply throws_fetch. }
        destruct (ok response) eqn:Hok; cbn [negb] in Hc.
        2:{ destruct (body response) as [e|errText] eqn:Hb; inversion Hc; subst.
            - now apply (throws_error_text req k response e).
            - now apply (throws_http_status req k response errText). }
        destruct (response_json JSON_parse response) as [e|data] eqn:Hr.
        { inversion Hc; subst. now apply (throws_response_json req k response e). }
        destruct (choice_content data) as [e|content] eqn:Hch.
        { inversion Hc; subst. now apply (throws_choices req k response data e). }
        destruct (Json.truthy content) eqn:Ht; cbn [negb] in Hc.
        { destruct content; discriminate Hc. }
        inversion Hc; subst.
        now apply (throws_empty_content req k response data content).
  - destruct j as [|b|r|text|items|fields];
      try (cbn [validate snd]; intros [= <-];
           apply (throws_not_a_string req k evs _ Hj); discriminate).
    intro H. apply (throws_validation req k evs text e Hj). apply validate_throws.
    destruct (validated req (JStr text)) as [evs' r]. exact H.
Qed.

Ltac count_failures :=
  unfold attempts_made;
  repeat first
    [ rewrite failures_app
    | match goal with H : failures _ = [] |- _ => rewrite H end
    | progress cbn [failures app] ];
  reflexivity.

Lemma translateBatch_trace (req : TranslationRequest) (trace : list Event)
    (outcome : JsError + list json) :
  call req = Some (trace, outcome) ->
  trace = flat_map (attempt_trace req) (seq 0 (attempts_made trace outcome)).
Proof.
  rewrite translateBatch_unrolled. quiet_bodies req.
  assert (Hcount : forall n, attempts_made trace outcome = n ->
                     trace = flat_map (attempt_trace req) (seq 0 n) ->
                     trace = flat_map (attempt_trace req)
                                      (seq 0 (attempts_made trace outcome)))
    by (intros n ->; exact (fun H => H)).
  unfold attempt_trace, maxRetries in *.
  destruct (body_of req 0) as [ev0 [e0|r0]] eqn:B0;
    [destruct (body_of req 1) as [ev1 [e1|r1]] eqn:B1;
     [destruct (body_of req 2) as [ev2 [e2|r2]] eqn:B2|]|];
    cbn [fst] in *; intros [= <- <-].
  - apply (Hcount 3).
    + count_failures.
    + cbn [flat_map seq]. rewrite B0, B1, B2.
      cbn [fst snd Nat.add Nat.eqb]. rewrite app_nil_r, <- !app_assoc. reflexivity.
  - apply (Hcount 3).
    + count_failures.
    + cbn [flat_map seq]. rewrite B0, B1, B2.
      cbn [fst snd Nat.add Nat.eqb]. rewrite !app_nil_r, <- !app_assoc. reflexivity.
  - apply (Hcount 2).
    + count_failures.
    + cbn [flat_map seq]. rewrite B0, B1.
      cbn [fst snd Nat.add Nat.eqb]. rewrite !app_nil_r, <- !app_assoc. reflexivity.
  - apply (Hcount 1).
    + count_failures.
    + cbn [flat_map seq]. rewrite B0. cbn [fst snd]. now rewrite !app_nil_r.
Qed.

(** C4.  An attempt fails exactly when something throws in it (the
    construction of the request, the transport, the reading of the
    response, its validation), and it fails with the error thrown.
    A call makes between one and
    three attempts; its trace is, attempt after attempt, the events
    of the attempt followed, when it failed, by the warning and, when
    another attempt is allowed, by the delay of
    [1000 * 2 ^ (k - 1)] milliseconds after failed attempt [k],
    before attempt [k + 1] starts.  A call that returns returns what
    its first successful attempt produced, and a call that throws has
    failed three times and throws the error of the third attempt
    itself. *)
Theorem translateBatch_retry_policy (req : TranslationRequest) :
  (forall k e, snd (body_of req k) = inl e <-> attempt_throws req k e)
  /\ exists trace outcome,
       call req = Some (trace, outcome)
       /\ 1 <= attempts_made trace outcome <= maxRetries
       /\ trace = flat_map (attempt_trace req) (seq 0 (attempts_made trace outcome))
       /\ waits trace =
            map (fun k => 1000 * 2 ^ (k - 1)) (seq 1 (attempts_made trace outcome - 1))
       /\ (forall k e, nth_error (failures trace) k = Some e ->
             snd (body_of req k) = inl e)
       /\ match outcome with
          | inr result => snd (body_of req (List.length (failures trace))) = inr result
          | inl error =>
              List.length (failures trace) = 3
              /\ snd (body_of req 2) = inl error
              /\ waits trace = [1000; 2000]
          end.
Proof.
  split; [intros k e; split; [apply body_attempt_throws|apply attempt_throws_body]|].
  pose proof (translateBatch_trace req) as Htrace.
  rewrite translateBatch_unrolled in *. quiet_bodies req. unfold maxRetries.
  destruct (body_of req 0) as [ev0 [e0|r0]] eqn:B0;
    [destruct (body_of req 1) as [ev1 [e1|r1]] eqn:B1;
     [destruct (body_of req 2) as [ev2 [e2|r2]] eqn:B2|]|];
    (do 2 eexists; split; [reflexivity|];
     split; [trace_simpl; lia|];
     split; [apply Htrace; reflexivity|];
     trace_simpl;
     repeat split; try lia; try reflexivity;
     first
       [ now rewrite ?B0, ?B1, ?B2
       | intros k e H;
         repeat (destruct k as [|k]; cbn in H; try discriminate);
         rewrite ?B0, ?B1, ?B2; cbn; congruence ]).
Qed.

(** C3 (as amended).  With the custom provider and a missing base
    URL or key, every attempt throws the configuration error before
    any request is sent; the call makes its three attempts with the
    delays of 1000 and 2000 milliseconds between them and then throws
    that error. *)
Theorem missing_config_is_retried_then_thrown (req : TranslationRequest) :
  provider req = CUSTOM ->
  missing_config (customConfig req) = true ->
  call req =
  Some ([EvWarnFailed 1 missing_config_error; EvWait 1000;
         EvWarnFailed 2 missing_config_error; EvWait 2000;
         EvWarnFailed 3 missing_config_error],
        inl missing_config_error).
Proof.
  intros Hp Hm.
  assert (Hbody : forall k, body_of req k = ([], inl missing_config_error)).
  { intro k. unfold try_body, fetch_jsonText. now rewrite Hp, Hm. }
  rewrite translateBatch_unrolled, !Hbody. reflexivity.
Qed.










End TranslateBatchFacts.


(** ** Plain-text segments *)

Lemma parsePlainText_map_times (paragraphs : list str) (k : nat) :
  Forall (fun b => startTime b = placeholder_time /\ endTime b = placeholder_time
                   /\ exists p, originalText b = trim p)
         (parsePlainText_map paragraphs k).
Proof.
  revert k; induction paragraphs as [|p ps IH]; intro k;
    cbn [parsePlainText_map]; constructor; [|apply IH].
  cbn. repeat split. now exists p.
Qed.

(** Every plain-text segment carries the placeholder as both time
    stamps and a trimmed, non-empty paragraph as text. *)
Lemma parsePlainText_segments (content : str) :
  Forall (fun b => startTime b = placeholder_time /\ endTime b = placeholder_time
                   /\ originalText b <> [] /\ exists p, originalText b = trim p)
         (parsePlainText content).
Proof.
  pose proof (parsePlainText_fresh content) as Hf.
  unfold parsePlainText in *.
  pose proof (parsePlainText_map_times (split_re Re.blank_line 0 content) 0) as Ht.
  rewrite Forall_forall in *. intros b Hb.
  specialize (Hf b Hb). apply filter_In in Hb. destruct Hb as [Hb _].
  specialize (Ht b Hb). destruct Hf as [Hf _]. tauto.
Qed.

(** One segment per paragraph that is not empty once trimmed, in
    document order. *)
Lemma parsePlainText_texts (content : str) :
  map originalText (parsePlainText content)
  = filter Js.truthy (map trim (split_re Re.blank_line 0 content)).
Proof.
  unfold parsePlainText.
  assert (H : forall ps k,
             map originalText
                 (filter (fun b => (0 <? List.length (originalText b))%nat)
                         (parsePlainText_map ps k))
             = filter Js.truthy (map trim ps)).
  { induction ps as [|p ps IH]; intro k;
      cbn [parsePlainText_map filter map originalText]; [reflexivity|].
    destruct (trim p) eqn:E;
      cbn [List.length Nat.ltb Nat.leb Js.truthy map originalText].
    - apply IH.
    - now rewrite IH. }
  apply H.
Qed.

(** The identifiers are given before the empty paragraphs are dropped:
    paragraph [i] gets [i + 1], dropped or not. *)
Lemma parsePlainText_map_ids (paragraphs : list str) (k : nat) :
  map id (parsePlainText_map paragraphs k) = seq (k + 1) (List.length paragraphs).
Proof.
  revert k; induction paragraphs as [|p ps IH]; intro k;
    cbn [parsePlainText_map map id List.length seq]; [reflexivity|].
  rewrite IH. reflexivity.
Qed.

(** C2 (the code departs from it).  A text that starts with a blank
    line parses to segments numbered from 2: the identifier is the
    paragraph's position before the empty paragraphs are filtered
    out, so the first surviving segment of the list is not segment
    1. *)
Theorem plain_text_ids_count_dropped_paragraphs :
  let content : str := nl ++ nl ++ "Hello" ++ nl ++ nl ++ "World" in
  map id (parsePlainText content) = [2; 3]
  /\ map originalText (parsePlainText content)
     = [list_ascii_of_string "Hello"; list_ascii_of_string "World"]
  /\ map id (parsePlainText content) <> seq 1 (List.length (parsePlainText content)).
Proof. vm_compute. repeat split. discriminate. Qed.

(** ** Lyric serialization *)

Definition single_line (s : str) : Prop := ~ In LF s.

Definition single_line_block (b : SubtitleBlock) : Prop :=
  single_line (startTime b) /\ single_line (originalText b)
  /\ single_line (translatedText b).

(** The two lines a segment contributes in a dual format. *)
Definition dual_lines (format : OutputFormat) (b : SubtitleBlock) : list str :=
  let original := originalText b in
  let translated := or_else (translatedText b) original in
  match format with
  | DUAL_SRC_TRANS => [timeTag b ++ original; timeTag b ++ translated]
  | _ => [timeTag b ++ translated; timeTag b ++ original]
  end.

Lemma cons_head_split_on (c : ascii) (s : str) :
  c <> LF -> split_on LF (c :: s) = cons_head c (split_on LF s).
Proof.
  intro H. cbn [split_on]. destruct (Ascii.eqb_spec c LF); [contradiction|reflexivity].
Qed.

Lemma split_on_nonempty (d : ascii) (s : str) : split_on d s <> [].
Proof.
  destruct s as [|c s]; cbn; [discriminate|].
  destruct (Ascii.eqb c d); [discriminate|].
  destruct (split_on d s); discriminate.
Qed.

Lemma split_on_app_line (u v : str) :
  single_line u -> split_on LF (u ++ LF :: v) = u :: split_on LF v.
Proof.
  unfold single_line. induction u as [|c u IH]; intro H.
  - cbn [app split_on]. now rewrite Ascii.eqb_refl.
  - cbn [app]. rewrite cons_head_split_on by (intro E; apply H; left; assumption).
    rewrite IH by (intro E; apply H; right; assumption). reflexivity.
Qed.

Lemma split_on_single_line (u : str) : single_line u -> split_on LF u = [u].
Proof.
  unfold single_line. induction u as [|c u IH]; intro H; [reflexivity|].
  rewrite cons_head_split_on by (intro E; apply H; left; assumption).
  rewrite IH by (intro E; apply H; right; assumption). reflexivity.
Qed.

Lemma split_on_join (lines : list str) :
  lines <> [] -> Forall single_line lines -> split_on LF (join nl lines) = lines.
Proof.
  induction lines as [|l ls IH]; intros Hne Hall; [contradiction|].
  inversion Hall as [|? ? Hl Hls]; subst.
  destruct ls as [|l' ls].
  - cbn [join]. now apply split_on_single_line.
  - change (join nl (l :: l' :: ls)) with (l ++ LF :: join nl (l' :: ls)).
    rewrite split_on_app_line by assumption.
    rewrite IH; [reflexivity|discriminate|assumption].
Qed.

Lemma single_line_app (a b : str) :
  single_line a -> single_line b -> single_line (a ++ b).
Proof. unfold single_line. intros Ha Hb H. apply in_app_or in H. tauto. Qed.

Lemma timeTag_single_line (b : SubtitleBlock) :
  single_line (startTime b) -> single_line (timeTag b).
Proof.
  intro H. unfold timeTag. apply single_line_app; [|apply single_line_app].
  - cbn. intros [E|[]]. discriminate.
  - assumption.
  - cbn. intros [E|[]]. discriminate.
Qed.

Lemma dual_lines_single (format : OutputFormat) (b : SubtitleBlock) :
  single_line_block b -> Forall single_line (dual_lines format b).
Proof.
  intros (Hs & Ho & Ht).
  assert (Hr : single_line (or_else (translatedText b) (originalText b)))
    by (unfold or_else; destruct (Js.truthy _); assumption).
  pose proof (timeTag_single_line b Hs) as Htag.
  destruct format; cbn [dual_lines];
    repeat constructor; apply single_line_app; assumption.
Qed.

Lemma stringifyLRC_dual_join (format : OutputFormat) (blocks : list SubtitleBlock) :
  format <> ONLY_TRANSLATION ->
  stringifyLRC blocks format = join nl (flat_map (dual_lines format) blocks).
Proof.
  intro Hf. unfold stringifyLRC.
  induction blocks as [|b bs IH]; [reflexivity|].
  cbn [map flat_map].
  assert (Hb : stringifyLRC_block format b = join nl (dual_lines format b)).
  { destruct format; [contradiction| |]; cbn [stringifyLRC_block dual_lines join];
      now rewrite <- !app_assoc. }
  destruct bs as [|b' bs].
  - cbn [map flat_map join]. now rewrite app_nil_r.
  - change (join nl (stringifyLRC_block format b :: map (stringifyLRC_block format) (b' :: bs)))
      with (stringifyLRC_block format b ++ nl
            ++ join nl (map (stringifyLRC_block format) (b' :: bs))).
    rewrite IH, Hb.
    remember (flat_map (dual_lines format) (b' :: bs)) as rest eqn:Hrest.
    assert (Hne : rest <> []).
    { subst rest. cbn [flat_map]. destruct format; cbn; discriminate. }
    destruct rest as [|r rest]; [contradiction|].
    destruct format; [contradiction| |]; cbn [dual_lines app join];
      now rewrite <- !app_assoc.
Qed.

(** On texts of one line the dual modes do what the lyric convention
    asks: a non-empty segment list whose time tags and texts hold no
    line feed serializes to exactly two lines per segment, in segment
    order, each starting with the segment's [[startTime]] tag and
    followed by one of its two texts. *)
Theorem stringifyLRC_dual_two_tagged_lines
    (blocks : list SubtitleBlock) (format : OutputFormat) :
  format <> ONLY_TRANSLATION ->
  blocks <> [] ->
  Forall single_line_block blocks ->
  let lines := split_on LF (stringifyLRC blocks format) in
  lines = flat_map (dual_lines format) blocks
  /\ List.length lines = 2 * List.length blocks.
Proof.
  intros Hf Hne Hall lines. subst lines.
  rewrite stringifyLRC_dual_join by assumption.
  rewrite split_on_join.
  - split; [reflexivity|].
    clear. induction blocks as [|b bs IH]; [reflexivity|].
    cbn [flat_map]. rewrite length_app, IH.
    destruct format; cbn; lia.
  - destruct blocks as [|b bs]; [contradiction|].
    cbn [flat_map]. destruct format; cbn; discriminate.
  - rewrite Forall_forall. intros l Hl. apply in_flat_map in Hl.
    destruct Hl as (b & Hb & Hl).
    rewrite Forall_forall in Hall.
    pose proof (dual_lines_single format b (Hall b Hb)) as Hd.
    rewrite Forall_forall in Hd. now apply Hd.
Qed.

(** A segment whose translation spans two lines serializes, in a dual
    mode, to three lines, and the second of them carries no tag. *)
Lemma multi_line_translation_breaks_tagging :
  let b := mkBlock 1 "00:01.00" [] "x" ("a" ++ nl ++ "b") false in
  let lines := split_on LF (stringifyLRC [b] DUAL_TRANS_SRC) in
  lines = [list_ascii_of_string "[00:01.00]a"; list_ascii_of_string "b";
           list_ascii_of_string "[00:01.00]x"]
  /\ List.length lines = 3
  /\ starts_with (timeTag b) (nth 1 lines []) = false.
Proof. vm_compute. repeat split. Qed.

(** ** Subtitle round trip *)

(** *** Character classes *)

Lemma digit_not_space (c : ascii) : is_digit c = true -> is_space c = false.
Proof.
  destruct c as [[] [] [] [] [] [] [] []]; cbv; intro H; congruence.
Qed.

Lemma space_LF : is_space LF = true.
Proof. reflexivity. Qed.

Lemma not_space_not_LF (c : ascii) : is_space c = false -> c <> LF.
Proof. intros H ->. discriminate. Qed.



(** *** Trimming *)

Definition head_not_space (s : str) : Prop :=
  match s with
  | [] => True
  | c :: _ => is_space c = false
  end.

(** A string that [trim] leaves alone: it neither starts nor ends with
    white space. *)
Definition trimmed (s : str) : Prop :=
  head_not_space s /\ head_not_space (rev s).

Lemma drop_while_head (s : str) : head_not_space (drop_while is_space s).
Proof.
  induction s as [|c s IH]; cbn; [exact I|].
  destruct (is_space c) eqn:E; [exact IH|]. cbn. exact E.
Qed.

Lemma drop_while_id (s : str) : head_not_space s -> drop_while is_space s = s.
Proof. destruct s as [|c s]; cbn; [reflexivity|]. now intros ->. Qed.

Lemma drop_while_suffix (p : ascii -> bool) (s : str) :
  exists a, s = a ++ drop_while p s /\ Forall (fun c => p c = true) a.
Proof.
  induction s as [|c s (a & Ha & Hall)]; cbn.
  - exists []. split; [reflexivity|constructor].
  - destruct (p c) eqn:E.
    + exists (c :: a). split; [cbn; congruence|now constructor].
    + exists []. split; [reflexivity|constructor].
Qed.

Lemma trim_end_prefix (s : str) :
  exists b, s = trim_end s ++ b /\ Forall (fun c => is_space c = true) b.
Proof.
  unfold trim_end.
  destruct (drop_while_suffix is_space (rev s)) as (a & Ha & Hall).
  exists (rev a). split.
  - rewrite <- rev_app_distr, <- Ha. now rewrite rev_involutive.
  - now apply Forall_rev.
Qed.

Lemma trim_end_head (s : str) : head_not_space s -> head_not_space (trim_end s).
Proof.
  intro H. destruct (trim_end_prefix s) as (b & Hb & _).
  destruct (trim_end s) as [|c r]; [exact I|].
  rewrite Hb in H. exact H.
Qed.

Lemma trim_trimmed (s : str) : trimmed (trim s).
Proof.
  unfold trimmed, trim. split.
  - apply trim_end_head, drop_while_head.
  - unfold trim_end. rewrite rev_involutive. apply drop_while_head.
Qed.

Lemma trim_id (s : str) : trimmed s -> trim s = s.
Proof.
  intros [Hh Hl]. unfold trim, trim_start, trim_end.
  rewrite (drop_while_id s Hh), (drop_while_id (rev s) Hl).
  apply rev_involutive.
Qed.

Lemma trim_substring (s : str) :
  exists a b, s = a ++ trim s ++ b.
Proof.
  unfold trim, trim_start.
  destruct (drop_while_suffix is_space s) as (a & Ha & _).
  destruct (trim_end_prefix (drop_while is_space s)) as (b & Hb & _).
  exists a, b. now rewrite <- Hb.
Qed.



Lemma trim_empty_all_space (s : str) :
  trim s = [] -> Forall (fun c => is_space c = true) s.
Proof.
  unfold trim, trim_start. intro H.
  destruct (drop_while_suffix is_space s) as (a & Ha & Hall).
  destruct (trim_end_prefix (drop_while is_space s)) as (b & Hb & Hb').
  rewrite H in Hb. cbn in Hb. rewrite Ha, Hb. now apply Forall_app.
Qed.

Lemma trim_truthy (s : str) (c : ascii) :
  In c s -> is_space c = false -> Js.truthy (trim s) = true.
Proof.
  intros Hin Hc. apply truthy_nonempty. intro H.
  apply trim_empty_all_space in H. rewrite Forall_forall in H.
  specialize (H c Hin). congruence.
Qed.

(** *** Parsed lyric segments are single lines *)

Lemma digit_not_LF (c : ascii) : is_digit c = true -> c <> LF.
Proof. intros H ->. discriminate. Qed.

Lemma take_while_single_line (s : str) :
  single_line (take_while (fun c => negb (is_line_terminator c)) s).
Proof.
  unfold single_line. induction s as [|c s IH]; cbn [take_while]; [intros []|].
  destruct (is_line_terminator c) eqn:E; cbn [negb]; [intros []|].
  intros [->|H]; [discriminate|now apply IH].
Qed.

Lemma trim_single_line (s : str) : single_line s -> single_line (trim s).
Proof.
  unfold single_line. intros H Hin. apply H.
  destruct (trim_substring s) as (a & b & Hab). rewrite Hab.
  apply in_or_app. right. apply in_or_app. now left.
Qed.

Lemma is_mmss_single_line (t : str) : Re.is_mmss t = true -> single_line t.
Proof.
  intro H. do 6 (destruct t as [|? t]; try discriminate H).
  cbn [Re.is_mmss] in H.
  do 4 (apply andb_true_iff in H; destruct H as [H ?]).
  apply Ascii.eqb_eq in H2. subst.
  intros Hin. cbn in Hin.
  repeat match goal with
         | D : is_digit ?c = true |- _ => apply digit_not_LF in D
         end.
  intuition (try congruence; discriminate).
Qed.

Lemma lrc_fraction_single_line (s frac rest : str) :
  Re.lrc_fraction s = Some (frac, rest) -> single_line frac.
Proof.
  unfold Re.lrc_fraction.
  destruct (Re.lrc_fraction3 s) as [[f r]|] eqn:E3.
  - intros [= <- <-]. unfold Re.lrc_fraction3 in E3.
    destruct s as [|dot [|d1 [|d2 [|d3 [|close rest']]]]]; try discriminate.
    destruct (_ && _) eqn:Hc; [|discriminate]. inversion E3; subst.
    do 4 (apply andb_true_iff in Hc; destruct Hc as [Hc ?]).
    apply Ascii.eqb_eq in Hc. subst dot.
    intros Hin. cbn in Hin.
    repeat match goal with
           | D : is_digit ?c = true |- _ => apply digit_not_LF in D
           end.
    intuition (try congruence; discriminate).
  - destruct (Re.lrc_fraction2 s) as [[f r]|] eqn:E2.
    + intros [= <- <-]. unfold Re.lrc_fraction2 in E2.
      destruct s as [|dot [|d1 [|d2 [|close rest']]]]; try discriminate.
      destruct (_ && _) eqn:Hc; [|discriminate]. inversion E2; subst.
      do 3 (apply andb_true_iff in Hc; destruct Hc as [Hc ?]).
      apply Ascii.eqb_eq in Hc. subst dot.
      intros Hin. cbn in Hin.
      repeat match goal with
             | D : is_digit ?c = true |- _ => apply digit_not_LF in D
             end.
      intuition (try congruence; discriminate).
    + destruct s as [|close rest']; [discriminate|].
      destruct (Ascii.eqb close "]"); [|discriminate].
      intros [= <- <-]. intros [].
Qed.

Lemma lrc_line_single_line (line t r : str) :
  Re.lrc_line line = Some (t, r) -> single_line t /\ single_line r.
Proof.
  unfold Re.lrc_line. destruct line as [|c r0]; [discriminate|].
  destruct (Ascii.eqb_spec c "["); [|
    destruct c as [[] [] [] [] [] [] [] []]; try discriminate; congruence].
  subst c.
  destruct (Re.is_mmss (firstn 5 r0)) eqn:Em; [|discriminate].
  destruct (Re.lrc_fraction (skipn 5 r0)) as [[frac rest]|] eqn:Ef; [|discriminate].
  intros [= <- <-]. split.
  - apply single_line_app; [now apply is_mmss_single_line|].
    eapply lrc_fraction_single_line; eauto.
  - apply take_while_single_line.
Qed.

(** Every segment [parseLRC] returns has a time tag and a text
    without line feed. *)
Lemma parseLRC_single_line (content : str) :
  Forall (fun b => single_line (startTime b) /\ single_line (originalText b))
         (parseLRC content).
Proof.
  unfold parseLRC. generalize 1 as k.
  induction (split_re Re.line_break 0 content) as [|line lines IH]; intro k;
    cbn [parseLRC_loop]; [constructor|].
  destruct (Re.lrc_line line) as [[t r]|] eqn:E; [|apply IH].
  destruct (Js.truthy (trim r)); [|apply IH].
  constructor; [|apply IH].
  apply lrc_line_single_line in E. destruct E as [Ht Hr].
  cbn. split; [exact Ht|now apply trim_single_line].
Qed.

(** *** Blank lines *)

(** No suffix of [s] starts with a match of the blank-line
    expression. *)
Definition blank_free (s : str) : Prop :=
  forall a b, s = a ++ b -> Re.blank_line b = None.

Lemma ws_then_lf_mono (s r : str) (n : nat) :
  Re.ws_then_lf s = Some n -> exists m, Re.ws_then_lf (s ++ r) = Some m.
Proof.
  revert n; induction s as [|c s IH]; intros n H; [discriminate|].
  cbn [app Re.ws_then_lf] in *.
  destruct (is_space c); [|discriminate].
  destruct (Re.ws_then_lf s) as [k|] eqn:E.
  - destruct (IH k eq_refl) as [m ->]. eauto.
  - destruct (Ascii.eqb c LF); [|discriminate].
    destruct (Re.ws_then_lf (s ++ r)); eauto.
Qed.

Lemma blank_line_mono (s r : str) :
  Re.blank_line (s ++ r) = None -> Re.blank_line s = None.
Proof.
  destruct s as [|c s]; [reflexivity|]. cbn [app Re.blank_line].
  destruct (Ascii.eqb c LF); [|reflexivity].
  destruct (Re.ws_then_lf s) as [n|] eqn:E; [|reflexivity].
  destruct (ws_then_lf_mono s r n E) as [m ->]. discriminate.
Qed.

Lemma blank_line_positive (s : str) : Re.blank_line s <> Some 0.
Proof.
  destruct s as [|c s]; cbn [Re.blank_line]; [discriminate|].
  destruct (Ascii.eqb c LF); [|discriminate].
  destruct (Re.ws_then_lf s); discriminate.
Qed.

Lemma blank_free_nil : blank_free [].
Proof.
  intros a b H. symmetry in H. apply app_eq_nil in H. destruct H as [_ ->].
  reflexivity.
Qed.

Lemma blank_free_suffix (a s : str) : blank_free (a ++ s) -> blank_free s.
Proof. intros H a' b ->. apply (H (a ++ a') b). now rewrite app_assoc. Qed.

Lemma blank_free_prefix (s r : str) : blank_free (s ++ r) -> blank_free s.
Proof.
  intros H a b ->. apply (blank_line_mono b r). apply (H a (b ++ r)).
  now rewrite app_assoc.
Qed.

Lemma blank_free_cons (c : ascii) (s : str) :
  Re.blank_line (c :: s) = None -> blank_free s -> blank_free (c :: s).
Proof.
  intros Hc Hs [|x a] b H; cbn in H.
  - now subst.
  - inversion H; subst. now apply (Hs a b).
Qed.

Lemma split_re_nonempty (re : str -> option nat) (skip : nat) (s : str) :
  split_re re skip s <> [].
Proof.
  revert skip; induction s as [|c s IH]; intro skip; cbn; [discriminate|].
  destruct skip; [|apply IH].
  destruct (re (c :: s)) as [[|n]|]; try discriminate;
    destruct (split_re re 0 s); discriminate.
Qed.

Lemma split_re_first_prefix (re : str -> option nat) (s p : str) (ps : list str) :
  split_re re 0 s = p :: ps -> exists r, s = p ++ r.
Proof.
  revert p ps; induction s as [|c s IH]; intros p ps H; cbn in H.
  - inversion H. now exists [].
  - assert (Hcons : cons_head c (split_re re 0 s) = p :: ps -> exists r, c :: s = p ++ r).
    { intro Hc. destruct (split_re re 0 s) as [|p' ps'] eqn:E; cbn in Hc.
      - inversion Hc. now exists s.
      - inversion Hc; subst. destruct (IH p' ps eq_refl) as [r ->]. now exists r. }
    destruct (re (c :: s)) as [[|n]|]; auto.
    inversion H. now exists (c :: s).
Qed.

(** The blocks [parseSRT] and [parsePlainText] cut a text into hold no
    blank line. *)
Lemma split_blank_free (skip : nat) (s : str) :
  Forall blank_free (split_re Re.blank_line skip s).
Proof.
  revert skip; induction s as [|c s IH]; intro skip; cbn [split_re].
  - constructor; [apply blank_free_nil|constructor].
  - destruct skip as [|k]; [|apply IH].
    assert (Hcons : Re.blank_line (c :: s) = None ->
                    Forall blank_free (cons_head c (split_re Re.blank_line 0 s))).
    { intro Hnone. specialize (IH 0).
      destruct (split_re Re.blank_line 0 s) as [|p ps] eqn:E.
      - now apply split_re_nonempty in E.
      - inversion IH as [|? ? Hp Hps]; subst. cbn. constructor; [|assumption].
        apply blank_free_cons; [|assumption].
        destruct (split_re_first_prefix _ _ _ _ E) as [r ->].
        now apply (blank_line_mono (c :: p) r). }
    destruct (Re.blank_line (c :: s)) as [[|n]|] eqn:Hb.
    + now apply blank_line_positive in Hb.
    + constructor; [apply blank_free_nil|apply IH].
    + now apply Hcons.
Qed.

(** *** Lines *)

Lemma join_split_on (s : str) : join nl (split_on LF s) = s.
Proof.
  induction s as [|c s IH]; [reflexivity|]. cbn [split_on].
  pose proof (split_on_nonempty LF s) as Hne.
  destruct (split_on LF s) as [|p ps]; [contradiction|].
  destruct (Ascii.eqb_spec c LF) as [->|Hc].
  - change (join nl ([] :: p :: ps)) with ([] ++ nl ++ join nl (p :: ps)).
    rewrite IH. reflexivity.
  - cbn [cons_head]. destruct ps as [|p' ps].
    + cbn [join] in *. now rewrite IH.
    + change (join nl ((c :: p) :: p' :: ps)) with (c :: (p ++ nl ++ join nl (p' :: ps))).
      change (join nl (p :: p' :: ps)) with (p ++ nl ++ join nl (p' :: ps)) in IH.
      now rewrite IH.
Qed.

Lemma join_skipn_suffix (k : nat) (lines : list str) :
  exists pre, join nl lines = pre ++ join nl (skipn k lines).
Proof.
  revert lines; induction k as [|k IH]; intro lines; [now exists []|].
  destruct lines as [|x rest]; [now exists []|]. cbn [skipn].
  destruct (IH rest) as [pre Hpre].
  destruct rest as [|y rest'].
  - exists x. rewrite skipn_nil. cbn. now rewrite app_nil_r.
  - exists (x ++ nl ++ pre).
    change (join nl (x :: y :: rest')) with (x ++ nl ++ join nl (y :: rest')).
    rewrite Hpre. now rewrite <- !app_assoc.
Qed.

(** The text of a segment is a piece of its block. *)
Lemma block_text_substring (block : str) (k : nat) :
  exists a b,
    block = a ++ trim (join nl (skipn k (split_on LF block))) ++ b.
Proof.
  destruct (join_skipn_suffix k (split_on LF block)) as [pre Hpre].
  rewrite join_split_on in Hpre.
  destruct (trim_substring (join nl (skipn k (split_on LF block)))) as (a & b & Hab).
  exists (pre ++ a), b. rewrite <- app_assoc, <- Hab. exact Hpre.
Qed.

(** *** What [parseSRT] guarantees of every segment *)

Lemma timestamp_is_timestamp (s t r : str) :
  Re.timestamp s = Some (t, r) -> Re.is_timestamp t = true.
Proof.
  unfold Re.timestamp. destruct (Re.is_timestamp (firstn 12 s)) eqn:E; [|discriminate].
  intros [= <- _]. exact E.
Qed.

Lemma time_line_at_timestamps (s t1 t2 : str) :
  Re.time_line_at s = Some (t1, t2) ->
  Re.is_timestamp t1 = true /\ Re.is_timestamp t2 = true.
Proof.
  unfold Re.time_line_at.
  destruct (Re.timestamp s) as [[a r1]|] eqn:E1; [|discriminate].
  destruct (Re.lit _ _) as [r2|]; [|discriminate].
  destruct (Re.timestamp (trim_start r2)) as [[b r3]|] eqn:E2; [|discriminate].
  intros [= <- <-]. split; eapply timestamp_is_timestamp; eauto.
Qed.

Lemma time_line_timestamps (s t1 t2 : str) :
  Re.time_line s = Some (t1, t2) ->
  Re.is_timestamp t1 = true /\ Re.is_timestamp t2 = true.
Proof.
  induction s as [|c s IH]; cbn [Re.time_line];
    destruct (Re.time_line_at _) as [[a b]|] eqn:E.
  - intros [= <- <-]. eapply time_line_at_timestamps; eauto.
  - discriminate.
  - intros [= <- <-]. eapply time_line_at_timestamps; eauto.
  - exact IH.
Qed.

(** A segment as [parseSRT] produces it. *)
Definition srt_segment (b : SubtitleBlock) : Prop :=
  Re.is_timestamp (startTime b) = true
  /\ Re.is_timestamp (endTime b) = true
  /\ originalText b <> []
  /\ trimmed (originalText b)
  /\ blank_free (originalText b)
  /\ translatedText b = []
  /\ isTranslating b = false.

Lemma parseSRT_block_segment (block t1 t2 text : str) (k : nat) :
  blank_free block ->
  parseSRT_block block = Some (t1, t2, text) ->
  srt_segment (mkBlock k t1 t2 text [] false).
Proof.
  intros Hfree. unfold parseSRT_block.
  destruct (negb _); [discriminate|].
  destruct (_ <? _)%nat; [discriminate|].
  destruct (findIndex _ _) as [i|]; [|discriminate].
  destruct (Re.time_line _) as [[a b]|] eqn:Et; [|discriminate].
  destruct (Js.truthy _) eqn:E; [|discriminate].
  intros [= <- <- <-].
  apply time_line_timestamps in Et. destruct Et as [Ha Hb].
  unfold srt_segment. cbn [startTime endTime originalText translatedText isTranslating].
  split; [exact Ha|]. split; [exact Hb|].
  split; [now apply truthy_nonempty|].
  split; [apply trim_trimmed|].
  split; [|split; reflexivity].
  destruct (block_text_substring block (i + 1)) as (x & y & Hxy).
  rewrite Hxy in Hfree.
  now apply blank_free_suffix, blank_free_prefix in Hfree.
Qed.

Lemma parseSRT_loop_segments (blocks : list str) (k : nat) :
  Forall blank_free blocks -> Forall srt_segment (parseSRT_loop blocks k).
Proof.
  revert k; induction blocks as [|b bs IH]; intros k H; cbn [parseSRT_loop];
    [constructor|].
  inversion H; subst.
  destruct (parseSRT_block b) as [[[t1 t2] text]|] eqn:E; [|now apply IH].
  constructor; [|now apply IH].
  eapply parseSRT_block_segment; eauto.
Qed.

Lemma parseSRT_loop_ids (blocks : list str) (k : nat) :
  map id (parseSRT_loop blocks k) = seq k (List.length (parseSRT_loop blocks k)).
Proof.
  revert k; induction blocks as [|b bs IH]; intro k; cbn [parseSRT_loop];
    [reflexivity|].
  destruct (parseSRT_block b) as [[[t1 t2] text]|]; [|apply IH].
  cbn. now rewrite IH.
Qed.

Lemma parseSRT_segments (content : str) : Forall srt_segment (parseSRT content).
Proof. apply parseSRT_loop_segments, split_blank_free. Qed.

(** *** Time stamps and indices as text *)

Lemma is_timestamp_shape (t : str) :
  Re.is_timestamp t = true ->
  List.length t = 12
  /\ Forall (fun c => is_space c = false) t
  /\ exists d r, t = d :: r /\ is_digit d = true.
Proof.
  intro H.
  do 13 (destruct t as [|? t]; try discriminate H).
  cbn [Re.is_timestamp] in H.
  do 11 (apply andb_true_iff in H; destruct H as [H ?]).
  repeat match goal with
         | E : Ascii.eqb _ _ = true |- _ => apply Ascii.eqb_eq in E; subst
         end.
  split; [reflexivity|]. split.
  - repeat (constructor; [first [now apply digit_not_space | reflexivity]|]).
    constructor.
  - eauto.
Qed.









(** *** Parsing a serialized block *)







(** *** Cutting a serialized list into blocks *)

(** No match of the blank-line expression starts inside [u] when [v]
    follows it. *)
Definition quiet (u v : str) : Prop :=
  forall a b, u = a ++ b -> b <> [] -> Re.blank_line (b ++ v) = None.




Lemma blank_line_not_LF (c : ascii) (s : str) : c <> LF -> Re.blank_line (c :: s) = None.
Proof.
  intro H. cbn [Re.blank_line].
  destruct (Ascii.eqb_spec c LF); [contradiction|reflexivity].
Qed.



Lemma head_rev_app (a b : str) :
  b <> [] -> head_not_space (rev (a ++ b)) -> head_not_space (rev b).
Proof.
  intros Hb H. rewrite rev_app_distr in H.
  destruct (rev b) as [|x r] eqn:E; [exact I|]. exact H.
Qed.

Lemma ws_then_lf_extend (s v : str) :
  Re.ws_then_lf s = None -> s <> [] -> head_not_space (rev s) ->
  Re.ws_then_lf (s ++ v) = None.
Proof.
  induction s as [|c s IH]; intros Hn Hne Hlast; [contradiction|].
  cbn [app Re.ws_then_lf] in *.
  destruct (is_space c) eqn:Hc; [|reflexivity].
  destruct (Re.ws_then_lf s) as [n|] eqn:Es; [discriminate|].
  destruct (Ascii.eqb c LF); [discriminate|].
  destruct s as [|c' s'].
  - cbn in Hlast. congruence.
  - rewrite IH; [reflexivity|reflexivity|discriminate|].
    apply (head_rev_app [c] (c' :: s')); [discriminate|exact Hlast].
Qed.

Lemma quiet_text (t v : str) :
  blank_free t -> head_not_space (rev t) -> quiet t v.
Proof.
  intros Hfree Hlast a b Ht Hb.
  destruct b as [|c b']; [contradiction|].
  destruct (Ascii.eqb_spec c LF) as [->|Hc]; [|now apply blank_line_not_LF].
  pose proof (Hfree a (LF :: b') Ht) as Hnone.
  cbn [app Re.blank_line] in *. rewrite Ascii.eqb_refl in *.
  destruct (Re.ws_then_lf b') as [n|] eqn:E; [discriminate|].
  assert (Hlast' : head_not_space (rev (LF :: b'))).
  { apply (head_rev_app a (LF :: b')); [discriminate|now rewrite <- Ht]. }
  destruct b' as [|x b''].
  - cbn in Hlast'. discriminate.
  - rewrite ws_then_lf_extend; [reflexivity|assumption|discriminate|].
    apply (head_rev_app [LF] (x :: b'')); [discriminate|exact Hlast'].
Qed.

Lemma split_re_quiet (u v : str) :
  quiet u v ->
  split_re Re.blank_line 0 (u ++ v) =
  match split_re Re.blank_line 0 v with
  | p :: ps => (u ++ p) :: ps
  | [] => [u]
  end.
Proof.
  induction u as [|c u IH]; intro H.
  - cbn [app]. destruct (split_re Re.blank_line 0 v) eqn:E; [|reflexivity].
    now apply split_re_nonempty in E.
  - cbn [app split_re].
    assert (Hc : Re.blank_line (c :: u ++ v) = None)
      by (apply (H [] (c :: u) eq_refl); discriminate).
    rewrite Hc.
    rewrite IH by (intros a b -> Hb; apply (H (c :: a) b); [reflexivity|assumption]).
    destruct (split_re Re.blank_line 0 v); reflexivity.
Qed.

Lemma split_re_separator (c : ascii) (r : str) :
  is_space c = false ->
  split_re Re.blank_line 0 (LF :: LF :: c :: r)
  = [] :: split_re Re.blank_line 0 (c :: r).
Proof.
  intro H.
  assert (Hb : Re.blank_line (LF :: LF :: c :: r) = Some 2).
  { cbn [Re.blank_line Re.ws_then_lf]. rewrite Ascii.eqb_refl, space_LF, H.
    reflexivity. }
  cbn [split_re]. rewrite Hb. reflexivity.
Qed.


(** *** The serialized list *)









(** *** Line-ending normalization *)












(** *** Round trip *)

(** The segments [segs] as a fresh parse numbers them from [first]. *)
Definition renumbered (first : nat) (segs : list SubtitleBlock) : list SubtitleBlock :=
  map_index (fun b i => mkBlock i (startTime b) (endTime b) (originalText b) [] false)
            segs first.






(* ================================================================== *)
(** * Concrete runs *)
(* ================================================================== *)

Module Sample.

(** The subtitle text of the specification's example. *)
Definition srt : str :=
  "1" ++ nl ++ "00:00:01,000 --> 00:00:02,000" ++ nl ++ "Hello" ++ nl ++ nl
  ++ "2" ++ nl ++ "00:00:03,000 --> 00:00:04,000" ++ nl ++ "World" ++ nl.

(** Three lyric lines separated by blank lines: three segments as
    lyrics and three as plain text. *)
Definition lyrics3 : str :=
  "[00:01.00]one" ++ nl ++ nl ++ "[00:02.00]two" ++ nl ++ nl ++ "[00:03.00]three".

(** The same with the last two lines in one paragraph: three segments
    as lyrics, two as plain text. *)
Definition lyrics2 : str :=
  "[00:01.00]one" ++ nl ++ nl ++ "[00:02.00]two" ++ nl ++ "[00:03.00]three".

Definition give (ts : list str) (l : list SubtitleBlock) : list SubtitleBlock :=
  map_index (fun b i => set_translatedText (nth i ts []) b) l 0.

Definition translations : list str := map list_ascii_of_string ["uno"; "dos"; "tres"].

Definition lyric_lines : str :=
  "[00:12.19]La la" ++ nl ++ "[00:15]" ++ nl ++ "[00:17.50]End".

(** A provider that answers the first chunk and fails afterwards. *)
Definition flaky (i : nat) (req : TranslationRequest) : JsError + list str :=
  if (i =? 0)%nat then Example.echo i req else Example.down i req.

(** A provider that answers every text with the empty string. *)
Definition silent (i : nat) (req : TranslationRequest) : JsError + list str :=
  inr (map (fun _ => []) (texts req)).

(** The default settings of the component with the custom provider
    selected: the key is empty. *)
Definition custom_request : TranslationRequest :=
  mkRequest ["Hello" : str] "zh-CN" "formal" "gpt-4o-mini" None CUSTOM
            (Some Example.config).

Definition single_request : TranslationRequest :=
  mkRequest ["Hello" : str] "zh-CN" "formal" "gemini-2.5-flash" None GEMINI None.

Definition parse_ab (s : str) : JsError + json :=
  inr (JObj [("translations" : str, JArr [JStr "a"; JStr "b"])]).

Definition no_parse (s : str) : JsError + json :=
  inl (mkError "SyntaxError" "Unexpected end of JSON input").

(** The double quote. *)
Definition dq : ascii := "034"%char.

Definition quoted (s : str) : str := dq :: s ++ [dq].

(** A response object whose [translations] member is the array of
    the given element texts. *)
Definition response_text (elements : list str) : str :=
  "{" ++ quoted "translations" ++ ":[" ++ join "," elements ++ "]}".

(** The response that splits one text in two. *)
Definition text_ab : str := response_text [quoted "a"; quoted "b"].

Definition value_ab : json :=
  JObj [("translations" : str, JArr [JStr "a"; JStr "b"])].

(** A response whose first element is an object with a [toString]
    member. *)
Definition text_obj : str :=
  response_text ["{" ++ quoted "toString" ++ ":1}"; quoted "b"].

Definition value_obj : json :=
  JObj [("translations" : str,
         JArr [JObj [("toString" : str, JNum "1")]; JStr "b"])].

(** [JSON.parse] on the two response texts above. *)
Definition parse (s : str) : JsError + json :=
  if str_eqb s text_ab then inr value_ab
  else if str_eqb s text_obj then inr value_obj
  else inl (mkError "SyntaxError" "Unexpected token").



Definition answer (k : nat) (req : TranslationRequest) : JsError + option str :=
  inr (Some ("{}" : str)).

Definition offline (k : nat) (endpoint : str) (req : TranslationRequest)
  : JsError + FetchResponse :=
  inl (TypeError "Failed to fetch").

End Sample.

Lemma reparse_witness :
  map translatedText
      (reparse Sample.lyrics3 PLAIN_TEXT
               (Sample.give Sample.translations (parseLRC Sample.lyrics3)))
  = Sample.translations
  /\ Forall (fun r => translatedText r = [])
            (reparse Sample.lyrics2 PLAIN_TEXT
                     (Sample.give Sample.translations (parseLRC Sample.lyrics2))).
Proof.
  split.
  - refine (eq_trans
              (proj1 (proj2 (proj2
                 (reparse_carries_translations_by_position
                    Sample.lyrics3 PLAIN_TEXT
                    (Sample.give Sample.translations (parseLRC Sample.lyrics3)) _))) _) _).
    + vm_compute. discriminate.
    + vm_compute. reflexivity.
    + vm_compute. reflexivity.
  - refine (proj2 (proj2 (proj2
              (reparse_carries_translations_by_position
                 Sample.lyrics2 PLAIN_TEXT
                 (Sample.give Sample.translations (parseLRC Sample.lyrics2)) _))) _).
    + vm_compute. discriminate.
    + vm_compute. lia.
Defined.

Lemma failed_chunk_witness :
  let st' := Example.run Sample.flaky Example.blocks in
  st_isProcessing st' = false
  /\ List.length (dispatched (st_log st')) = 2
  /\ map translatedText (skipn 10 (st_blocks st')) = [[]; []].
Proof.
  pose proof (failed_chunk_stops_run "zh-CN" "formal" "gemini-2.5-flash" GEMINI
                Example.config Sample.flaky (mkState Example.blocks false []) 1
                (Error "Custom API Error 500: down")) as H.
  cbv zeta in H. destruct H as (Hproc & Hlog & _).
  - vm_compute. lia.
  - intros i Hi. assert (i = 0) by lia. subst i. eexists. vm_compute. reflexivity.
  - vm_compute. reflexivity.
  - split; [exact Hproc|]. split; vm_compute; reflexivity.
Defined.

(** A run over segments that already carry translations, the first
    chunk failing: the segments keep those translations, they are not
    empty. *)
Lemma failed_rerun_keeps_old_translations :
  let old := Sample.give Sample.translations (parseLRC Sample.lyrics3) in
  let st' := Example.run Example.down old in
  map translatedText old = Sample.translations
  /\ map translatedText (st_blocks st') = Sample.translations
  /\ Forall (fun b => translatedText b <> []) (st_blocks st')
  /\ List.length (dispatched (st_log st')) = 1
  /\ map isTranslating (st_blocks st') = [false; false; false].
Proof. vm_compute. repeat split. repeat constructor; discriminate. Qed.

Lemma successful_chunk_witness :
  exists b,
    nth_error (st_blocks (Example.run Sample.silent Example.blocks)) 3 = Some b
    /\ translatedText b = list_ascii_of_string "d"
    /\ translatedText b <> [].
Proof.
  destruct (successful_chunk_fills_translations "zh-CN" "formal" "gemini-2.5-flash"
              GEMINI Example.config Sample.silent (mkState Example.blocks false []) 0
              (map (fun _ => []) (firstn 10 Example.words)))
    with (idx := 3)
         (b0 := mkBlock 4 placeholder_time placeholder_time "d" [] false)
    as (b & Hb & Ht & Hne).
  - vm_compute. repeat constructor; discriminate.
  - vm_compute. lia.
  - intros i Hi. lia.
  - vm_compute. reflexivity.
  - vm_compute. lia.
  - vm_compute. reflexivity.
  - exists b. split; [exact Hb|]. split; [|exact Hne].
    rewrite Ht. vm_compute. reflexivity.
Defined.

Lemma missing_config_witness :
  translateBatch Sample.no_parse Sample.answer Sample.offline Sample.custom_request
  = Some ([EvWarnFailed 1 missing_config_error; EvWait 1000;
           EvWarnFailed 2 missing_config_error; EvWait 2000;
           EvWarnFailed 3 missing_config_error],
          inl missing_config_error).
Proof.
  exact (missing_config_is_retried_then_thrown Sample.no_parse Sample.answer
           Sample.offline Sample.custom_request eq_refl eq_refl).
Defined.

(** The component's default settings with the custom provider: the
    call waits 1000 and 2000 milliseconds and fails three times before
    it throws; no request is sent. *)
Lemma missing_config_backs_off :
  exists trace,
    translateBatch Sample.no_parse Sample.answer Sample.offline Sample.custom_request
    = Some (trace, inl missing_config_error)
    /\ waits trace = [1000; 2000]
    /\ List.length (failures trace) = 3
    /\ provider_calls trace = [].
Proof. eexists. vm_compute. repeat split. Qed.



Lemma lyric_lines_witness :
  split_on LF (stringifyLRC (parseLRC Sample.lyric_lines) DUAL_SRC_TRANS)
  = map list_ascii_of_string
        ["[00:12.19]La la"; "[00:12.19]La la"; "[00:17.50]End"; "[00:17.50]End"].
Proof.
  refine (eq_trans
            (proj1 (stringifyLRC_dual_two_tagged_lines
                      (parseLRC Sample.lyric_lines) DUAL_SRC_TRANS _ _ _)) _).
  - discriminate.
  - vm_compute. discriminate.
  - vm_compute. repeat constructor; intro H; cbn in H; intuition discriminate.
  - vm_compute. reflexivity.
Defined.

(** A lyric line whose translation the provider returns in two
    pieces. *)
Module Lyric.

Definition line : str := "[00:01.00]Hello".

Definition blocks : list SubtitleBlock := parseLRC line.

(** The response: a [translations] array of two strings for the one
    text sent. *)
Definition text : str := Sample.response_text [Sample.quoted "Bon"; Sample.quoted "jour"].

Definition value : json :=
  JObj [("translations" : str, JArr [JStr "Bon"; JStr "jour"])].

Definition parse (s : str) : JsError + json :=
  if str_eqb s text then inr value
  else inl (mkError "SyntaxError" "Unexpected token").

Definition answer (k : nat) (req : TranslationRequest) : JsError + option str :=
  inr (Some text).

(** The [translateBatch] call of the driver with this provider: the
    string it resolves with, or the error it rejects with. *)
Definition call (i : nat) (req : TranslationRequest) : JsError + list str :=
  match translateBatch parse answer Sample.offline req with
  | Some (_, inr [JStr s]) => inr [s]
  | Some (_, inl e) => inl e
  | _ => inl (Error "Unexpected error in translation loop")
  end.

End Lyric.

(** C8 (the code departs from it).  One lyric line, translated by a
    provider that returns the translation in two pieces:
    [translateBatch] merges the pieces with a line feed, the driver
    stores the two-line translation, and the dual export of that one
    segment has three lines, of which the second carries no time tag;
    a lyric parser reading the export back finds two segments and
    loses that line. *)
Theorem merged_translation_leaves_lyric_line_untagged :
  let st' := Example.run Lyric.call Lyric.blocks in
  let exported := stringifyLRC (st_blocks st') DUAL_TRANS_SRC in
  let lines := split_on LF exported in
  map originalText Lyric.blocks = [list_ascii_of_string "Hello"]
  /\ map (fun req =>
            option_map snd
              (translateBatch Lyric.parse Lyric.answer Sample.offline req))
         (dispatched (st_log st'))
     = [Some (inr [JStr ("Bon" ++ nl ++ "jour")])]
  /\ map translatedText (st_blocks st') = ["Bon" ++ nl ++ "jour"]
  /\ lines = map list_ascii_of_string ["[00:01.00]Bon"; "jour"; "[00:01.00]Hello"]
  /\ List.length lines = 3 /\ List.length (st_blocks st') = 1
  /\ starts_with "[" (nth 1 lines []) = false
  /\ map originalText (parseLRC exported)
     = map list_ascii_of_string ["Bon"; "Hello"].
Proof. vm_compute. repeat split. Qed.


(* ================================================================== *)
(** * Further properties of [translateBatch] *)
(* ================================================================== *)

Section TranslateBatchMore.

Variable JSON_parse : str -> JsError + json.
Variable generateContent : nat -> TranslationRequest -> JsError + option str.
Variable fetch : nat -> str -> TranslationRequest -> JsError + FetchResponse.

Local Abbreviation body_of' := (try_body JSON_parse generateContent fetch).
Local Abbreviation call' := (translateBatch JSON_parse generateContent fetch).

Lemma validate_aligned (req : TranslationRequest) (jsonText : json)
    (evs : list Event) (result : list json) :
  validate JSON_parse req jsonText = (evs, inr result) ->
  List.length result = List.length (texts req).
Proof.
  unfold validate.
  destruct jsonText; try discriminate.
  destruct (JSON_parse _) as [e|parsed]; [discriminate|].
  destruct parsed; try discriminate; cbn [prop].
  destruct (assoc _ _) as [[| | | |translations|]|]; try discriminate.
  destruct (Nat.eqb_spec (List.length (texts req)) 1) as [H1|H1]; cbn [andb].
  - destruct (1 <? List.length translations)%nat.
    + destruct (array_join nl translations); [|discriminate].
      intros [= _ <-]. now rewrite H1.
    + destruct (Nat.eqb_spec (List.length translations) (List.length (texts req)));
        cbn [negb]; [|discriminate].
      now intros [= _ <-].
  - destruct (Nat.eqb_spec (List.length translations) (List.length (texts req)));
      cbn [negb]; [|discriminate].
    now intros [= _ <-].
Qed.

Lemma try_body_aligned (req : TranslationRequest) (k : nat) (result : list json) :
  snd (body_of' req k) = inr result ->
  List.length result = List.length (texts req).
Proof.
  unfold try_body.
  destruct (fetch_jsonText _ _ _ req k) as [evs [e|jsonText]]; [discriminate|].
  destruct (validate JSON_parse req jsonText) as [evs' r] eqn:E.
  cbn [snd]. intros ->. eapply validate_aligned; eauto.
Qed.

(** X1.  Whatever the provider answers, a call that returns returns
    exactly as many entries as it was given texts. *)
Theorem translateBatch_result_aligned (req : TranslationRequest)
    (trace : list Event) (result : list json) :
  call' req = Some (trace, inr result) ->
  List.length result = List.length (texts req).
Proof.
  rewrite translateBatch_unrolled.
  destruct (body_of' req 0) as [ev0 [e0|r0]] eqn:B0.
  2:{ intros [= _ <-]. apply (try_body_aligned req 0). now rewrite B0. }
  destruct (body_of' req 1) as [ev1 [e1|r1]] eqn:B1.
  2:{ intros [= _ <-]. apply (try_body_aligned req 1). now rewrite B1. }
  destruct (body_of' req 2) as [ev2 [e2|r2]] eqn:B2; [discriminate|].
  intros [= _ <-]. apply (try_body_aligned req 2). now rewrite B2.
Qed.

(** The request attempt [k] sends, if it sends one. *)
Definition request_event (req : TranslationRequest) (k : nat) : list Event :=
  match provider req with
  | GEMINI => [EvGenerateContent k]
  | CUSTOM =>
      match customConfig req with
      | Some cfg =>
          if Js.truthy (CustomLLMConfig.baseUrl cfg)
             && Js.truthy (CustomLLMConfig.apiKey cfg)
          then [EvFetch k (Fence.strip_trailing_slashes (CustomLLMConfig.baseUrl cfg)
                           ++ "/chat/completions")]
          else []
      | None => []
      end
  end.

Lemma provider_calls_app (a b : list Event) :
  provider_calls (a ++ b) = provider_calls a ++ provider_calls b.
Proof.
  induction a as [|ev a IH]; [reflexivity|].
  destruct ev; cbn; now rewrite ?IH.
Qed.

Lemma validate_no_calls (req : TranslationRequest) (jsonText : json) :
  provider_calls (fst (validate JSON_parse req jsonText)) = [].
Proof.
  unfold validate.
  destruct jsonText; try reflexivity.
  destruct (JSON_parse _) as [e|parsed]; [reflexivity|].
  destruct parsed; try reflexivity; cbn [prop].
  destruct (assoc _ _) as [[| | | |translations|]|]; try reflexivity.
  destruct (_ && _); [reflexivity|]. destruct (negb _); reflexivity.
Qed.

Lemma try_body_calls (req : TranslationRequest) (k : nat) :
  provider_calls (fst (body_of' req k)) = request_event req k.
Proof.
  unfold try_body, request_event.
  assert (Hv : forall evs j,
             provider_calls
               (fst (let (evs', r) := validate JSON_parse req j in (evs ++ evs', r)))
             = provider_calls evs).
  { intros evs j. pose proof (validate_no_calls req j) as H.
    destruct (validate JSON_parse req j) as [evs' r]. cbn [fst] in *.
    now rewrite provider_calls_app, H, app_nil_r. }
  unfold fetch_jsonText. destruct (provider req).
  - destruct (generateContent k req) as [e|text]; [reflexivity|]. now rewrite Hv.
  - unfold missing_config. destruct (customConfig req) as [cfg|]; [|reflexivity].
    destruct (Js.truthy (CustomLLMConfig.baseUrl cfg)); cbn [negb orb andb];
      [|reflexivity].
    destruct (Js.truthy (CustomLLMConfig.apiKey cfg)); cbn [negb]; [|reflexivity].
    destruct (fetch k _ req) as [e|response]; [reflexivity|].
    destruct (negb (ok response)).
    { destruct (body response); reflexivity. }
    destruct (response_json _ _) as [e|data]; [reflexivity|].
    destruct (choice_content data) as [e|content]; [reflexivity|].
    destruct (negb (Json.truthy content)); [reflexivity|].
    destruct content; now rewrite Hv.
Qed.

(** X2.  A call sends one request per attempt, in attempt order, at
    most three in all, each to the provider the request names (the
    SDK call for the managed provider, a [fetch] of
    [baseUrl/chat/completions] for the custom one), and none at all
    when the custom configuration is missing. *)
Theorem translateBatch_requests (req : TranslationRequest) :
  exists trace outcome,
    call' req = Some (trace, outcome)
    /\ attempts_made trace outcome <= 3
    /\ provider_calls trace
       = flat_map (request_event req) (seq 0 (attempts_made trace outcome)).
Proof.
  rewrite translateBatch_unrolled.
  pose proof (try_body_calls req 0) as C0.
  pose proof (try_body_calls req 1) as C1.
  pose proof (try_body_calls req 2) as C2.
  pose proof (try_body_quiet JSON_parse generateContent fetch req 0) as [_ F0].
  pose proof (try_body_quiet JSON_parse generateContent fetch req 1) as [_ F1].
  pose proof (try_body_quiet JSON_parse generateContent fetch req 2) as [_ F2].
  destruct (body_of' req 0) as [ev0 [e0|r0]];
    [destruct (body_of' req 1) as [ev1 [e1|r1]];
     [destruct (body_of' req 2) as [ev2 [e2|r2]]|]|];
    cbn [fst] in *;
    (do 2 eexists; split; [reflexivity|]; unfold attempts_made;
     rewrite ?failures_app, ?provider_calls_app, ?F0, ?F1, ?F2, ?C0, ?C1, ?C2;
     cbn [failures provider_calls app List.length Nat.add seq flat_map];
     rewrite ?app_nil_r; split; [lia|reflexivity]).
Qed.

End TranslateBatchMore.

(** X3.  The endpoint is built from the base URL without its trailing
    slashes: what is removed is a run of slashes at the end, and what
    is kept does not end with a slash. *)
Theorem strip_trailing_slashes_spec (baseUrl : str) :
  exists slashes,
    baseUrl = Fence.strip_trailing_slashes baseUrl ++ slashes
    /\ Forall (fun c => c = "/"%char) slashes
    /\ forall kept c, Fence.strip_trailing_slashes baseUrl = kept ++ [c] -> c <> "/"%char.
Proof.
  unfold Fence.strip_trailing_slashes.
  destruct (drop_while_suffix (Ascii.eqb "/") (rev baseUrl)) as (a & Ha & Hall).
  exists (rev a). split; [|split].
  - rewrite <- rev_app_distr, <- Ha. now rewrite rev_involutive.
  - apply Forall_rev. eapply Forall_impl; [|exact Hall].
    intros c Hc. symmetry. now apply Ascii.eqb_eq.
  - intros kept c Hk.
    assert (Hd : drop_while (Ascii.eqb "/") (rev baseUrl) = c :: rev kept).
    { rewrite <- (rev_involutive (drop_while _ _)), Hk, rev_app_distr. reflexivity. }
    clear - Hd. induction (rev baseUrl) as [|x l IH]; cbn [drop_while] in Hd;
      [discriminate|].
    destruct (Ascii.eqb_spec "/" x) as [<-|Hx]; [now apply IH|].
    inversion Hd; subst. congruence.
Qed.

(* ================================================================== *)
(** * The code-fence clean-up of [translateBatch] *)
(* ================================================================== *)

Lemma includes_unfold (p s : str) :
  includes p s
  = starts_with p s || match s with [] => false | _ :: s' => includes p s' end.
Proof. destruct s; reflexivity. Qed.

Lemma starts_with_app_l (p q s : str) :
  starts_with (p ++ q) s = true -> starts_with p s = true.
Proof.
  revert s; induction p as [|x p IH]; intros s H; [reflexivity|].
  destruct s as [|y s]; [discriminate|]. cbn [app starts_with] in *.
  apply andb_true_iff in H. destruct H as [-> H]. now apply IH.
Qed.

(** No fence starts where no run of three backquotes starts, here or
    one character on. *)
Lemma fence_none (s : str) :
  starts_with "```" s = false -> starts_with "```" (tl s) = false ->
  Fence.fence s = None.
Proof.
  intros H0 H1. unfold Fence.fence.
  destruct (starts_with "```json" s) eqn:E.
  - apply (starts_with_app_l "```" "json") in E. congruence.
  - destruct s as [|c s]; [reflexivity|]. cbn [tl] in H1.
    change (starts_with (nl ++ "```") (c :: s))
      with (Ascii.eqb LF c && starts_with "```" s).
    now rewrite H1, andb_false_r, H0.
Qed.

Lemma remove_all_fence_free (s : str) :
  includes "```" s = false -> Fence.remove_all Fence.fence 0 s = s.
Proof.
  induction s as [|c s IH]; intro H; [reflexivity|].
  rewrite includes_unfold in H. apply orb_false_iff in H. destruct H as [H0 H].
  cbn [Fence.remove_all]. rewrite fence_none.
  - now rewrite IH.
  - exact H0.
  - cbn [tl]. rewrite includes_unfold in H. apply orb_false_iff in H. now destruct H.
Qed.

Lemma starts_with_ticks_app (x t : str) :
  starts_with "```" x = false -> starts_with "```" (x ++ LF :: t) = false.
Proof.
  destruct x as [|a [|b [|c x]]]; intro H; try reflexivity.
  - cbn [app].
    change (starts_with "```" (a :: LF :: t))
      with (Ascii.eqb "`" a && (Ascii.eqb "`" LF && starts_with "`" t)).
    change (Ascii.eqb "`" LF) with false. now rewrite andb_false_r.
  - cbn [app].
    change (starts_with "```" (a :: b :: LF :: t))
      with (Ascii.eqb "`" a && (Ascii.eqb "`" b && (Ascii.eqb "`" LF && true))).
    change (Ascii.eqb "`" LF) with false. now rewrite !andb_false_r.
  - cbn [app].
    change (starts_with "```" (a :: b :: c :: x ++ LF :: t))
      with (Ascii.eqb "`" a && (Ascii.eqb "`" b && (Ascii.eqb "`" c && true))).
    exact H.
Qed.

Lemma remove_closing_fence (body : str) :
  includes "```" body = false ->
  Fence.remove_all Fence.fence 0 (body ++ LF :: "```") = body.
Proof.
  induction body as [|c body IH]; intro H; [reflexivity|].
  rewrite includes_unfold in H. apply orb_false_iff in H. destruct H as [H0 H].
  pose proof H as H'. rewrite includes_unfold in H'. apply orb_false_iff in H'.
  destruct H' as [H1 _].
  cbn [app Fence.remove_all]. rewrite fence_none.
  - now rewrite IH.
  - change (c :: body ++ LF :: "```") with ((c :: body) ++ LF :: "```").
    now apply starts_with_ticks_app.
  - cbn [tl]. now apply starts_with_ticks_app.
Qed.

Lemma remove_opening_fence (r : str) :
  Fence.remove_all Fence.fence 0 ("```json" ++ LF :: r)
  = Fence.remove_all Fence.fence 0 r.
Proof. reflexivity. Qed.

Lemma clean_fenced (body : str) :
  includes "```" body = false ->
  Fence.remove_all Fence.fence 0 ("```json" ++ nl ++ body ++ nl ++ "```") = body
  /\ Fence.remove_all Fence.fence 0 body = body.
Proof.
  intro H. split; [|now apply remove_all_fence_free].
  change ("```json" ++ nl ++ body ++ nl ++ "```")
    with ("```json" ++ LF :: body ++ LF :: "```").
  rewrite remove_opening_fence. now apply remove_closing_fence.
Qed.

(** X4.  A response wrapped in a json code fence is validated as the
    bare response is: when the body holds no run of three backquotes,
    the clean-up gives the same text for both, so [JSON.parse] and
    the checks after it see the same input and the attempt has the
    same outcome. *)
Theorem fenced_response_is_unwrapped (JSON_parse : str -> JsError + json)
    (req : TranslationRequest) (body : str) :
  includes "```" body = false ->
  let fenced := "```json" ++ nl ++ body ++ nl ++ "```" in
  trim (Fence.remove_all Fence.fence 0 fenced) = trim body
  /\ validate JSON_parse req (JStr fenced) = validate JSON_parse req (JStr body).
Proof.
  intros H fenced. destruct (clean_fenced body H) as [Hf Hb]. fold fenced in Hf.
  split; [now rewrite Hf|].
  unfold validate. now rewrite Hf, Hb.
Qed.

(* ================================================================== *)
(** * Further properties of the translation driver *)
(* ================================================================== *)

(** What a segment holds apart from its translation and its flag. *)
Definition source_fields (b : SubtitleBlock) : nat * str * str * str :=
  (id b, startTime b, endTime b, originalText b).

Lemma map_map_index {A B C} (g : B -> C) (h : A -> C) (f : A -> nat -> B)
    (l : list A) (k : nat) :
  (forall x i, g (f x i) = h x) -> map g (map_index f l k) = map h l.
Proof.
  intro H. revert k; induction l as [|x l IH]; intro k; cbn; [reflexivity|].
  now rewrite H, IH.
Qed.

Lemma firstn_plus {A} (a b : nat) (l : list A) :
  firstn (a + b) l = firstn a l ++ firstn b (skipn a l).
Proof.
  revert l; induction a as [|a IH]; intro l; [reflexivity|].
  destruct l as [|x l]; cbn [Nat.add firstn skipn app].
  - now rewrite firstn_nil.
  - now rewrite IH.
Qed.

Section DriverMore.

Variables targetLang selectedTone geminiModel : str.
Variable provider_setting : LLMProvider.
Variable customConfig_setting : CustomLLMConfig.t.
Variable translateBatch_call : nat -> TranslationRequest -> JsError + list str.

Local Abbreviation start' :=
  (startTranslation targetLang selectedTone geminiModel provider_setting
                    customConfig_setting translateBatch_call).
Local Abbreviation request_of' :=
  (request_of targetLang selectedTone geminiModel provider_setting customConfig_setting).
Local Abbreviation outcome' :=
  (chunk_outcome targetLang selectedTone geminiModel provider_setting
                 customConfig_setting translateBatch_call).
Local Abbreviation translated' :=
  (translated_block targetLang selectedTone geminiModel provider_setting
                    customConfig_setting translateBatch_call).
Local Abbreviation first_failure' :=
  (first_failure targetLang selectedTone geminiModel provider_setting
                 customConfig_setting translateBatch_call).
Local Abbreviation closed_form' :=
  (startTranslation_closed_form targetLang selectedTone geminiModel provider_setting
                                customConfig_setting translateBatch_call).

Lemma translated_block_source (blocks : list SubtitleBlock) (idx : nat)
    (b0 : SubtitleBlock) :
  source_fields (translated' blocks idx b0) = source_fields b0.
Proof.
  unfold translated_block. destruct (outcome' blocks _); reflexivity.
Qed.

Lemma run_keeps_source (st : AppState) :
  map source_fields (st_blocks (start' st)) = map source_fields (st_blocks st).
Proof.
  destruct (st_blocks st) as [|b bs] eqn:E.
  - unfold startTranslation. rewrite E. cbn. now rewrite E.
  - rewrite <- E. rewrite closed_form' by (rewrite E; discriminate).
    destruct (first_failure' _ _) as [[j e]|]; cbn [st_blocks];
      unfold failed_state, progress_state; apply map_map_index;
      intros x i; destruct (i <? _)%nat;
      try apply translated_block_source; reflexivity.
Qed.

(** X5.  A run, however it ends, leaves the number of segments and
    every segment's identifier, time stamps and original text as they
    were: it writes translations and flags only. *)
Theorem startTranslation_keeps_source (st : AppState) :
  map source_fields (st_blocks (start' st)) = map source_fields (st_blocks st)
  /\ List.length (st_blocks (start' st)) = List.length (st_blocks st).
Proof.
  pose proof (run_keeps_source st) as H.
  split; [exact H|].
  rewrite <- (length_map source_fields), H. apply length_map.
Qed.

Lemma run_clears_flags (st : AppState) :
  st_blocks st <> [] ->
  st_isProcessing (start' st) = false
  /\ Forall (fun b => isTranslating b = false) (st_blocks (start' st)).
Proof.
  intro Hne. rewrite (closed_form' st Hne).
  set (blocks := st_blocks st). set (total := totalBatches_of (List.length blocks)).
  destruct (first_failure' blocks (seq 0 total)) as [[j e]|] eqn:Hf; cbn [st_isProcessing st_blocks].
  - split; [reflexivity|]. apply first_failure_some in Hf.
    destruct Hf as (Hj & _ & Hprev).
    apply Forall_forall. intros b Hb. apply In_nth_error in Hb. destruct Hb as [idx Hb].
    unfold failed_state in Hb. rewrite nth_error_map_index in Hb.
    destruct (nth_error blocks idx) as [b0|]; [|discriminate].
    cbn [option_map Nat.add] in Hb. inversion Hb; subst b.
    destruct (Nat.ltb_spec idx (chunk_start j)) as [Hlt|_]; [|reflexivity].
    unfold translated_block.
    destruct (Hprev (idx / BATCH_SIZE)) as [tr ->]; [|reflexivity].
    split; [lia|]. apply Nat.Div0.div_lt_upper_bound. unfold chunk_start in Hlt. lia.
  - split; [reflexivity|].
    pose proof (proj1 (first_failure_none _ _ _ _ _ _ blocks total 0) Hf) as Hall.
    apply Forall_forall. intros b Hb. apply In_nth_error in Hb. destruct Hb as [idx Hb].
    unfold progress_state in Hb. rewrite nth_error_map_index in Hb.
    destruct (nth_error blocks idx) as [b0|] eqn:Hb0; [|discriminate].
    cbn [option_map Nat.add] in Hb. inversion Hb; subst b.
    assert (Hidx : idx < List.length blocks) by (apply nth_error_Some; congruence).
    assert (Hq : idx / BATCH_SIZE < total).
    { apply totalBatches_spec. unfold chunk_start.
      pose proof (Nat.Div0.mul_div_le idx BATCH_SIZE). lia. }
    assert (Hlt : idx < chunk_start total).
    { unfold chunk_start. unfold BATCH_SIZE in *.
      pose proof (Nat.div_mod_eq idx 10).
      pose proof (Nat.mod_upper_bound idx 10). lia. }
    destruct (Nat.ltb_spec idx (chunk_start total)) as [_|Hge]; [|lia].
    unfold translated_block.
    destruct (Hall (idx / BATCH_SIZE)) as [tr ->]; [lia|reflexivity].
Qed.

(** X6.  After a run over a non-empty list the processing flag and
    every segment's [isTranslating] flag are false, whatever the flags
    were before and whether the run succeeded or stopped at a failing
    chunk. *)
Theorem startTranslation_clears_flags (st : AppState) :
  st_blocks st <> [] ->
  st_isProcessing (start' st) = false
  /\ Forall (fun b => isTranslating b = false) (st_blocks (start' st)).
Proof. apply run_clears_flags. Qed.

(** X7.  When every call succeeds, the run dispatches one call per
    chunk, [ceil(n / 10)] in all and in order, reports no failure, and
    leaves every segment with the string received at its position in
    its chunk, or with its original text when that string is empty. *)
Theorem startTranslation_all_chunks_succeed (st : AppState) :
  let blocks := st_blocks st in
  let total := totalBatches_of (List.length blocks) in
  blocks <> [] ->
  (forall i, i < total -> exists tr, translateBatch_call i (request_of' blocks i) = inr tr) ->
  st_log (start' st)
  = st_log st ++ map (fun i => EvDispatch (request_of' blocks i)) (seq 0 total)
  /\ forall idx b0, nth_error blocks idx = Some b0 ->
       exists tr,
         translateBatch_call (idx / BATCH_SIZE) (request_of' blocks (idx / BATCH_SIZE))
         = inr tr
         /\ nth_error (st_blocks (start' st)) idx
            = Some (mkBlock (id b0) (startTime b0) (endTime b0) (originalText b0)
                            (or_else (nth (idx mod BATCH_SIZE) tr []) (originalText b0))
                            false).
Proof.
  intros blocks total Hne Hall.
  assert (Hrange : forall i, i < total -> chunk_start i < List.length blocks)
    by (intros i Hi; now apply totalBatches_spec).
  assert (Hnone : first_failure' blocks (seq 0 total) = None).
  { apply first_failure_none. intros i Hi.
    rewrite chunk_outcome_in_range by (apply Hrange; lia). apply Hall. lia. }
  rewrite (closed_form' st Hne). fold blocks. fold total. rewrite Hnone.
  cbn [st_log st_blocks]. split.
  - rewrite flat_map_chunk_events; [reflexivity|]. intros i Hi. apply Hrange. lia.
  - intros idx b0 Hb.
    assert (Hidx : idx < List.length blocks) by (apply nth_error_Some; congruence).
    assert (Hq : idx / BATCH_SIZE < total).
    { apply totalBatches_spec. unfold chunk_start.
      pose proof (Nat.Div0.mul_div_le idx BATCH_SIZE). lia. }
    destruct (Hall _ Hq) as [tr Htr]. exists tr. split; [exact Htr|].
    unfold progress_state. rewrite nth_error_map_index, Hb. cbn [option_map Nat.add].
    assert (Hlt : idx < chunk_start total).
    { unfold chunk_start. unfold BATCH_SIZE in *.
      pose proof (Nat.div_mod_eq idx 10).
      pose proof (Nat.mod_upper_bound idx 10). lia. }
    destruct (Nat.ltb_spec idx (chunk_start total)) as [_|Hge]; [|lia].
    unfold translated_block.
    rewrite chunk_outcome_in_range by (apply Hrange; exact Hq).
    now rewrite Htr.
Qed.

Lemma chunk_texts (blocks : list SubtitleBlock) (i : nat) :
  texts (request_of' blocks i)
  = firstn BATCH_SIZE (skipn (chunk_start i) (map originalText blocks)).
Proof.
  unfold request_of, chunk_request, slice, chunk_end. cbn [texts].
  rewrite <- firstn_map, <- skipn_map.
  set (l := skipn (chunk_start i) (map originalText blocks)).
  assert (Hl : List.length l = List.length blocks - chunk_start i)
    by (unfold l; now rewrite length_skipn, length_map).
  destruct (Nat.le_gt_cases (chunk_start i + BATCH_SIZE) (List.length blocks)) as [H|H].
  - rewrite Nat.min_l by assumption. f_equal. lia.
  - rewrite Nat.min_r by lia.
    rewrite (firstn_all2 l) by lia. rewrite (firstn_all2 l); [reflexivity|].
    unfold BATCH_SIZE in *. lia.
Qed.

Lemma chunks_prefix (l : list str) (k : nat) :
  concat (map (fun i => firstn BATCH_SIZE (skipn (chunk_start i) l)) (seq 0 k))
  = firstn (chunk_start k) l.
Proof.
  induction k as [|k IH]; [reflexivity|].
  rewrite seq_S, map_app, concat_app, IH. cbn [map concat Nat.add].
  rewrite app_nil_r, <- firstn_plus. f_equal. unfold chunk_start. lia.
Qed.

(** X8.  The chunks partition the segment list: the texts of the
    requests for chunks [0 .. ceil(n / 10) - 1], put end to end, are
    the original texts of the segments in order, and every such
    request carries between one and ten texts. *)
Theorem chunks_partition_segments (blocks : list SubtitleBlock) :
  let total := totalBatches_of (List.length blocks) in
  concat (map (fun i => texts (request_of' blocks i)) (seq 0 total))
  = map originalText blocks
  /\ forall i, i < total ->
       1 <= List.length (texts (request_of' blocks i)) <= BATCH_SIZE.
Proof.
  intro total. split.
  - rewrite (map_ext _ (fun i => firstn BATCH_SIZE
                                   (skipn (chunk_start i) (map originalText blocks))))
      by (intro i; apply chunk_texts).
    rewrite chunks_prefix. apply firstn_all2. rewrite length_map.
    unfold total, totalBatches_of, chunk_start, BATCH_SIZE. cbn [Nat.sub].
    pose proof (Nat.div_mod_eq (List.length blocks + 9) 10).
    pose proof (Nat.mod_upper_bound (List.length blocks + 9) 10). lia.
  - intros i Hi. apply totalBatches_spec in Hi.
    rewrite chunk_texts, length_firstn, length_skipn, length_map.
    unfold BATCH_SIZE in *. lia.
Qed.

(** X9.  A translation once set is never lost: over segments with
    non-empty original texts, a segment whose [translatedText] is not
    empty when a run starts does not have an empty one when the run
    ends, whatever the provider returned. *)
Theorem startTranslation_never_empties (st : AppState) (idx : nat)
    (b0 b : SubtitleBlock) :
  Forall (fun x => originalText x <> []) (st_blocks st) ->
  nth_error (st_blocks st) idx = Some b0 ->
  translatedText b0 <> [] ->
  nth_error (st_blocks (start' st)) idx = Some b ->
  translatedText b <> [].
Proof.
  intros Horig Hb0 Ht Hb.
  assert (Hne : st_blocks st <> []) by (intro E; rewrite E in Hb0; destruct idx; discriminate).
  assert (Ho : originalText b0 <> []).
  { rewrite Forall_forall in Horig. apply Horig. eapply nth_error_In; eauto. }
  assert (Htb : translatedText (translated' (st_blocks st) idx b0) <> []).
  { unfold translated_block. destruct (outcome' _ _) as [e|tr]; [exact Ht|].
    cbn [translatedText]. unfold or_else.
    destruct (nth (idx mod BATCH_SIZE) tr []); cbn; [exact Ho|discriminate]. }
  rewrite (closed_form' st Hne) in Hb.
  destruct (first_failure' _ _) as [[j e]|]; cbn [st_blocks] in Hb;
    unfold failed_state, progress_state in Hb;
    rewrite nth_error_map_index, Hb0 in Hb; cbn [option_map Nat.add] in Hb;
    inversion Hb; subst b;
    destruct (idx <? _)%nat; assumption.
Qed.

End DriverMore.

(* ================================================================== *)
(** * Further properties of the parsers and of the reparse effect *)
(* ================================================================== *)

Lemma parseLRC_loop_ids (lines : list str) (k : nat) :
  map id (parseLRC_loop lines k) = seq k (List.length (parseLRC_loop lines k)).
Proof.
  revert k; induction lines as [|l ls IH]; intro k; cbn [parseLRC_loop];
    [reflexivity|].
  destruct (Re.lrc_line l) as [[t r]|]; [|apply IH].
  destruct (Js.truthy (trim r)); [|apply IH].
  cbn. now rewrite IH.
Qed.

(** X10.  The subtitle and lyric parsers number the segments they keep
    1, 2, ..., N in document order: dropped blocks and lines use up no
    identifier. *)
Theorem timed_parsers_number_segments_in_order (content : str) :
  map id (parseSRT content) = seq 1 (List.length (parseSRT content))
  /\ map id (parseLRC content) = seq 1 (List.length (parseLRC content)).
Proof. split; [apply parseSRT_loop_ids|apply parseLRC_loop_ids]. Qed.

(** X11.  Every segment [parseSRT] returns has two time stamps of the
    form dd:dd:dd,ddd, a text that is not empty, has no white space at
    either end and holds no blank line, no translation and a cleared
    flag. *)
Theorem parseSRT_segment_shape (content : str) :
  Forall (fun b =>
            Re.is_timestamp (startTime b) = true
            /\ Re.is_timestamp (endTime b) = true
            /\ originalText b <> []
            /\ trim (originalText b) = originalText b
            /\ (forall a c, originalText b = a ++ c -> Re.blank_line c = None)
            /\ translatedText b = []
            /\ isTranslating b = false)
         (parseSRT content).
Proof.
  eapply Forall_impl; [|apply parseSRT_segments].
  intros b (Hs & He & Hne & Htrim & Hfree & Ht & Hf).
  repeat split; try assumption. now apply trim_id.
Qed.

Lemma carry_own_translations (pre l : list SubtitleBlock) :
  map_index (fun b i => set_translatedText (nth i (map translatedText (pre ++ l)) []) b)
            l (List.length pre) = l.
Proof.
  revert pre; induction l as [|b l IH]; intro pre; [reflexivity|].
  cbn [map_index]. f_equal.
  - rewrite map_app, app_nth2 by (rewrite length_map; lia).
    rewrite length_map, Nat.sub_diag. cbn. now destruct b.
  - specialize (IH (pre ++ [b])). rewrite <- app_assoc, length_app in IH.
    cbn in IH. rewrite Nat.add_1_r in IH. exact IH.
Qed.

(** X12.  The reparse effect is idempotent: run a second time on the
    list it produced, with the same raw text and content type, it
    leaves that list as it is. *)
Theorem reparse_idempotent (rawText : str) (contentType : ContentType)
    (blocks : list SubtitleBlock) :
  reparse rawText contentType (reparse rawText contentType blocks)
  = reparse rawText contentType blocks.
Proof.
  destruct (negb (Js.truthy rawText)) eqn:Hraw.
  { unfold reparse. now rewrite Hraw. }
  set (N := parse_as contentType rawText).
  set (R := map_index
              (fun b i => set_translatedText (nth i (map translatedText blocks) []) b)
              N 0).
  assert (Hinner : reparse rawText contentType blocks
                   = if (List.length N =? List.length blocks)%nat then R else N).
  { unfold reparse. rewrite Hraw, length_map. reflexivity. }
  rewrite Hinner.
  destruct (Nat.eqb_spec (List.length N) (List.length blocks)) as [Heq|Hne].
  - assert (HR : map translatedText R = map translatedText blocks).
    { apply (carry_translations N (map translatedText blocks) []).
      now rewrite length_map. }
    assert (HlenR : List.length R = List.length N) by apply map_index_length.
    unfold reparse. rewrite Hraw. fold N.
    rewrite length_map, HlenR, Nat.eqb_refl, HR. reflexivity.
  - unfold reparse. rewrite Hraw. fold N. rewrite length_map, Nat.eqb_refl.
    apply (carry_own_translations [] N).
Qed.

(* ================================================================== *)
(** * Lyric segments and their round trip *)
(* ================================================================== *)

(** A time tag as [parseLRC] captures it: dd:dd, alone or followed by
    a dot and two or three digits. *)
Definition is_lrc_time (t : str) : bool :=
  Re.is_mmss (firstn 5 t)
  && match skipn 5 t with
     | [] => true
     | [dot; d1; d2] => Ascii.eqb dot "." && is_digit d1 && is_digit d2
     | [dot; d1; d2; d3] =>
         Ascii.eqb dot "." && is_digit d1 && is_digit d2 && is_digit d3
     | _ => false
     end.

Definition no_terminator (s : str) : Prop :=
  Forall (fun c => is_line_terminator c = false) s.

Lemma is_mmss_length (t : str) : Re.is_mmss t = true -> List.length t = 5.
Proof.
  intro H. do 6 (destruct t as [|? t]; try discriminate H). reflexivity.
Qed.

Lemma cut_at_five (m x : str) :
  List.length m = 5 -> firstn 5 (m ++ x) = m /\ skipn 5 (m ++ x) = x.
Proof.
  intro H. do 6 (destruct m as [|? m]; try discriminate H). split; reflexivity.
Qed.

Lemma digit_not_terminator (c : ascii) :
  is_digit c = true -> is_line_terminator c = false.
Proof.
  intro H. unfold is_line_terminator.
  destruct (Ascii.eqb_spec c LF) as [->|_]; [discriminate|].
  destruct (Ascii.eqb_spec c CR) as [->|_]; [discriminate|reflexivity].
Qed.

Lemma is_mmss_no_terminator (t : str) : Re.is_mmss t = true -> no_terminator t.
Proof.
  intro H. do 6 (destruct t as [|? t]; try discriminate H).
  cbn [Re.is_mmss] in H.
  do 4 (apply andb_true_iff in H; destruct H as [H ?]).
  apply Ascii.eqb_eq in H2. subst.
  repeat (constructor; [first [now apply digit_not_terminator | reflexivity]|]).
  constructor.
Qed.

Lemma lrc_fraction_shape (s frac rest : str) :
  Re.lrc_fraction s = Some (frac, rest) ->
  s = frac ++ "]"%char :: rest
  /\ match frac with
     | [] => true
     | [dot; d1; d2] => Ascii.eqb dot "." && is_digit d1 && is_digit d2
     | [dot; d1; d2; d3] =>
         Ascii.eqb dot "." && is_digit d1 && is_digit d2 && is_digit d3
     | _ => false
     end = true.
Proof.
  unfold Re.lrc_fraction.
  destruct (Re.lrc_fraction3 s) as [[f r]|] eqn:E3.
  - intros [= <- <-]. unfold Re.lrc_fraction3 in E3.
    destruct s as [|dot [|d1 [|d2 [|d3 [|close rest']]]]]; try discriminate.
    destruct (_ && _) eqn:Hc; [|discriminate]. inversion E3; subst.
    apply andb_true_iff in Hc. destruct Hc as [Hc Hclose].
    apply Ascii.eqb_eq in Hclose. subst close. split; [reflexivity|exact Hc].
  - destruct (Re.lrc_fraction2 s) as [[f r]|] eqn:E2.
    + intros [= <- <-]. unfold Re.lrc_fraction2 in E2.
      destruct s as [|dot [|d1 [|d2 [|close rest']]]]; try discriminate.
      destruct (_ && _) eqn:Hc; [|discriminate]. inversion E2; subst.
      apply andb_true_iff in Hc. destruct Hc as [Hc Hclose].
      apply Ascii.eqb_eq in Hclose. subst close. split; [reflexivity|exact Hc].
    + destruct s as [|close rest']; [discriminate|].
      destruct (Ascii.eqb_spec close "]"); [|discriminate].
      intros [= <- <-]. subst. split; reflexivity.
Qed.

Lemma lrc_line_time (line t r : str) :
  Re.lrc_line line = Some (t, r) -> is_lrc_time t = true.
Proof.
  unfold Re.lrc_line. destruct line as [|c r0]; [discriminate|].
  destruct (Ascii.eqb_spec c "["); [|
    destruct c as [[] [] [] [] [] [] [] []]; try discriminate; congruence].
  subst c. generalize (firstn 5 r0) as m. intro m.
  destruct (Re.is_mmss m) eqn:Em; [|discriminate].
  destruct (Re.lrc_fraction (skipn 5 r0)) as [[frac rest]|] eqn:Ef; [|discriminate].
  intros [= <- <-].
  pose proof (is_mmss_length _ Em) as Hlen.
  apply lrc_fraction_shape in Ef. destruct Ef as [_ Hshape].
  unfold is_lrc_time.
  destruct (cut_at_five m frac Hlen) as [-> ->]. rewrite Em. exact Hshape.
Qed.

Lemma lrc_fraction3_not_dot (c : ascii) (s : str) :
  Ascii.eqb c "." = false -> Re.lrc_fraction3 (c :: s) = None.
Proof.
  intro H. unfold Re.lrc_fraction3.
  destruct s as [|? [|? [|? [|? ?]]]]; try reflexivity. now rewrite H.
Qed.

Lemma lrc_fraction2_not_dot (c : ascii) (s : str) :
  Ascii.eqb c "." = false -> Re.lrc_fraction2 (c :: s) = None.
Proof.
  intro H. unfold Re.lrc_fraction2.
  destruct s as [|? [|? [|? ?]]]; try reflexivity. now rewrite H.
Qed.

Lemma lrc_fraction_parses (frac rest : str) :
  match frac with
  | [] => true
  | [dot; d1; d2] => Ascii.eqb dot "." && is_digit d1 && is_digit d2
  | [dot; d1; d2; d3] =>
      Ascii.eqb dot "." && is_digit d1 && is_digit d2 && is_digit d3
  | _ => false
  end = true ->
  Re.lrc_fraction (frac ++ "]"%char :: rest) = Some (frac, rest).
Proof.
  intro H. unfold Re.lrc_fraction.
  destruct frac as [|dot [|d1 [|d2 [|d3 [|x frac]]]]]; try discriminate H.
  - cbn [app]. rewrite lrc_fraction3_not_dot, lrc_fraction2_not_dot by reflexivity.
    reflexivity.
  - cbn [app].
    assert (H3 : Re.lrc_fraction3 (dot :: d1 :: d2 :: "]"%char :: rest) = None).
    { unfold Re.lrc_fraction3. destruct rest as [|close rest']; [reflexivity|].
      change (is_digit "]") with false.
      now rewrite !andb_false_r. }
    rewrite H3. unfold Re.lrc_fraction2. rewrite H. reflexivity.
  - cbn [app]. unfold Re.lrc_fraction3. rewrite H. reflexivity.
Qed.

Lemma is_lrc_time_parses (t rest : str) :
  is_lrc_time t = true ->
  Re.lrc_line ("["%char :: t ++ "]"%char :: rest)
  = Some (t, take_while (fun c => negb (is_line_terminator c)) rest).
Proof.
  unfold is_lrc_time. intro H. apply andb_true_iff in H. destruct H as [Hm Hf].
  pose proof (is_mmss_length _ Hm) as Hlen.
  pose proof (firstn_skipn 5 t) as Ht.
  revert Hm Hf Hlen Ht.
  generalize (firstn 5 t) as m. generalize (skipn 5 t) as f.
  intros f m Hm Hf Hlen <-.
  unfold Re.lrc_line. rewrite <- app_assoc.
  destruct (cut_at_five m (f ++ "]"%char :: rest) Hlen) as [-> ->]. rewrite Hm.
  rewrite (lrc_fraction_parses f rest Hf). reflexivity.
Qed.

Lemma is_lrc_time_no_terminator (t : str) : is_lrc_time t = true -> no_terminator t.
Proof.
  unfold is_lrc_time. intro H. apply andb_true_iff in H. destruct H as [Hm Hf].
  rewrite <- (firstn_skipn 5 t). apply Forall_app. split.
  - now apply is_mmss_no_terminator.
  - destruct (skipn 5 t) as [|dot [|d1 [|d2 [|d3 [|x f]]]]]; try discriminate Hf.
    + constructor.
    + do 2 (apply andb_true_iff in Hf; destruct Hf as [Hf ?]).
      apply Ascii.eqb_eq in Hf. subst.
      repeat (constructor; [first [now apply digit_not_terminator | reflexivity]|]).
      constructor.
    + do 3 (apply andb_true_iff in Hf; destruct Hf as [Hf ?]).
      apply Ascii.eqb_eq in Hf. subst.
      repeat (constructor; [first [now apply digit_not_terminator | reflexivity]|]).
      constructor.
Qed.

Lemma take_while_no_terminator (s : str) :
  no_terminator (take_while (fun c => negb (is_line_terminator c)) s).
Proof.
  induction s as [|c s IH]; cbn [take_while]; [constructor|].
  destruct (is_line_terminator c) eqn:E; cbn [negb]; constructor; assumption.
Qed.

Lemma take_while_all (s : str) :
  no_terminator s -> take_while (fun c => negb (is_line_terminator c)) s = s.
Proof.
  induction 1 as [|c s Hc Hs IH]; cbn [take_while]; [reflexivity|].
  now rewrite Hc, IH.
Qed.

Lemma trim_no_terminator (s : str) : no_terminator s -> no_terminator (trim s).
Proof.
  unfold no_terminator. intro H.
  destruct (trim_substring s) as (a & b & Hab). rewrite Hab in H.
  apply Forall_app in H. destruct H as [_ H].
  apply Forall_app in H. now destruct H.
Qed.

(** A segment as [parseLRC] produces it. *)
Definition lrc_segment (b : SubtitleBlock) : Prop :=
  is_lrc_time (startTime b) = true
  /\ endTime b = []
  /\ originalText b <> []
  /\ trimmed (originalText b)
  /\ no_terminator (originalText b)
  /\ translatedText b = []
  /\ isTranslating b = false.

Lemma parseLRC_loop_segments (lines : list str) (k : nat) :
  Forall lrc_segment (parseLRC_loop lines k).
Proof.
  revert k; induction lines as [|l ls IH]; intro k; cbn [parseLRC_loop];
    [constructor|].
  destruct (Re.lrc_line l) as [[t r]|] eqn:E; [|apply IH].
  destruct (Js.truthy (trim r)) eqn:Et; [|apply IH].
  constructor; [|apply IH].
  unfold lrc_segment. cbn [startTime endTime originalText translatedText isTranslating].
  split; [eapply lrc_line_time; eauto|]. split; [reflexivity|].
  split; [now apply truthy_nonempty|]. split; [apply trim_trimmed|].
  split; [|split; reflexivity].
  apply trim_no_terminator.
  unfold Re.lrc_line in E. destruct l as [|c r0]; [discriminate|].
  destruct (Ascii.eqb c "[") eqn:Ec.
  - apply Ascii.eqb_eq in Ec. subst c.
    destruct (Re.is_mmss _); [|discriminate].
    destruct (Re.lrc_fraction _) as [[frac rest]|]; [|discriminate].
    inversion E; subst. apply take_while_no_terminator.
  - destruct c as [[] [] [] [] [] [] [] []]; try discriminate E; discriminate Ec.
Qed.

(** X13.  Every segment [parseLRC] returns has a start tag of the form
    dd:dd, dd:dd.dd or dd:dd.ddd, an empty end time, a text that is
    not empty, has no white space at either end and holds neither a
    line feed nor a carriage return, no translation and a cleared
    flag. *)
Theorem parseLRC_segment_shape (content : str) :
  Forall (fun b =>
            is_lrc_time (startTime b) = true
            /\ endTime b = []
            /\ originalText b <> []
            /\ trim (originalText b) = originalText b
            /\ ~ In LF (originalText b) /\ ~ In CR (originalText b)
            /\ translatedText b = []
            /\ isTranslating b = false)
         (parseLRC content).
Proof.
  eapply Forall_impl; [|apply parseLRC_loop_segments].
  intros b (Hs & He & Hne & Htrim & Hterm & Ht & Hf).
  unfold no_terminator in Hterm. rewrite Forall_forall in Hterm.
  repeat split; try assumption.
  - now apply trim_id.
  - intro Hin. specialize (Hterm _ Hin). discriminate.
  - intro Hin. specialize (Hterm _ Hin). discriminate.
Qed.

(** *** Cutting lyric lines *)

Lemma line_break_none (c : ascii) (s : str) :
  is_line_terminator c = false -> Re.line_break (c :: s) = None.
Proof.
  unfold is_line_terminator. intro H. apply orb_false_iff in H. destruct H as [Hl Hc].
  unfold Re.line_break. destruct s; now rewrite ?Hl, ?Hc.
Qed.

Lemma line_break_LF (s : str) : Re.line_break (LF :: s) = Some 1.
Proof. destruct s; reflexivity. Qed.

Lemma split_lines_app (u v : str) :
  no_terminator u ->
  split_re Re.line_break 0 (u ++ LF :: v) = u :: split_re Re.line_break 0 v.
Proof.
  induction 1 as [|c u Hc Hu IH].
  - cbn [app split_re]. now rewrite line_break_LF.
  - cbn [app split_re]. rewrite line_break_none by assumption.
    now rewrite IH.
Qed.

Lemma split_lines_single (u : str) :
  no_terminator u -> split_re Re.line_break 0 u = [u].
Proof.
  induction 1 as [|c u Hc Hu IH]; [reflexivity|].
  cbn [split_re]. rewrite line_break_none by assumption. now rewrite IH.
Qed.

Lemma split_lines_join (lines : list str) :
  lines <> [] -> Forall no_terminator lines ->
  split_re Re.line_break 0 (join nl lines) = lines.
Proof.
  induction lines as [|l ls IH]; intros Hne Hall; [contradiction|].
  inversion Hall as [|? ? Hl Hls]; subst.
  destruct ls as [|l' ls].
  - cbn [join]. now apply split_lines_single.
  - change (join nl (l :: l' :: ls)) with (l ++ LF :: join nl (l' :: ls)).
    rewrite split_lines_app by assumption.
    rewrite IH; [reflexivity|discriminate|assumption].
Qed.

(** *** Round trip *)

(** The line a lyric segment without translation serializes to. *)
Definition lrc_text (b : SubtitleBlock) : str :=
  "["%char :: startTime b ++ "]"%char :: originalText b.

Lemma stringifyLRC_block_text (b : SubtitleBlock) :
  translatedText b = [] -> stringifyLRC_block ONLY_TRANSLATION b = lrc_text b.
Proof.
  intro H. unfold stringifyLRC_block, timeTag, lrc_text, or_else. rewrite H.
  cbn [Js.truthy list_ascii_of_string app]. now rewrite <- app_assoc.
Qed.

Lemma lrc_text_no_terminator (b : SubtitleBlock) :
  lrc_segment b -> no_terminator (lrc_text b).
Proof.
  intros (Hs & _ & _ & _ & Ht & _). unfold lrc_text.
  constructor; [reflexivity|]. apply Forall_app. split.
  - now apply is_lrc_time_no_terminator.
  - constructor; [reflexivity|assumption].
Qed.

Definition renumbered_lrc (first : nat) (segs : list SubtitleBlock) : list SubtitleBlock :=
  map_index (fun b i => mkBlock i (startTime b) [] (originalText b) [] false) segs first.

Lemma parseLRC_loop_lrc_text (segs : list SubtitleBlock) (first : nat) :
  Forall lrc_segment segs ->
  parseLRC_loop (map lrc_text segs) first = renumbered_lrc first segs.
Proof.
  revert first; induction segs as [|b rest IH]; intros first H; [reflexivity|].
  inversion H as [|? ? Hb Hrest]; subst.
  destruct Hb as (Hs & _ & Hne & Htrim & Hterm & _).
  cbn [map parseLRC_loop]. unfold lrc_text at 1.
  rewrite is_lrc_time_parses by assumption.
  rewrite take_while_all by assumption.
  rewrite trim_id by assumption.
  apply truthy_nonempty in Hne. rewrite Hne.
  unfold renumbered_lrc in *. cbn [map_index]. now rewrite IH.
Qed.

Lemma renumbered_lrc_id (first : nat) (segs : list SubtitleBlock) :
  map id segs = seq first (List.length segs) ->
  Forall lrc_segment segs ->
  renumbered_lrc first segs = segs.
Proof.
  revert first; induction segs as [|b rest IH]; intros first Hids H; [reflexivity|].
  inversion H as [|? ? Hb Hrest]; subst.
  cbn in Hids. inversion Hids as [[Hid Hrest_ids]].
  unfold renumbered_lrc in *. cbn [map_index]. rewrite IH by assumption.
  destruct Hb as (_ & He & _ & _ & _ & Ht & Hf).
  destruct b; cbn in *; subst. reflexivity.
Qed.

(** X14.  Lyrics round trip: serializing the segments [parseLRC] found
    in any text, in translation-only mode, and parsing the result
    gives the very same segment list. *)
Theorem parseLRC_round_trip (X : str) :
  parseLRC (stringifyLRC (parseLRC X) ONLY_TRANSLATION) = parseLRC X.
Proof.
  pose proof (parseLRC_loop_segments (split_re Re.line_break 0 X) 1) as Hseg.
  pose proof (parseLRC_loop_ids (split_re Re.line_break 0 X) 1) as Hids.
  fold (parseLRC X) in Hseg, Hids.
  set (segs := parseLRC X) in *.
  assert (Hser : stringifyLRC segs ONLY_TRANSLATION = join nl (map lrc_text segs)).
  { unfold stringifyLRC. f_equal. apply map_ext_in. intros b Hb.
    apply stringifyLRC_block_text. rewrite Forall_forall in Hseg. apply (Hseg b Hb). }
  rewrite Hser. unfold parseLRC at 1.
  destruct segs as [|b rest] eqn:E; [reflexivity|].
  rewrite split_lines_join.
  - rewrite parseLRC_loop_lrc_text by assumption. now apply renumbered_lrc_id.
  - discriminate.
  - rewrite Forall_forall. intros l Hl. apply in_map_iff in Hl.
    destruct Hl as (x & <- & Hx). apply lrc_text_no_terminator.
    rewrite Forall_forall in Hseg. now apply Hseg.
Qed.

(* ================================================================== *)
(** * Plain-text paragraphs *)
(* ================================================================== *)

(** A paragraph that survives the filter of [parsePlainText]. *)
Definition nonblank (p : str) : Prop := exists c, In c p /\ is_space c = false.

Lemma nonblank_cons (c : ascii) (p : str) : nonblank p -> nonblank (c :: p).
Proof. intros (x & Hin & Hx). exists x. split; [now right|assumption]. Qed.

Lemma nonblank_truthy (p : str) : nonblank p -> Js.truthy (trim p) = true.
Proof. intros (x & Hin & Hx). now apply (trim_truthy p x). Qed.

(** The greedy white space run of the separator leaves no line feed
    behind it. *)
Lemma ws_then_lf_greedy (s : str) (n : nat) :
  Re.ws_then_lf s = Some n -> Re.ws_then_lf (skipn n s) = None.
Proof.
  revert n; induction s as [|c s IH]; intros n H; [discriminate|].
  cbn [Re.ws_then_lf] in H. destruct (is_space c); [|discriminate].
  destruct (Re.ws_then_lf s) as [m|] eqn:E.
  - inversion H; subst. cbn [skipn]. now apply IH.
  - destruct (Ascii.eqb c LF); [|discriminate]. inversion H; subst.
    cbn [skipn]. exact E.
Qed.

Lemma ws_then_lf_LF (s : str) : Re.ws_then_lf (LF :: s) <> None.
Proof.
  cbn [Re.ws_then_lf]. rewrite space_LF.
  destruct (Re.ws_then_lf s); [discriminate|].
  rewrite Ascii.eqb_refl. discriminate.
Qed.

Lemma ws_then_lf_space (c : ascii) (s : str) :
  is_space c = true -> Re.ws_then_lf (c :: s) = None -> Re.ws_then_lf s = None.
Proof.
  intros Hc H. cbn [Re.ws_then_lf] in H. rewrite Hc in H.
  destruct (Re.ws_then_lf s); [discriminate|reflexivity].
Qed.

Lemma split_re_skip (re : str -> option nat) (n : nat) (s : str) :
  split_re re n s = split_re re 0 (skipn n s).
Proof.
  revert n; induction s as [|c s IH]; intros [|n]; try reflexivity.
  cbn [split_re skipn]. apply IH.
Qed.

Lemma tl_cons_head (c : ascii) (parts : list str) :
  tl (cons_head c parts) = tl parts.
Proof. destruct parts; reflexivity. Qed.

(** Between two separators there is always something to translate:
    of the paragraphs the split returns, only the first and the last
    can be blank. *)
Lemma paragraphs_inner (n : nat) (s : str) :
  List.length s <= n ->
  Forall nonblank (removelast (tl (split_re Re.blank_line 0 s)))
  /\ (Re.ws_then_lf s = None ->
      Forall nonblank (removelast (split_re Re.blank_line 0 s))).
Proof.
  revert s; induction n as [|n IH]; intros s Hlen.
  - destruct s; [|cbn in Hlen; lia]. split; [|intros _]; constructor.
  - destruct s as [|c s]; [split; [|intros _]; constructor|].
    cbn [List.length] in Hlen. assert (Hs : List.length s <= n) by lia.
    destruct (IH s Hs) as [Hinner Hfresh].
    assert (Hcons : Forall nonblank
                      (removelast (tl (cons_head c (split_re Re.blank_line 0 s)))))
      by now rewrite tl_cons_head.
    split.
    + cbn [split_re].
      destruct (Re.blank_line (c :: s)) as [[|m]|] eqn:Eb; try exact Hcons.
      cbn [tl]. rewrite split_re_skip.
      cbn [Re.blank_line] in Eb. destruct (Ascii.eqb c LF); [|discriminate].
      destruct (Re.ws_then_lf s) as [k|] eqn:Ew; [|discriminate].
      cbn [option_map] in Eb. inversion Eb; subst k.
      apply IH.
      * rewrite length_skipn. lia.
      * now apply ws_then_lf_greedy.
    + intro Hnone.
      assert (Hc : c <> LF) by (intros ->; now apply (ws_then_lf_LF s)).
      cbn [split_re]. rewrite (blank_line_not_LF c s Hc).
      pose proof (split_re_nonempty Re.blank_line 0 s) as Hne.
      destruct (split_re Re.blank_line 0 s) as [|p ps]; [contradiction|].
      cbn [cons_head]. destruct ps as [|q ps]; [constructor|].
      change (removelast ((c :: p) :: q :: ps))
        with ((c :: p) :: removelast (q :: ps)).
      constructor; [|exact Hinner].
      destruct (is_space c) eqn:Esp.
      * apply nonblank_cons.
        specialize (Hfresh (ws_then_lf_space c s Esp Hnone)).
        change (removelast (p :: q :: ps)) with (p :: removelast (q :: ps)) in Hfresh.
        now inversion Hfresh.
      * exists c. split; [now left|assumption].
Qed.

Lemma kept_ids (ps : list str) (k : nat) :
  Forall nonblank (removelast ps) ->
  map id (filter (fun b => (0 <? List.length (originalText b))%nat)
                 (parsePlainText_map ps k))
  = seq (k + 1)
        (List.length (filter (fun b => (0 <? List.length (originalText b))%nat)
                             (parsePlainText_map ps k))).
Proof.
  revert k; induction ps as [|p ps IH]; intros k H; [reflexivity|].
  destruct ps as [|q ps].
  - cbn [parsePlainText_map filter originalText].
    destruct (trim p); reflexivity.
  - change (removelast (p :: q :: ps)) with (p :: removelast (q :: ps)) in H.
    inversion H as [|? ? Hp Hrest]; subst.
    apply nonblank_truthy in Hp.
    change (parsePlainText_map (p :: q :: ps) k)
      with (mkBlock (k + 1) placeholder_time placeholder_time (trim p) [] false
              :: parsePlainText_map (q :: ps) (S k)).
    cbn [filter originalText].
    destruct (trim p) as [|a t]; [discriminate|].
    cbn [List.length Nat.ltb Nat.leb map id seq].
    f_equal. exact (IH (S k) Hrest).
Qed.

(** X15.  Although [parsePlainText] numbers the paragraphs before it
    drops the blank ones, the identifiers of the segments it returns
    are always consecutive: they start at 1 when the first paragraph
    has text and at 2 when it is blank, because a blank paragraph can
    only be the first or the last. *)
Theorem parsePlainText_ids_consecutive (content : str) :
  let first :=
    if Js.truthy (trim (hd [] (split_re Re.blank_line 0 content))) then 1 else 2 in
  map id (parsePlainText content)
  = seq first (List.length (parsePlainText content)).
Proof.
  unfold parsePlainText.
  destruct (paragraphs_inner (List.length content) content (le_n _)) as [Hinner _].
  pose proof (split_re_nonempty Re.blank_line 0 content) as Hne.
  destruct (split_re Re.blank_line 0 content) as [|p0 rest]; [contradiction|].
  cbn [tl hd] in *.
  pose proof (kept_ids rest 1 Hinner) as Hrest.
  cbn [parsePlainText_map filter originalText].
  destruct (trim p0) as [|a t]; cbn [Js.truthy List.length Nat.ltb Nat.leb].
  - exact Hrest.
  - cbn [map id List.length seq Nat.add]. f_equal. exact Hrest.
Qed.

(** ** Plain-text round trip *)

(** A segment as [parsePlainText] produces it. *)
Definition plain_segment (b : SubtitleBlock) : Prop :=
  startTime b = placeholder_time
  /\ endTime b = placeholder_time
  /\ originalText b <> []
  /\ trimmed (originalText b)
  /\ blank_free (originalText b)
  /\ translatedText b = []
  /\ isTranslating b = false.

Lemma blank_free_trim (p : str) : blank_free p -> blank_free (trim p).
Proof.
  destruct (trim_substring p) as (a & b & Hab). intro H. rewrite Hab in H.
  apply blank_free_suffix in H. now apply blank_free_prefix in H.
Qed.

Lemma parsePlainText_map_plain (ps : list str) (k : nat) :
  Forall blank_free ps ->
  Forall plain_segment
    (filter (fun b => (0 <? List.length (originalText b))%nat)
            (parsePlainText_map ps k)).
Proof.
  revert k; induction ps as [|p ps IH]; intros k H;
    cbn [parsePlainText_map filter originalText]; [constructor|].
  inversion H as [|? ? Hp Hps]; subst.
  destruct (trim p) as [|a t] eqn:E; cbn [List.length Nat.ltb Nat.leb];
    [now apply IH|].
  constructor; [|now apply IH].
  unfold plain_segment.
  cbn [startTime endTime originalText translatedText isTranslating].
  rewrite <- E.
  repeat split; try reflexivity.
  - rewrite E. discriminate.
  - apply trim_trimmed.
  - apply trim_trimmed.
  - now apply blank_free_trim.
Qed.

Lemma parsePlainText_plain_segments (content : str) :
  Forall plain_segment (parsePlainText content).
Proof. apply parsePlainText_map_plain, split_blank_free. Qed.

Lemma plain_export_texts (blocks : list SubtitleBlock) :
  Forall plain_segment blocks ->
  generateFormattedContent PLAIN_TEXT blocks ONLY_TRANSLATION
  = join (nl ++ nl) (map originalText blocks).
Proof.
  intro H. cbn [generateFormattedContent]. f_equal. apply map_ext_in.
  intros b Hb. rewrite Forall_forall in H.
  destruct (H b Hb) as (_ & _ & _ & _ & _ & Ht & _).
  unfold resolved_text, or_else. now rewrite Ht.
Qed.

Definition paragraph_text (t : str) : Prop :=
  t <> [] /\ trimmed t /\ blank_free t.

Lemma join_paragraphs_head (t : str) (ts : list str) :
  paragraph_text t ->
  exists c r, join (nl ++ nl) (t :: ts) = c :: r /\ is_space c = false.
Proof.
  intros (Hne & [Hh _] & _). destruct t as [|c r]; [contradiction|].
  cbn in Hh. destruct ts as [|t' ts].
  - exists c, r. split; [reflexivity|assumption].
  - exists c, (r ++ (nl ++ nl) ++ join (nl ++ nl) (t' :: ts)).
    split; [reflexivity|assumption].
Qed.

Lemma split_paragraphs (texts : list str) :
  texts <> [] -> Forall paragraph_text texts ->
  split_re Re.blank_line 0 (join (nl ++ nl) texts) = texts.
Proof.
  induction texts as [|t ts IH]; intros Hne Hall; [contradiction|].
  inversion Hall as [|? ? Ht Hts]; subst.
  destruct Ht as (_ & [_ Hlast] & Hfree).
  destruct ts as [|t' ts].
  - cbn [join].
    pose proof (split_re_quiet t [] (quiet_text t [] Hfree Hlast)) as H.
    rewrite app_nil_r in H. rewrite H. cbn [split_re]. now rewrite app_nil_r.
  - inversion Hts as [|? ? Ht' _]; subst.
    destruct (join_paragraphs_head t' ts Ht') as (c & r & Hj & Hc).
    change (join (nl ++ nl) (t :: t' :: ts))
      with (t ++ LF :: LF :: join (nl ++ nl) (t' :: ts)).
    rewrite split_re_quiet by now apply quiet_text.
    specialize (IH ltac:(discriminate) Hts).
    rewrite Hj in *. rewrite split_re_separator by assumption.
    rewrite IH, app_nil_r. reflexivity.
Qed.

Lemma parsePlainText_map_texts (segs : list SubtitleBlock) (k : nat) :
  Forall plain_segment segs ->
  filter (fun b => (0 <? List.length (originalText b))%nat)
         (parsePlainText_map (map originalText segs) k)
  = renumbered (k + 1) segs.
Proof.
  revert k; induction segs as [|b rest IH]; intros k H; [reflexivity|].
  inversion H as [|? ? Hb Hrest]; subst.
  destruct Hb as (Hs & He & Hne & Htrim & _).
  cbn [map parsePlainText_map filter originalText].
  rewrite trim_id by assumption.
  destruct (originalText b) as [|a t] eqn:E; [contradiction|].
  cbn [List.length Nat.ltb Nat.leb].
  unfold renumbered in *. cbn [map_index].
  rewrite Hs, He, E. f_equal. exact (IH (S k) Hrest).
Qed.

Lemma renumbered_texts (first : nat) (segs : list SubtitleBlock) :
  map originalText (renumbered first segs) = map originalText segs.
Proof.
  unfold renumbered. revert first; induction segs as [|b rest IH]; intro first;
    [reflexivity|].
  cbn [map_index map originalText]. now rewrite IH.
Qed.

Lemma renumbered_ids (first : nat) (segs : list SubtitleBlock) :
  map id (renumbered first segs) = seq first (List.length segs).
Proof.
  unfold renumbered. revert first; induction segs as [|b rest IH]; intro first;
    [reflexivity|].
  cbn [map_index map id List.length seq]. now rewrite IH.
Qed.

(** X16.  Plain text round trip: exporting the segments of any text in
    translation-only mode, before anything is translated, and parsing
    the export as plain text gives the same segments, numbered from 1:
    same texts in the same order, same placeholder times. *)
Theorem plain_text_round_trip (X : str) :
  let segs := parsePlainText X in
  let again :=
    parsePlainText (generateFormattedContent PLAIN_TEXT segs ONLY_TRANSLATION) in
  again = renumbered 1 segs
  /\ map originalText again = map originalText segs
  /\ map id again = seq 1 (List.length segs).
Proof.
  intros segs again.
  assert (Heq : again = renumbered 1 segs).
  { subst again. pose proof (parsePlainText_plain_segments X) as Hseg.
    fold segs in Hseg. rewrite plain_export_texts by assumption.
    destruct segs as [|b rest] eqn:E; [reflexivity|].
    unfold parsePlainText. rewrite split_paragraphs.
    - apply (parsePlainText_map_texts (b :: rest) 0 Hseg).
    - discriminate.
    - rewrite Forall_forall. intros t Ht. apply in_map_iff in Ht.
      destruct Ht as (x & <- & Hx). rewrite Forall_forall in Hseg.
      destruct (Hseg x Hx) as (_ & _ & Hne & Htrim & Hfree & _).
      repeat split; try assumption; apply Htrim. }
  rewrite Heq. split; [reflexivity|]. split.
  - apply renumbered_texts.
  - apply renumbered_ids.
Qed.

(* ================================================================== *)
(** * Format detection *)
(* ================================================================== *)

(** ** A time line found in a part is found in the whole *)

Lemma starts_with_app (p s post : str) :
  starts_with p s = true ->
  starts_with p (s ++ post) = true
  /\ skipn (List.length p) (s ++ post) = skipn (List.length p) s ++ post.
Proof.
  revert s; induction p as [|x p IH]; intros s H; [split; reflexivity|].
  destruct s as [|y s]; [discriminate|]. cbn [starts_with] in H.
  apply andb_true_iff in H. destruct H as [Hxy Hp].
  destruct (IH s Hp) as [H1 H2].
  cbn [app starts_with List.length skipn]. rewrite Hxy, H1. split; [reflexivity|exact H2].
Qed.

Lemma lit_app (p s r post : str) :
  Re.lit p s = Some r -> Re.lit p (s ++ post) = Some (r ++ post).
Proof.
  unfold Re.lit. destruct (starts_with p s) eqn:E; [|discriminate].
  intros [= <-]. destruct (starts_with_app p s post E) as [-> ->]. reflexivity.
Qed.

Lemma timestamp_mono (s t r post : str) :
  Re.timestamp s = Some (t, r) -> Re.timestamp (s ++ post) = Some (t, r ++ post).
Proof.
  unfold Re.timestamp.
  destruct (Re.is_timestamp (firstn 12 s)) eqn:E; [|discriminate].
  destruct (is_timestamp_shape _ E) as (Hlen & _).
  rewrite length_firstn in Hlen.
  rewrite firstn_app, skipn_app.
  replace (12 - List.length s) with 0 by lia.
  rewrite firstn_O, skipn_O, app_nil_r, E.
  intro H. inversion H. reflexivity.
Qed.

Lemma trim_start_app (r post : str) :
  trim_start r <> [] -> trim_start (r ++ post) = trim_start r ++ post.
Proof.
  unfold trim_start. induction r as [|c r IH]; intro H; [contradiction|].
  cbn [app drop_while] in *. destruct (is_space c); [now apply IH|reflexivity].
Qed.

Lemma time_line_at_mono (s post : str) (r : str * str) :
  Re.time_line_at s = Some r -> Re.time_line_at (s ++ post) = Some r.
Proof.
  unfold Re.time_line_at.
  destruct (Re.timestamp s) as [[t1 r1]|] eqn:E1; [|discriminate].
  rewrite (timestamp_mono _ _ _ post E1).
  destruct (Re.lit "-->" (trim_start r1)) as [r2|] eqn:E2; [|discriminate].
  assert (H1 : trim_start r1 <> []) by (intro H; rewrite H in E2; discriminate).
  rewrite (trim_start_app _ post H1), (lit_app _ _ _ post E2).
  destruct (Re.timestamp (trim_start r2)) as [[t2 r3]|] eqn:E3; [|discriminate].
  assert (H2 : trim_start r2 <> []) by (intro H; rewrite H in E3; discriminate).
  rewrite (trim_start_app _ post H2), (timestamp_mono _ _ _ post E3).
  intro H. exact H.
Qed.

Lemma time_line_unfold (s : str) :
  Re.time_line s
  = match Re.time_line_at s with
    | Some r => Some r
    | None => match s with [] => None | _ :: s' => Re.time_line s' end
    end.
Proof. destruct s; reflexivity. Qed.

Lemma isSRTContent_cons (c : ascii) (s : str) :
  isSRTContent s = true -> isSRTContent (c :: s) = true.
Proof.
  unfold isSRTContent. intro H. rewrite (time_line_unfold (c :: s)).
  destruct (Re.time_line_at (c :: s)); [reflexivity|exact H].
Qed.

Lemma isSRTContent_app (s post : str) :
  isSRTContent s = true -> isSRTContent (s ++ post) = true.
Proof.
  unfold isSRTContent. induction s as [|c s IH]; intro H.
  - discriminate H.
  - rewrite time_line_unfold in H. cbn [app]. rewrite time_line_unfold.
    destruct (Re.time_line_at (c :: s)) as [r|] eqn:E.
    + change (c :: s ++ post) with ((c :: s) ++ post).
      now rewrite (time_line_at_mono _ post r E).
    + destruct (Re.time_line_at (c :: s ++ post)); [reflexivity|now apply IH].
Qed.

Lemma isSRTContent_substring (pre s post : str) :
  isSRTContent s = true -> isSRTContent (pre ++ s ++ post) = true.
Proof.
  intro H. induction pre as [|c pre IH].
  - cbn [app]. now apply isSRTContent_app.
  - cbn [app]. now apply isSRTContent_cons.
Qed.

(** ** The pieces of a split are parts of the text *)

Definition part_of (l s : str) : Prop := exists pre post, s = pre ++ l ++ post.

Lemma part_of_nil (s : str) : part_of [] s.
Proof. now exists [], s. Qed.

Lemma part_of_cons (c : ascii) (l s : str) : part_of l s -> part_of l (c :: s).
Proof. intros (pre & post & ->). now exists (c :: pre), post. Qed.

Lemma part_of_trans (a b c : str) : part_of a b -> part_of b c -> part_of a c.
Proof.
  intros (p1 & q1 & ->) (p2 & q2 & ->). exists (p2 ++ p1), (q1 ++ q2).
  now rewrite <- !app_assoc.
Qed.

Lemma split_on_first_prefix (d : ascii) (s p : str) (ps : list str) :
  split_on d s = p :: ps -> (exists r, s = p ++ r) /\ ~ In d p.
Proof.
  revert p ps; induction s as [|c s IH]; intros p ps H; cbn [split_on] in H.
  - inversion H. split; [now exists []|intros []].
  - destruct (Ascii.eqb_spec c d) as [->|Hc].
    + inversion H. split; [now exists (d :: s)|intros []].
    + pose proof (split_on_nonempty d s) as Hne.
      destruct (split_on d s) as [|p' ps']; [contradiction|].
      cbn [cons_head] in H. inversion H; subst.
      destruct (IH p' ps eq_refl) as [[r ->] Hd]. split; [now exists r|].
      intros [E|E]; [now apply Hc|now apply Hd].
Qed.

Lemma split_on_parts (d : ascii) (s l : str) :
  In l (split_on d s) -> part_of l s /\ ~ In d l.
Proof.
  revert l; induction s as [|c s IH]; intros l H; cbn [split_on] in H.
  - destruct H as [<-|[]]. split; [apply part_of_nil|intros []].
  - destruct (Ascii.eqb_spec c d) as [->|Hc].
    + destruct H as [<-|H]; [split; [apply part_of_nil|intros []]|].
      destruct (IH l H) as [Hp Hd]. split; [now apply part_of_cons|assumption].
    + pose proof (split_on_nonempty d s) as Hne.
      destruct (split_on d s) as [|p' ps'] eqn:E; [contradiction|].
      cbn [cons_head] in H. destruct H as [<-|H].
      * destruct (split_on_first_prefix d s p' ps' E) as [[r ->] Hd].
        split; [now exists [], r|].
        intros [E'|E']; [now apply Hc|now apply Hd].
      * destruct (IH l (or_intror H)) as [Hp Hd].
        split; [now apply part_of_cons|assumption].
Qed.

Lemma split_re_parts (re : str -> option nat) (skip : nat) (s l : str) :
  In l (split_re re skip s) -> part_of l s.
Proof.
  revert skip l; induction s as [|c s IH]; intros skip l H; cbn [split_re] in H.
  - destruct H as [<-|[]]. apply part_of_nil.
  - destruct skip as [|k]; [|apply part_of_cons; now apply (IH k)].
    assert (Hcons : In l (cons_head c (split_re re 0 s)) -> part_of l (c :: s)).
    { intro Hin. pose proof (split_re_nonempty re 0 s) as Hne.
      destruct (split_re re 0 s) as [|p ps] eqn:E; [contradiction|].
      cbn [cons_head] in Hin. destruct Hin as [<-|Hin].
      - destruct (split_re_first_prefix re s p ps E) as [r ->]. now exists [], r.
      - apply part_of_cons, (IH 0). rewrite E. now right. }
    destruct (re (c :: s)) as [[|n]|]; auto.
    destruct H as [<-|H]; [apply part_of_nil|].
    apply part_of_cons. now apply (IH n).
Qed.

(** A part without line feed of the normalized text is a part of the
    text itself: the carriage returns [parseSRT] drops all stood
    before a line feed. *)
Lemma replace_crlf_prefix (n : nat) (s l post : str) :
  List.length s <= n ->
  Re.replace_crlf s = l ++ post -> single_line l -> exists post', s = l ++ post'.
Proof.
  revert s l post; induction n as [|n IH]; intros s l post Hlen H Hl.
  - destruct s; [|cbn in Hlen; lia]. cbn in H. symmetry in H.
    apply app_eq_nil in H. destruct H as [-> _]. now exists [].
  - destruct l as [|x l]; [now exists s|].
    destruct s as [|c1 s]; [discriminate H|].
    cbn [List.length] in Hlen. cbn [Re.replace_crlf] in H.
    destruct s as [|c2 s].
    + cbn [app] in H. inversion H; subst.
      destruct l; [now exists []|discriminate].
    + destruct (Ascii.eqb c1 CR && Ascii.eqb c2 LF) eqn:E.
      * cbn [app] in H. inversion H; subst. exfalso. apply Hl. now left.
      * cbn [app] in H. inversion H as [[Hx Hrest]]. subst x.
        destruct (IH (c2 :: s) l post) as [post' Hp].
        -- lia.
        -- exact Hrest.
        -- intro Hin. apply Hl. now right.
        -- exists post'. cbn [app]. now rewrite <- Hp.
Qed.

Lemma replace_crlf_part (n : nat) (s l : str) :
  List.length s <= n ->
  part_of l (Re.replace_crlf s) -> single_line l -> part_of l s.
Proof.
  revert s; induction n as [|n IH]; intros s Hlen (pre & post & H) Hl.
  - destruct s; [|cbn in Hlen; lia]. cbn in H. symmetry in H.
    apply app_eq_nil in H. destruct H as [_ H]. apply app_eq_nil in H.
    destruct H as [-> _]. apply part_of_nil.
  - destruct pre as [|x pre].
    + cbn [app] in H. destruct (replace_crlf_prefix (S n) s l post Hlen H Hl) as [post' ->].
      now exists [], post'.
    + destruct s as [|c1 s]; [discriminate H|].
      cbn [List.length] in Hlen. cbn [Re.replace_crlf] in H.
      destruct s as [|c2 s].
      * cbn [app] in H. inversion H as [[Hx Hrest]].
        symmetry in Hrest. apply app_eq_nil in Hrest. destruct Hrest as [_ Hrest].
        apply app_eq_nil in Hrest. destruct Hrest as [-> _]. apply part_of_nil.
      * destruct (Ascii.eqb c1 CR && Ascii.eqb c2 LF) eqn:E.
        -- cbn [app] in H. inversion H as [[Hx Hrest]].
           do 2 apply part_of_cons. apply IH; [cbn [List.length] in Hlen; lia| |exact Hl].
           now exists pre, post.
        -- cbn [app] in H. inversion H as [[Hx Hrest]].
           apply part_of_cons. apply IH; [lia| |exact Hl].
           now exists pre, post.
Qed.

(** ** What the parsers need is what the detectors look for *)

Lemma findIndex_In {A} (p : A -> bool) (l : list A) (i : nat) (d : A) :
  findIndex p l = Some i -> In (nth i l d) l.
Proof.
  revert i; induction l as [|x l IH]; intros i H; [discriminate|].
  cbn [findIndex] in H. destruct (p x).
  - inversion H. now left.
  - destruct (findIndex p l) as [j|]; [|discriminate].
    inversion H. right. now apply IH.
Qed.

Lemma parseSRT_block_time_line (block : str) (x : str * str * str) :
  parseSRT_block block = Some x ->
  exists line, part_of line block /\ single_line line /\ isSRTContent line = true.
Proof.
  unfold parseSRT_block.
  destruct (negb _); [discriminate|].
  destruct (_ <? _)%nat; [discriminate|].
  destruct (findIndex _ _) as [i|] eqn:Ei; [|discriminate].
  destruct (Re.time_line _) as [r|] eqn:Et; [|discriminate].
  intros _. apply (findIndex_In _ _ _ []) in Ei. apply split_on_parts in Ei.
  destruct Ei as [Hp Hl].
  exists (nth i (split_on LF block) []). repeat split; try assumption.
  unfold isSRTContent. now rewrite Et.
Qed.

Lemma parseSRT_loop_block (blocks : list str) (k : nat) :
  parseSRT_loop blocks k <> [] ->
  exists block x, In block blocks /\ parseSRT_block block = Some x.
Proof.
  revert k; induction blocks as [|b bs IH]; intros k H; [contradiction|].
  cbn [parseSRT_loop] in H.
  destruct (parseSRT_block b) as [x|] eqn:E.
  - exists b, x. split; [now left|assumption].
  - destruct (IH k) as (b' & x & Hin & Hx).
    + destruct (parseSRT_block b); [discriminate|exact H].
    + exists b', x. split; [now right|assumption].
Qed.

Lemma parseSRT_detected (content : str) :
  parseSRT content <> [] -> isSRTContent content = true.
Proof.
  intro H. destruct (parseSRT_loop_block _ _ H) as (block & x & Hin & Hx).
  apply split_re_parts in Hin.
  destruct (parseSRT_block_time_line block x Hx) as (line & Hp & Hl & Hs).
  pose proof (part_of_trans _ _ _ Hp Hin) as Hn.
  apply (replace_crlf_part (List.length content)) in Hn; [|apply le_n|exact Hl].
  destruct Hn as (pre & post & ->). now apply isSRTContent_substring.
Qed.

Lemma lrc_tag_line (s : str) :
  lrc_tag s = match Re.lrc_line s with Some _ => true | None => false end.
Proof.
  unfold lrc_tag, Re.lrc_line. destruct s as [|c r]; [reflexivity|].
  destruct c as [[] [] [] [] [] [] [] []]; try reflexivity.
  destruct (Re.is_mmss _); [|reflexivity].
  destruct (Re.lrc_fraction _) as [[frac rest]|]; reflexivity.
Qed.

Lemma lrc_line_form (line t r : str) :
  Re.lrc_line line = Some (t, r) ->
  exists rest, line = "["%char :: t ++ "]"%char :: rest.
Proof.
  unfold Re.lrc_line. destruct line as [|c r0]; [discriminate|].
  destruct (Ascii.eqb_spec c "["); [|
    destruct c as [[] [] [] [] [] [] [] []]; try discriminate; congruence].
  subst c. pose proof (firstn_skipn 5 r0) as Hcut. revert Hcut.
  generalize (firstn 5 r0) as m. generalize (skipn 5 r0) as f. intros f m Hcut.
  destruct (Re.is_mmss m); [|discriminate].
  destruct (Re.lrc_fraction f) as [[frac rest]|] eqn:Ef; [|discriminate].
  intros [= <- <-]. apply lrc_fraction_shape in Ef. destruct Ef as [-> _].
  exists rest. rewrite <- Hcut, <- app_assoc. reflexivity.
Qed.

Lemma lrc_line_tag (l post : str) :
  Re.lrc_line l <> None -> lrc_tag (l ++ post) = true.
Proof.
  destruct (Re.lrc_line l) as [[t r]|] eqn:E; [intros _|contradiction].
  pose proof (lrc_line_time _ _ _ E) as Ht.
  destruct (lrc_line_form _ _ _ E) as [rest ->].
  rewrite lrc_tag_line.
  change (("["%char :: t ++ "]"%char :: rest) ++ post)
    with ("["%char :: (t ++ "]"%char :: rest) ++ post).
  rewrite <- app_assoc. cbn [app].
  now rewrite is_lrc_time_parses.
Qed.

Lemma line_break_cases (s : str) (k : nat) :
  Re.line_break s = Some k ->
  (k = 1 /\ exists s', s = LF :: s')
  \/ (k = 2 /\ exists s', s = CR :: LF :: s').
Proof.
  unfold Re.line_break. destruct s as [|c1 [|c2 s]]; [discriminate| |].
  - destruct (Ascii.eqb_spec c1 LF) as [->|]; [|discriminate].
    intros [= <-]. left. split; [reflexivity|now exists []].
  - destruct (Ascii.eqb_spec c1 CR) as [->|]; cbn [andb].
    + destruct (Ascii.eqb_spec c2 LF) as [->|].
      * intros [= <-]. right. split; [reflexivity|now exists s].
      * discriminate.
    + destruct (Ascii.eqb_spec c1 LF) as [->|]; [|discriminate].
      intros [= <-]. left. split; [reflexivity|now exists (c2 :: s)].
Qed.

Lemma lrc_first_line (s p : str) (ps : list str) :
  split_re Re.line_break 0 s = p :: ps -> Re.lrc_line p <> None ->
  lrc_tag_search true s = true.
Proof.
  intros Hs Hp. destruct (split_re_first_prefix _ _ _ _ Hs) as [r ->].
  destruct p as [|c p]; [now contradiction Hp|].
  cbn [app lrc_tag_search]. change (c :: p ++ r) with ((c :: p) ++ r).
  now rewrite (lrc_line_tag _ r Hp).
Qed.

Lemma lrc_later_line (n : nat) (s l : str) (b : bool) :
  List.length s <= n ->
  In l (tl (split_re Re.line_break 0 s)) -> Re.lrc_line l <> None ->
  lrc_tag_search b s = true.
Proof.
  revert s b; induction n as [|n IH]; intros s b Hlen Hin Hl.
  - destruct s; [contradiction Hin|cbn in Hlen; lia].
  - destruct s as [|c s]; [contradiction Hin|].
    cbn [List.length] in Hlen. cbn [split_re] in Hin.
    assert (Hcons : In l (tl (cons_head c (split_re Re.line_break 0 s))) ->
                    lrc_tag_search b (c :: s) = true).
    { rewrite tl_cons_head. intro H. cbn [lrc_tag_search].
      rewrite (IH s (is_line_terminator c)); [apply orb_true_r|lia|exact H|exact Hl]. }
    destruct (Re.line_break (c :: s)) as [[|m]|] eqn:E; auto.
    cbn [tl] in Hin. rewrite split_re_skip in Hin.
    assert (Hrest : forall r, In l (split_re Re.line_break 0 r) ->
                              List.length r <= n -> lrc_tag_search true r = true).
    { intros r Hr Hn. destruct (split_re Re.line_break 0 r) as [|p ps] eqn:Er;
        [contradiction|].
      destruct Hr as [->|Hr].
      - now apply (lrc_first_line r l ps).
      - apply IH; [exact Hn| |exact Hl]. rewrite Er. exact Hr. }
    destruct (line_break_cases _ _ E) as [[Hk (s' & Hs)]|[Hk (s' & Hs)]];
      inversion Hk; subst m; inversion Hs; subst.
    + cbn [skipn] in Hin. cbn [lrc_tag_search].
      change (is_line_terminator LF) with true.
      rewrite (Hrest s' Hin) by lia. apply orb_true_r.
    + cbn [skipn] in Hin. cbn [lrc_tag_search].
      change (is_line_terminator LF) with true.
      cbn [List.length] in Hlen.
      rewrite (Hrest s' Hin) by lia. now rewrite !orb_true_r.
Qed.

Lemma parseLRC_loop_line (lines : list str) (k : nat) :
  parseLRC_loop lines k <> [] ->
  exists l, In l lines /\ Re.lrc_line l <> None.
Proof.
  revert k; induction lines as [|l ls IH]; intros k H; [contradiction|].
  cbn [parseLRC_loop] in H.
  destruct (Re.lrc_line l) as [[t r]|] eqn:E.
  - exists l. split; [now left|]. rewrite E. discriminate.
  - destruct (IH k H) as (l' & Hin & Hl'). exists l'. split; [now right|assumption].
Qed.

Lemma parseLRC_detected (content : str) :
  parseLRC content <> [] -> isLRCContent content = true.
Proof.
  intro H. destruct (parseLRC_loop_line _ _ H) as (l & Hin & Hl).
  unfold isLRCContent.
  destruct (split_re Re.line_break 0 content) as [|p ps] eqn:E; [contradiction|].
  destruct Hin as [->|Hin].
  - now apply (lrc_first_line content l ps).
  - apply (lrc_later_line (List.length content) content l true (le_n _)); [|exact Hl].
    rewrite E. exact Hin.
Qed.

(** X17.  Whenever [parseSRT] finds a segment in a text,
    [isSRTContent] recognises the text: a text the detector rejects
    has no segment to lose. *)
Theorem isSRTContent_complete (content : str) :
  parseSRT content <> [] -> isSRTContent content = true.
Proof. apply parseSRT_detected. Qed.

(** X18.  Whenever [parseLRC] finds a segment in a text,
    [isLRCContent] recognises the text. *)
Theorem isLRCContent_complete (content : str) :
  parseLRC content <> [] -> isLRCContent content = true.
Proof. apply parseLRC_detected. Qed.

(* ================================================================== *)
(** * The editor: text, content type and segments *)
(* ================================================================== *)

(** ** File names *)

Lemma extension_chars_dot (a b : str) : extension_chars (a ++ "."%char :: b) = false.
Proof.
  unfold extension_chars. apply andb_false_iff. right.
  induction a as [|c a IH]; cbn [app forallb].
  - reflexivity.
  - rewrite IH. apply andb_false_r.
Qed.

Lemma strip_extension_app (base ext : str) :
  extension_chars ext = true -> strip_extension (base ++ "."%char :: ext) = base.
Proof.
  intro H. induction base as [|c base IH]; cbn [app strip_extension].
  - now rewrite H.
  - rewrite extension_chars_dot, andb_false_r. now rewrite IH.
Qed.

(** X19.  The name kept for a loaded file is the file's name without
    its last extension and nothing else: either the name is the kept
    name followed by a dot and one or more characters other than dot
    and slash, or the name ends in no such extension and is kept
    whole. *)
Theorem strip_extension_spec (name : str) :
  (exists ext, extension_chars ext = true
               /\ name = strip_extension name ++ "."%char :: ext)
  \/ (strip_extension name = name
      /\ forall base ext, name = base ++ "."%char :: ext -> extension_chars ext = false).
Proof.
  induction name as [|c name IH]; cbn [strip_extension].
  - right. split; [reflexivity|]. intros [|x base] ext H; discriminate H.
  - destruct (Ascii.eqb c "." && extension_chars name) eqn:E.
    + apply andb_true_iff in E. destruct E as [Hc He]. apply Ascii.eqb_eq in Hc.
      subst c. left. exists name. split; [assumption|reflexivity].
    + destruct IH as [(ext & He & Hn)|[Hid Hno]].
      * left. exists ext. split; [assumption|]. cbn [app]. now rewrite <- Hn.
      * right. split; [now rewrite Hid|].
        intros [|x base] ext H; cbn [app] in H; inversion H; subst.
        -- rewrite Ascii.eqb_refl in E. exact E.
        -- now apply (Hno base ext).
Qed.


(** X20.  Loading a file under the name [handleDownload] gave it sets
    the file name to the old file name followed by an underscore and
    the output format, whatever the old file name was: each download
    and reload makes the name longer. *)
Theorem reloaded_download_name (fileName text : str) (outputFormat : OutputFormat)
    (contentType : ContentType) (st : Editor) :
  ed_fileName
    (processContent text (Some (download_name fileName outputFormat contentType)) st)
  = fileName ++ "_" ++ OutputFormat_value outputFormat.
Proof.
  unfold processContent. destruct (detect text) as [ct blocks]. cbn [ed_fileName].
  unfold download_name.
  assert (Hname : fileName ++ "_" ++ OutputFormat_value outputFormat ++ "."
                           ++ download_ext contentType
                  = (fileName ++ "_" ++ OutputFormat_value outputFormat)
                      ++ "."%char :: download_ext contentType).
  { now rewrite <- !app_assoc. }
  rewrite Hname.
  assert (Ht : Js.truthy ((fileName ++ "_" ++ OutputFormat_value outputFormat)
                            ++ "."%char :: download_ext contentType) = true).
  { apply truthy_nonempty. intro H. apply app_eq_nil in H. destruct H; discriminate. }
  rewrite Ht. apply strip_extension_app. destruct contentType; reflexivity.
Qed.

(** ** The segments follow the text *)

(** The segments shown are those of the text under the content type
    shown, translations apart, and none is marked as in translation. *)
Definition synced (st : Editor) : Prop :=
  map source_fields (ed_blocks st)
  = map source_fields (parse_as (ed_contentType st) (ed_rawText st))
  /\ Forall (fun b => isTranslating b = false) (ed_blocks st).

Lemma ContentType_eqb_eq (a b : ContentType) : ContentType_eqb a b = true -> a = b.
Proof. destruct a, b; cbn; congruence. Qed.

Lemma parse_as_empty (contentType : ContentType) : parse_as contentType [] = [].
Proof. destruct contentType; reflexivity. Qed.

Lemma parse_as_flags (contentType : ContentType) (text : str) :
  Forall (fun b => isTranslating b = false) (parse_as contentType text).
Proof.
  eapply Forall_impl; [|apply parse_as_fresh]. intros b (_ & _ & H). exact H.
Qed.

Lemma detect_parse (text : str) :
  snd (detect text) = parse_as (fst (detect text)) text.
Proof.
  unfold detect. destruct (isSRTContent text); [reflexivity|].
  destruct (isLRCContent text); reflexivity.
Qed.

Lemma parsed_synced (text fileName : str) (contentType : ContentType) :
  synced (mkEditor text fileName contentType (parse_as contentType text)).
Proof. split; [reflexivity|apply parse_as_flags]. Qed.

Lemma reparse_synced (text fileName : str) (contentType : ContentType)
    (blocks : list SubtitleBlock) :
  (text = [] -> blocks = []) ->
  synced (mkEditor text fileName contentType (reparse text contentType blocks)).
Proof.
  intro Hempty. unfold synced, reparse. cbn [ed_blocks ed_contentType ed_rawText].
  destruct text as [|c text].
  - cbn [Js.truthy negb]. rewrite (Hempty eq_refl), parse_as_empty.
    split; [reflexivity|constructor].
  - cbn [Js.truthy negb].
    destruct (_ =? _)%nat; [|split; [reflexivity|apply parse_as_flags]].
    split.
    + apply map_map_index. intros x i. reflexivity.
    + pose proof (parse_as_flags contentType (c :: text)) as Hf.
      apply Forall_forall. intros b Hb. apply In_nth_error in Hb.
      destruct Hb as [idx Hb]. rewrite nth_error_map_index in Hb.
      destruct (nth_error (parse_as contentType (c :: text)) idx) as [b0|] eqn:Hb0;
        [|discriminate].
      cbn [option_map] in Hb. inversion Hb; subst b. cbn [set_translatedText isTranslating].
      rewrite Forall_forall in Hf. apply Hf. eapply nth_error_In; eauto.
Qed.

Lemma synced_empty (st : Editor) : synced st -> ed_rawText st = [] -> ed_blocks st = [].
Proof.
  intros [Hs _] Hraw. rewrite Hraw, parse_as_empty in Hs.
  now apply map_eq_nil in Hs.
Qed.

Lemma effect_synced (before after : Editor) :
  (ed_contentType before = ed_contentType after -> synced after) ->
  (ed_rawText after = [] -> ed_blocks after = []) ->
  synced (contentType_effect before after).
Proof.
  intros Hsame Hempty. unfold contentType_effect.
  destruct (ContentType_eqb _ _) eqn:E.
  - apply Hsame. now apply ContentType_eqb_eq.
  - now apply reparse_synced.
Qed.

Lemma editor_step_synced (st : Editor) (ev : EditorEvent) :
  synced st -> synced (editor_step st ev).
Proof.
  intro Hst. destruct ev as [text name|text|contentType|tl tone gm pr cc call];
    cbn [editor_step].
  - assert (H : synced (processContent text name st)).
    { unfold processContent. pose proof (detect_parse text) as Hd.
      destruct (detect text) as [ct blocks]. cbn [fst snd] in Hd. subst blocks.
      apply parsed_synced. }
    apply effect_synced; [intros _; exact H|]. now apply synced_empty.
  - assert (H : synced (handleManualInput text st)).
    { unfold handleManualInput. destruct (_ =? _)%nat; [|apply parsed_synced].
      pose proof (detect_parse text) as Hd.
      destruct (detect text) as [ct blocks]. cbn [fst snd] in Hd. subst blocks.
      apply parsed_synced. }
    apply effect_synced; [intros _; exact H|]. now apply synced_empty.
  - apply effect_synced; cbn [ed_contentType ed_rawText ed_blocks].
    + intros <-. destruct st; exact Hst.
    + now apply synced_empty.
  - destruct Hst as [Hs Hf]. split; cbn [ed_blocks ed_contentType ed_rawText].
    + rewrite <- Hs.
      apply (run_keeps_source tl tone gm pr cc call (mkState (ed_blocks st) false [])).
    + destruct (ed_blocks st) as [|b bs] eqn:E.
      * cbn. constructor.
      * apply (run_clears_flags tl tone gm pr cc call (mkState (b :: bs) false [])).
        cbn [st_blocks]. discriminate.
Qed.

Lemma initial_synced : synced initial_editor.
Proof. split; [reflexivity|constructor]. Qed.

(** X21.  Whatever the user does, in whatever order (loading files,
    typing, changing the content type, running translations that
    succeed or fail), the segments shown are always those of the
    current text parsed under the current content type, with the same
    identifiers, time stamps and original texts in the same order;
    only translations can differ, and between two actions no segment
    is marked as in translation. *)
Theorem editor_segments_follow_text (events : list EditorEvent) :
  let st := fold_left editor_step events initial_editor in
  map source_fields (ed_blocks st)
  = map source_fields (parse_as (ed_contentType st) (ed_rawText st))
  /\ Forall (fun b => isTranslating b = false) (ed_blocks st).
Proof.
  cbv zeta. change (synced (fold_left editor_step events initial_editor)).
  pose proof initial_synced as H. revert H. generalize initial_editor as st.
  induction events as [|ev events IH]; intros st H; [exact H|].
  cbn [fold_left]. apply IH. now apply editor_step_synced.
Qed.

Lemma reparse_parsed (text : str) (contentType : ContentType) :
  reparse text contentType (parse_as contentType text) = parse_as contentType text.
Proof.
  unfold reparse. destruct (negb (Js.truthy text)); [reflexivity|].
  rewrite length_map, Nat.eqb_refl.
  apply (carry_own_translations [] (parse_as contentType text)).
Qed.

Lemma load_file_detect (st : Editor) (text : str) (name : option str) :
  let st' := editor_step st (LoadFile text name) in
  ed_contentType st' = fst (detect text) /\ ed_blocks st' = snd (detect text).
Proof.
  cbn [editor_step]. unfold contentType_effect, processContent.
  pose proof (detect_parse text) as Hd.
  destruct (detect text) as [ct blocks]. cbn [fst snd] in *. subst blocks.
  cbn [ed_contentType ed_rawText ed_blocks ed_fileName].
  destruct (ContentType_eqb _ _); cbn [ed_contentType ed_blocks];
    [split; reflexivity|].
  split; [reflexivity|apply reparse_parsed].
Qed.

(** X22.  Loading a text in which [parseSRT] finds segments, from any
    state, selects the subtitle type and shows exactly the segments
    of [parseSRT], untranslated: detection and the reparse effect
    that follows the change of type lose none of them. *)
Theorem loaded_subtitles_are_shown (st : Editor) (text : str) (name : option str) :
  parseSRT text <> [] ->
  let st' := editor_step st (LoadFile text name) in
  ed_contentType st' = SUBTITLE_SRT /\ ed_blocks st' = parseSRT text.
Proof.
  intros H st'. destruct (load_file_detect st text name) as [Hc Hb].
  fold st' in Hc, Hb. rewrite Hc, Hb. unfold detect.
  rewrite (parseSRT_detected text H). split; reflexivity.
Qed.

(** X23.  Loading a text without SRT time line in which [parseLRC]
    finds segments selects the lyrics type and shows exactly the
    segments of [parseLRC].  Subtitle detection comes first: the
    first hypothesis is needed. *)
Theorem loaded_lyrics_are_shown (st : Editor) (text : str) (name : option str) :
  isSRTContent text = false ->
  parseLRC text <> [] ->
  let st' := editor_step st (LoadFile text name) in
  ed_contentType st' = LYRICS_LRC /\ ed_blocks st' = parseLRC text.
Proof.
  intros Hs H st'. destruct (load_file_detect st text name) as [Hc Hb].
  fold st' in Hc, Hb. rewrite Hc, Hb. unfold detect.
  rewrite Hs, (parseLRC_detected text H). split; reflexivity.
Qed.

(* ================================================================== *)
(** * Further concrete instances *)
(* ================================================================== *)

Module Sample2.

(** Segments that were being translated when something went wrong. *)
Definition stuck : list SubtitleBlock := map (set_isTranslating true) Example.blocks.

(** Three lyric segments that carry translations. *)
Definition translated : list SubtitleBlock :=
  Sample.give Sample.translations (parseLRC Sample.lyrics3).

Definition bare : str := "{}".

End Sample2.

Lemma translateBatch_result_aligned_witness :
  translateBatch Sample.parse_ab Sample.answer Sample.offline Sample.single_request
  = Some ([EvGenerateContent 0; EvWarnMerging 2], inr [JStr ("a" ++ nl ++ "b")])
  /\ List.length [JStr ("a" ++ nl ++ "b")] = List.length (texts Sample.single_request).
Proof.
  assert (H : translateBatch Sample.parse_ab Sample.answer Sample.offline
                             Sample.single_request
              = Some ([EvGenerateContent 0; EvWarnMerging 2],
                      inr [JStr ("a" ++ nl ++ "b")])) by (vm_compute; reflexivity).
  split; [exact H|].
  exact (translateBatch_result_aligned Sample.parse_ab Sample.answer Sample.offline
           Sample.single_request _ _ H).
Defined.

Lemma startTranslation_clears_flags_witness :
  Forall (fun b => isTranslating b = true) Sample2.stuck
  /\ st_isProcessing (Example.run Sample.flaky Sample2.stuck) = false
  /\ Forall (fun b => isTranslating b = false)
            (st_blocks (Example.run Sample.flaky Sample2.stuck)).
Proof.
  split; [vm_compute; repeat constructor|].
  apply (startTranslation_clears_flags "zh-CN" "formal" "gemini-2.5-flash" GEMINI
           Example.config Sample.flaky (mkState Sample2.stuck false [])).
  vm_compute. discriminate.
Defined.

Lemma startTranslation_all_chunks_succeed_witness :
  List.length (dispatched (st_log (Example.run Example.echo Example.blocks))) = 2
  /\ option_map translatedText
       (nth_error (st_blocks (Example.run Example.echo Example.blocks)) 11)
     = Some (list_ascii_of_string "T:l").
Proof.
  destruct (startTranslation_all_chunks_succeed "zh-CN" "formal" "gemini-2.5-flash"
              GEMINI Example.config Example.echo (mkState Example.blocks false []))
    as [Hlog Hblocks].
  - vm_compute. discriminate.
  - intros i Hi. eexists. reflexivity.
  - split.
    + unfold Example.run. rewrite Hlog. vm_compute. reflexivity.
    + destruct (Hblocks 11 (mkBlock 12 placeholder_time placeholder_time "l" [] false))
        as (tr & Htr & Hb).
      * vm_compute. reflexivity.
      * unfold Example.run. rewrite Hb. cbn [option_map translatedText].
        vm_compute in Htr. inversion Htr; subst tr. vm_compute. reflexivity.
Defined.

Lemma startTranslation_never_empties_witness :
  exists b,
    nth_error (st_blocks (Example.run Sample.silent Sample2.translated)) 1 = Some b
    /\ translatedText b <> [].
Proof.
  eexists. split; [vm_compute; reflexivity|].
  apply (startTranslation_never_empties "zh-CN" "formal" "gemini-2.5-flash" GEMINI
           Example.config Sample.silent (mkState Sample2.translated false []) 1
           (mkBlock 2 "00:02.00" [] "two" "dos" false)).
  - vm_compute. repeat constructor; discriminate.
  - vm_compute. reflexivity.
  - vm_compute. discriminate.
  - vm_compute. reflexivity.
Defined.

Lemma isSRTContent_complete_witness :
  parseSRT Sample.srt <> [] /\ isSRTContent Sample.srt = true.
Proof.
  assert (H : parseSRT Sample.srt <> []) by (vm_compute; discriminate).
  split; [exact H|]. exact (isSRTContent_complete Sample.srt H).
Defined.

Lemma isLRCContent_complete_witness :
  parseLRC Sample.lyric_lines <> [] /\ isLRCContent Sample.lyric_lines = true.
Proof.
  assert (H : parseLRC Sample.lyric_lines <> []) by (vm_compute; discriminate).
  split; [exact H|]. exact (isLRCContent_complete Sample.lyric_lines H).
Defined.

Lemma loaded_subtitles_are_shown_witness :
  let st' := editor_step initial_editor (LoadFile Sample.srt (Some ("movie.srt" : str))) in
  ed_contentType st' = SUBTITLE_SRT
  /\ ed_blocks st' = parseSRT Sample.srt
  /\ ed_fileName st' = list_ascii_of_string "movie".
Proof.
  destruct (loaded_subtitles_are_shown initial_editor Sample.srt
              (Some ("movie.srt" : str))) as [Hc Hb].
  - vm_compute. discriminate.
  - split; [exact Hc|]. split; [exact Hb|]. vm_compute. reflexivity.
Defined.

Lemma loaded_lyrics_are_shown_witness :
  let st' := editor_step initial_editor (LoadFile Sample.lyrics3 None) in
  ed_contentType st' = LYRICS_LRC
  /\ ed_blocks st' = parseLRC Sample.lyrics3
  /\ List.length (ed_blocks st') = 3.
Proof.
  destruct (loaded_lyrics_are_shown initial_editor Sample.lyrics3 None) as [Hc Hb].
  - vm_compute. reflexivity.
  - vm_compute. discriminate.
  - split; [exact Hc|]. split; [exact Hb|]. vm_compute. reflexivity.
Defined.

Lemma fenced_response_is_unwrapped_witness :
  trim (Fence.remove_all Fence.fence 0 ("```json" ++ nl ++ Sample2.bare ++ nl ++ "```"))
  = Sample2.bare
  /\ validate Sample.parse_ab Sample.single_request
       (JStr ("```json" ++ nl ++ Sample2.bare ++ nl ++ "```"))
     = validate Sample.parse_ab Sample.single_request (JStr Sample2.bare).
Proof.
  destruct (fenced_response_is_unwrapped Sample.parse_ab Sample.single_request
              Sample2.bare) as [Hc Hv].
  - vm_compute. reflexivity.
  - split; [|exact Hv]. rewrite Hc. vm_compute. reflexivity.
Defined.
